(** * KenKen as a constraint-satisfaction problem

    A shallow embedding of [kenken_csp.py] (the model compilers) and
    [heuristics.py] (the ordering heuristics), with the properties of the
    design document stated and proved over it.

    Python objects have identity: a [Variable] is a cell of the object
    store, and a board, a scope or a problem refers to it by its address.
    Integers are [Z]; lists are lists; an exception is [None]. *)

From Stdlib Require Import ZArith Lia SpecFloat.
From stdpp Require Import base list strings pretty sorting.

Local Open Scope Z_scope.

(** ** Python lists and itertools *)

Module Py.

(** [l[i]] for a possibly negative index: [-1] is the last element;
    outside [-len .. len-1] the access raises IndexError. *)
Definition norm_index (n : nat) (i : Z) : option nat :=
  if bool_decide (0 ≤ i < Z.of_nat n) then Some (Z.to_nat i)
  else if bool_decide (- Z.of_nat n ≤ i < 0) then Some (Z.to_nat (Z.of_nat n + i))
  else None.

Definition get {A} (l : list A) (i : Z) : option A :=
  k ← norm_index (length l) i; l !! k.

(** [l[i] = x]. *)
Definition set {A} (l : list A) (i : Z) (x : A) : option (list A) :=
  k ← norm_index (length l) i; Some (<[k:=x]> l).

(** [range(n)]: empty when [n <= 0]. *)
Definition range (n : Z) : list Z := seqZ 0 n.

(** [itertools.product] over a list of sequences: the rightmost position
    varies fastest. *)
Fixpoint product {A} (doms : list (list A)) : list (list A) :=
  match doms with
  | [] => [[]]
  | d :: ds => x ← d; t ← product ds; [x :: t]
  end.

(** [itertools.product(a, b)] of two sequences, as pairs. *)
Definition product2 {A B} (a : list A) (b : list B) : list (A * B) :=
  x ← a; y ← b; [(x, y)].

(** [itertools.combinations(items, r=2)]: pairs of positions [i < j], in
    lexicographic order. *)
Fixpoint combinations2 {A} (items : list A) : list (A * A) :=
  match items with
  | [] => []
  | x :: xs => (pair x <$> xs) ++ combinations2 xs
  end.

(** Every way of taking one element out of a list, leftmost first. *)
Fixpoint picks {A} (l : list A) : list (A * list A) :=
  match l with
  | [] => []
  | x :: xs => (x, xs) :: ((λ p, (p.1, x :: p.2)) <$> picks xs)
  end.

Fixpoint permutations_upto {A} (n : nat) (l : list A) : list (list A) :=
  match n with
  | O => [[]]
  | S n => p ← picks l; (cons p.1) <$> permutations_upto n p.2
  end.

(** [itertools.permutations(t)]: orderings by position (equal values are
    not merged), in lexicographic order of the positions. *)
Definition permutations {A} (t : list A) : list (list A) :=
  permutations_upto (length t) t.

(** [sum(t)]. *)
Definition sum (t : list Z) : Z := foldl Z.add 0 t.

(** [s[-3:]]: the last three characters, or all of [s] when it is shorter. *)
Definition last3 (s : string) : string :=
  String.substring (String.length s - 3)%nat 3 s.

(** [','.join(ss)]. *)
Fixpoint join_comma (ss : list string) : string :=
  match ss with
  | [] => ""
  | [s] => s
  | s :: ss => s +:+ "," +:+ join_comma ss
  end.

(** [sorted(l, key=...)] is stable: insertion from the right keeps equal
    keys in their original order. *)
Fixpoint insert_by {A} (key : A → nat) (x : A) (l : list A) : list A :=
  match l with
  | [] => [x]
  | y :: ys => if bool_decide (key x ≤ key y)%nat then x :: y :: ys
               else y :: insert_by key x ys
  end.

Definition sorted {A} (key : A → nat) (l : list A) : list A :=
  foldr (insert_by key) [] l.

End Py.

(** ** The constraint model ([cspbase])

    The module is imported by both source files and is not part of them;
    its classes are modelled from section 3 and section 6 of the design
    document. *)

(** The address of a [Variable] object in the store. *)
Abbreviation var_id := nat (only parsing).

(** Modelled from the spec: the [Variable] class of [cspbase]. "identity
    (name), a domain (ordered set of candidate values), and a mutable
    current domain, a subset of the full domain, plus at most one assigned
    value at any time". *)
Record Var := mkVar {
  name : string;
  dom : list Z;
  curdom : list Z;
  assignedValue : option Z
}.

(** Modelled from the spec: the [Constraint] class of [cspbase]. "identity
    (name), an ordered tuple of scope variables, and a set of satisfying
    tuples, each tuple positionally aligned with the scope". The tuples are
    kept in the order [add_satisfying_tuples] received them. *)
Record Constraint := mkConstraint {
  con_name : string;
  scope : list var_id;
  sat_tuples : list (list Z)
}.

(** Modelled from the spec: the [CSP] container of [cspbase], "owns the
    full collection of Variables and Constraints". [store] holds the
    [Variable] objects the problem can reach, by address; [vars] and
    [cons] are the lists [add_var] and [add_constraint] fill. *)
Record CSP := mkCSP {
  csp_name : string;
  store : list Var;
  vars : list var_id;
  cons : list Constraint
}.

Module Cspbase.

(** Modelled from the spec: [Variable(name, domain)]; a new variable is
    unassigned and nothing is pruned from its current domain. *)
Definition new_Variable (nm : string) (d : list Z) : Var :=
  mkVar nm d d None.

(** Modelled from the spec: [domain()], "full domain sequence". *)
Definition domain (st : list Var) (v : var_id) : list Z :=
  from_option dom [] (st !! v).

(** Modelled from the spec: [cur_domain()], "current domain sequence". *)
Definition cur_domain (st : list Var) (v : var_id) : list Z :=
  from_option curdom [] (st !! v).

(** Modelled from the spec: [cur_domain_size()]. *)
Definition cur_domain_size (st : list Var) (v : var_id) : nat :=
  length (cur_domain st v).

(** Modelled from the spec: [is_assigned()]; a variable is assigned while
    it carries its "at most one assigned value". *)
Definition is_assigned (st : list Var) (v : var_id) : bool :=
  bool_decide (is_Some (st !! v ≫= assignedValue)).

(** Modelled from the spec: [assign(value)], "requires the value be in
    the current domain and sets the sole assigned value". *)
Definition assign (st : list Var) (v : var_id) (d : Z) : list Var :=
  alter (λ o, if bool_decide (d ∈ curdom o)
              then mkVar (name o) (dom o) (curdom o) (Some d) else o) v st.

(** Modelled from the spec: [unassign(value)], "unassign clears it". *)
Definition unassign (st : list Var) (v : var_id) (d : Z) : list Var :=
  alter (λ o, mkVar (name o) (dom o) (curdom o) None) v st.

(** Modelled from the spec: [Constraint.get_unasgn_vars()], the scope
    variables without an assigned value, in scope order. *)
Definition get_unasgn_vars (st : list Var) (c : Constraint) : list var_id :=
  filter (λ v, is_assigned st v = false) (scope c).

(** Modelled from the spec: a value is compatible with a variable's
    "current assignments/domains" when it is the assigned value, if there
    is one, and a member of the current domain otherwise. *)
Definition compatible (st : list Var) (v : var_id) (x : Z) : bool :=
  match st !! v with
  | Some o => match assignedValue o with
              | Some a => bool_decide (x = a)
              | None => bool_decide (x ∈ curdom o)
              end
  | None => false
  end.

(** Modelled from the spec: a tuple supports [val] for [var] when it
    "assigns that value to that variable" and is compatible with every
    other variable of the scope. *)
Definition supports (st : list Var) (c : Constraint) (var : var_id) (val : Z)
    (t : list Z) : bool :=
  bool_decide (length t = length (scope c)) &&
  forallb (λ ux, if bool_decide (ux.1 = var) then bool_decide (ux.2 = val)
                 else compatible st ux.1 ux.2)
          (zip (scope c) t).

(** Modelled from the spec: [has_support(variable, value)], "true iff some
    satisfying tuple, consistent with all other variables' current
    assignments/domains, assigns that value to that variable". *)
Definition has_support (st : list Var) (c : Constraint) (var : var_id)
    (val : Z) : bool :=
  existsb (supports st c var val) (sat_tuples c).

(** Modelled from the spec: [get_all_unasgn_vars()], in the order the
    variables were added. *)
Definition get_all_unasgn_vars (csp : CSP) : list var_id :=
  filter (λ v, is_assigned (store csp) v = false) (vars csp).

(** Modelled from the spec: [get_cons_with_var(variable)], "constraints
    touching a given variable", in the order they were added. *)
Definition get_cons_with_var (csp : CSP) (v : var_id) : list Constraint :=
  filter (λ c, v ∈ scope c) (cons csp).

(** The same problem over an updated object store. *)
Definition with_store (csp : CSP) (st : list Var) : CSP :=
  mkCSP (csp_name csp) st (vars csp) (cons csp).

End Cspbase.

Import Cspbase.

(** ** heuristics.py *)

(** The inner loop of [ord_dh] over one constraint: [seenVars] starts
    empty for this constraint, [curDegree] carries over. *)
Definition scan_unasgn (v : var_id) (unasgnVars : list var_id)
    (curDegree : Z) : Z :=
  (foldl (λ (acc : list var_id * Z) unasgnV,
            if bool_decide (unasgnV ≠ v) && bool_decide (unasgnV ∉ acc.1)
            then (acc.1 ++ [unasgnV], acc.2 + 1)
            else acc)
         ([], curDegree) unasgnVars).2.

(** [curDegree] of a candidate [v], as [ord_dh] computes it. *)
Definition curDegree (csp : CSP) (v : var_id) : Z :=
  foldl (λ deg c, scan_unasgn v (get_unasgn_vars (store csp) c) deg)
        0 (get_cons_with_var csp v).

Definition ord_dh (csp : CSP) : option var_id :=
  (foldl (λ (acc : Z * option var_id) v,
            let cur := curDegree csp v in
            if bool_decide (cur > acc.1) then (cur, Some v) else acc)
         (-1, None) (get_all_unasgn_vars csp)).2.

(** [mrv] starts at [float('inf')], which every size is below: [None]. *)
Definition ord_mrv (csp : CSP) : option var_id :=
  (foldl (λ (acc : option nat * option var_id) v,
            let rv := cur_domain_size (store csp) v in
            if match acc.1 with
               | None => true
               | Some mrv => bool_decide (rv < mrv)%nat
               end
            then (Some rv, Some v) else acc)
         (None, None) (get_all_unasgn_vars csp)).2.

(** [numPruned] for the state [csp], in which [var] carries its tentative
    value: the three nested loops of [val_lcv]. *)
Definition numPruned (csp : CSP) (var : var_id) : nat :=
  foldl (λ n c,
    foldl (λ n adjV,
      foldl (λ n adjVal,
               if has_support (store csp) c adjV adjVal then n else S n)
            n (cur_domain (store csp) adjV))
      n (get_unasgn_vars (store csp) c))
    0%nat (get_cons_with_var csp var).

(** One round of the loop of [val_lcv]: assign, count, unassign, record. *)
Definition lcv_step (var : var_id) (acc : CSP * list (Z * nat)) (d : Z)
    : CSP * list (Z * nat) :=
  let csp1 := with_store acc.1 (assign (store acc.1) var d) in
  let n := numPruned csp1 var in
  let csp2 := with_store csp1 (unassign (store csp1) var d) in
  (csp2, acc.2 ++ [(d, n)]).

(** [val_lcv] returns the ordered values; the problem it leaves behind is
    the first component. *)
Definition val_lcv (csp : CSP) (var : var_id) : CSP * list Z :=
  let r := foldl (lcv_step var) (csp, []) (cur_domain (store csp) var) in
  (r.1, fst <$> Py.sorted snd r.2).

(** ** Python numbers in the division cage

    [res /= i] is true division: the quotient of two ints, and every later
    quotient, is a binary64 float. The floats are those of [SpecFloat]
    with 53 bits of precision, rounded to nearest with ties to even, so
    that the division branch of the cage compiler evaluates like the other
    three. *)

Inductive pynum :=
  | PyInt (z : Z)
  | PyFloat (f : spec_float).

Module Float.

Definition prec : Z := 53.
Definition emax : Z := 1024.

Definition is_finite (f : spec_float) : bool :=
  match f with
  | S754_zero _ | S754_finite _ _ _ => true
  | _ => false
  end.

(** An int as the exact ratio [z * 2^0]. *)
Definition exact (z : Z) : spec_float :=
  match z with
  | Z0 => S754_zero false
  | Zpos p => S754_finite false p 0
  | Zneg p => S754_finite true p 0
  end.

(** [float(z)]: the nearest float, OverflowError when [z] is too large. *)
Definition of_int (z : Z) : option spec_float :=
  let f := binary_normalize prec emax z 0 false in
  if is_finite f then Some f else None.

(** [a / b] on two ints: the exact quotient rounded once;
    ZeroDivisionError, or OverflowError when the quotient is too large. *)
Definition int_truediv (a b : Z) : option spec_float :=
  if bool_decide (b = 0) then None
  else let q := SFdiv prec emax (exact a) (exact b) in
       if is_finite q then Some q else None.

(** [x / b] on a float and an int: [b] is converted first. *)
Definition float_truediv (x : spec_float) (b : Z) : option spec_float :=
  y ← of_int b;
  if bool_decide (b = 0) then None else Some (SFdiv prec emax x y).

(** [x == z] on a float and an int compares the exact values. *)
Definition eq_int (x : spec_float) (z : Z) : bool :=
  match x with
  | S754_zero _ => bool_decide (z = 0)
  | S754_finite s m e =>
      let v := if s then Zneg m else Zpos m in
      if bool_decide (0 ≤ e) then bool_decide (v * 2 ^ e = z)
      else bool_decide (v = z * 2 ^ (- e))
  | _ => false
  end.

End Float.

Definition truediv (res : pynum) (i : Z) : option pynum :=
  match res with
  | PyInt a => PyFloat <$> Float.int_truediv a i
  | PyFloat x => PyFloat <$> Float.float_truediv x i
  end.

Definition num_eq_int (res : pynum) (val : Z) : bool :=
  match res with
  | PyInt a => bool_decide (a = val)
  | PyFloat x => Float.eq_int x val
  end.

(** ** kenken_csp.py *)

(** A loop whose body may raise. *)
Fixpoint for_each {A B} (body : B → A → option B) (acc : B) (l : list A)
    : option B :=
  match l with
  | [] => Some acc
  | x :: xs => acc' ← body acc x; for_each body acc' xs
  end.

(** [kenken_grid[0][0]]. *)
Definition grid_size (kenken_grid : list (list Z)) : option Z :=
  row ← Py.get kenken_grid 0; Py.get row 0.

(** The board, [vars] in the source: rows of variables. *)
Abbreviation board := (list (list var_id)) (only parsing).

(** ['V{}{}'.format(a, b)]. *)
Definition cell_name (a b : Z) : string := "V" +:+ pretty a +:+ pretty b.

(** Modelled from the spec: [str(v)] of a [Variable] ([cspbase]); the
    document does not give its text and the compilers keep only its last
    three characters: it is taken to end with the variable's name. *)
Definition str_Variable (st : list Var) (v : var_id) : string :=
  "Var-" +:+ from_option name "" (st !! v).

(** [dom = [i+1 for i in range(size)]]. *)
Definition make_dom (size : Z) : list Z := (λ i, i + 1) <$> Py.range size.

(** The two loops that define the variables: one new object per cell, row
    by row. *)
Definition make_row (d : list Z) (vRow : Z) (st : list Var)
    : list Var * list var_id :=
  foldl (λ (acc : list Var * list var_id) vCol,
           (acc.1 ++ [new_Variable (cell_name vRow vCol) d],
            acc.2 ++ [length acc.1]))
        (st, []) d.

Definition make_vars (d : list Z) : list Var * board :=
  foldl (λ (acc : list Var * board) vRow,
           let r := make_row d vRow acc.1 in (r.1, acc.2 ++ [r.2]))
        ([], []) d.

(** The coordinates of a row or of a column. *)
Definition line_items (index size : Z) (isRowConstraints : bool)
    : list (Z * Z) :=
  if isRowConstraints then Py.product2 [index] (Py.range size)
  else Py.product2 (Py.range size) [index].

(** [vars[i][j]]. *)
Definition at_cell (vars : board) (ij : Z * Z) : option var_id :=
  row ← Py.get vars ij.1; Py.get row ij.2.

Definition helper_binary_ne_constraint (st : list Var) (index size : Z)
    (vars : board) (isRowConstraints : bool) : option (list Constraint) :=
  mapM (λ comb : (Z * Z) * (Z * Z),
          let firstV := comb.1 in
          let secondV := comb.2 in
          v1 ← at_cell vars firstV;
          v2 ← at_cell vars secondV;
          let nm := "C(V" +:+ pretty (firstV.1 + 1) +:+ pretty (firstV.2 + 1)
                    +:+ ",V" +:+ pretty (secondV.1 + 1)
                    +:+ pretty (secondV.2 + 1) +:+ ")" in
          let satTuples :=
            filter (λ t : Z * Z, t.1 ≠ t.2)
                   (Py.product2 (domain st v1) (domain st v2)) in
          Some (mkConstraint nm [v1; v2] ((λ t, [t.1; t.2]) <$> satTuples)))
       (Py.combinations2 (line_items index size isRowConstraints)).

Definition helper_nary_ad_constraint (st : list Var) (index size : Z)
    (vars : board) (isRowConstraints : bool) : option Constraint :=
  curVars ← mapM (at_cell vars) (line_items index size isRowConstraints);
  let conNameVars := (λ v, Py.last3 (str_Variable st v)) <$> curVars in
  let conName := Py.join_comma conNameVars in
  let varsDom := domain st <$> curVars in
  let satTuples :=
    filter (λ t : list Z, length t = length (remove_dups t))
           (Py.product varsDom) in
  Some (mkConstraint ("C(" +:+ conName +:+ ")") curVars satTuples).

(** Modelled from the spec: [CSP(name)] followed by [add_var] for every
    cell, row by row, and [add_constraint] for every constraint. *)
Definition make_csp (size : Z) (st : list Var) (vars : board)
    (cons : list Constraint) : CSP :=
  mkCSP (pretty size +:+ "-Kenken") st (mjoin vars) cons.

Definition binary_ne_grid (kenken_grid : list (list Z))
    : option (CSP * board) :=
  size ← grid_size kenken_grid;
  let d := make_dom size in
  let '(st, vars) := make_vars d in
  cons ← for_each (λ cons index,
            rowCons ← helper_binary_ne_constraint st index size vars true;
            colCons ← helper_binary_ne_constraint st index size vars false;
            Some (cons ++ rowCons ++ colCons))
          [] (Py.range size);
  Some (make_csp size st vars cons, vars).

Definition nary_ad_grid (kenken_grid : list (list Z))
    : option (CSP * board) :=
  size ← grid_size kenken_grid;
  let d := make_dom size in
  let '(st, vars) := make_vars d in
  cons ← for_each (λ cons index,
            rowCon ← helper_nary_ad_constraint st index size vars true;
            colCon ← helper_nary_ad_constraint st index size vars false;
            Some (cons ++ [rowCon] ++ [colCon]))
          [] (Py.range size);
  Some (make_csp size st vars cons, vars).

(** [res = r[0]] then [res -= i] for the rest; [r[0]] raises on an empty
    ordering. *)
Definition sub_chain (r : list Z) : option Z :=
  match r with
  | [] => None
  | r0 :: rest => Some (foldl Z.sub r0 rest)
  end.

(** [res = r[0]] then [res /= i] for the rest. *)
Definition div_chain (r : list Z) : option pynum :=
  match r with
  | [] => None
  | r0 :: rest => for_each truediv (PyInt r0) rest
  end.

(** [res = 1] then [res *= r]. *)
Definition mul_chain (t : list Z) : Z := foldl Z.mul 1 t.

(** What one tuple [t] adds to [satTuples]: under subtraction and division
    [t] is appended once for every ordering that reaches the target. *)
Definition cage_check (op val : Z) (t : list Z) : option (list (list Z)) :=
  if bool_decide (op = 0) then
    Some (if bool_decide (Py.sum t = val) then [t] else [])
  else if bool_decide (op = 1) then
    hits ← mapM (λ r, res ← sub_chain r; Some (bool_decide (res = val)))
                (Py.permutations t);
    Some ((λ _, t) <$> filter (λ b, b = true) hits)
  else if bool_decide (op = 2) then
    hits ← mapM (λ r, res ← div_chain r; Some (num_eq_int res val))
                (Py.permutations t);
    Some ((λ _, t) <$> filter (λ b, b = true) hits)
  else if bool_decide (op = 3) then
    Some (if bool_decide (mul_chain t = val) then [t] else [])
  else Some [].

(** [(v // 10) - 1] and [(v % 10) - 1]. *)
Definition cell_of (v : Z) : Z * Z := (v `div` 10 - 1, v `mod` 10 - 1).

(** The state of the cage loop: the objects, the board and [cons]. *)
Abbreviation build := (list Var * board * list Constraint)%type (only parsing).

(** [len(cage) == 2]: the cell gets a new variable whose domain is [[val]]. *)
Definition force_cell (b : build) (cage : list Z) : option build :=
  val ← Py.get cage 1;
  c ← Py.get cage 0;
  let cell_i := (cell_of c).1 in
  let cell_j := (cell_of c).2 in
  let v := length b.1.1 in
  let st := b.1.1 ++ [new_Variable (cell_name (cell_i + 1) (cell_j + 1)) [val]] in
  row ← Py.get b.1.2 cell_i;
  row' ← Py.set row cell_j v;
  vars ← Py.set b.1.2 cell_i row';
  Some (st, vars, b.2).

(** [len(cage) > 2]: one constraint over the cells before the last two
    entries. *)
Definition compile_cage (b : build) (cage : list Z) : option build :=
  val ← Py.get cage (-2);
  op ← Py.get cage (-1);
  cageVars ← mapM (λ v, at_cell b.1.2 (cell_of v))
                  (take (length cage - 2) cage);
  let conNameVars := (λ v, Py.last3 (str_Variable b.1.1 v)) <$> cageVars in
  let conName := Py.join_comma conNameVars in
  let varsDom := domain b.1.1 <$> cageVars in
  added ← mapM (cage_check op val) (Py.product varsDom);
  let satTuples := mjoin added in
  Some (b.1.1, b.1.2,
        b.2 ++ [mkConstraint ("Cage(" +:+ conName +:+ ")") cageVars satTuples]).

(** The body of [for cage in kenken_grid]. *)
Definition cage_step (b : build) (cage : list Z) : option build :=
  if bool_decide (length cage = 1%nat) then Some b
  else
    b1 ← (if bool_decide (length cage = 2%nat) then force_cell b cage
          else Some b);
    if bool_decide (2 < length cage)%nat then compile_cage b1 cage
    else Some b1.

(** The body of [for index in range(size)] that adds the all-different
    constraints of a row and of a column. *)
Definition grid_step (size : Z) (b : build) (index : Z) : option build :=
  rowCon ← helper_nary_ad_constraint b.1.1 index size b.1.2 true;
  colCon ← helper_nary_ad_constraint b.1.1 index size b.1.2 false;
  Some (b.1.1, b.1.2, b.2 ++ [rowCon] ++ [colCon]).

(** [kenken_csp_model] up to the construction of the problem: the objects,
    the board and the list [cons]. *)
Definition kenken_build (kenken_grid : list (list Z)) : option build :=
  size ← grid_size kenken_grid;
  let d := make_dom size in
  let sv := make_vars d in
  b ← for_each cage_step (sv.1, sv.2, []) kenken_grid;
  for_each (grid_step size) b (Py.range size).

Definition kenken_csp_model (kenken_grid : list (list Z))
    : option (CSP * board) :=
  size ← grid_size kenken_grid;
  b ← kenken_build kenken_grid;
  Some (make_csp size b.1.1 b.1.2 b.2, b.1.2).

(** ** Notions of the design document *)

(** The combinations the pruning count of [val_lcv] ranges over: a
    constraint touching [var], another unassigned variable of its scope, a
    value of that variable's current domain. *)
Definition probes (csp : CSP) (var : var_id)
    : list (Constraint * var_id * Z) :=
  c ← get_cons_with_var csp var;
  adjV ← filter (λ u, u ≠ var ∧ is_assigned (store csp) u = false) (scope c);
  adjVal ← cur_domain (store csp) adjV;
  [(c, adjV, adjVal)].

(** The pruning count of a value [d]: the combinations that lose support
    when [var] is tentatively assigned [d]. *)
Definition pruning_count (csp : CSP) (var : var_id) (d : Z) : nat :=
  length (filter (λ p : Constraint * var_id * Z,
                    has_support (assign (store csp) var d) p.1.1 p.1.2 p.2
                    = false)
                 (probes csp var)).

(** The problem with [var] unassigned and nothing else changed. *)
Definition cleared (csp : CSP) (var : var_id) : CSP :=
  with_store csp (unassign (store csp) var 0).

(** The degree of a variable in the design document: the distinct other
    unassigned variables over all the constraints touching it, each counted
    once. *)
Definition degree (csp : CSP) (v : var_id) : nat :=
  length (remove_dups
            (c ← get_cons_with_var csp v;
             filter (λ u, u ≠ v) (get_unasgn_vars (store csp) c))).

(** ** Worked problems *)

Definition no_problem : CSP := mkCSP "" [] [] [].

(** A 3x3 puzzle with the cages {11, 12} and {21, 32}, both sums to 3. *)
Definition two_cages : CSP := Eval vm_compute in
  default no_problem
          (fst <$> kenken_csp_model [[3]; [11; 12; 3; 0]; [21; 32; 3; 0]]).

(** The same problem after the search assigned 1 to the first variable. *)
Definition two_cages_assigned : CSP := Eval vm_compute in
  with_store two_cages (assign (store two_cages) 0%nat 1).

(** ** Assignments and boards *)

(** An assignment of values to variables satisfies a constraint when the
    values of the scope, in scope order, form a satisfying tuple. *)
Definition satisfies (a : var_id → Z) (c : Constraint) : Prop :=
  (a <$> scope c) ∈ sat_tuples c.

(** The assignments a problem accepts: those satisfying every constraint. *)
Definition accepts (csp : CSP) (a : var_id → Z) : Prop :=
  Forall (satisfies a) (cons csp).

(** An [n] by [n] board over a store: every cell holds the address of an
    object of the store. *)
Definition square_board (n : nat) (st : list Var) (vars : board) : Prop :=
  length vars = n
  ∧ Forall (λ row, length row = n ∧ Forall (λ v, v < length st)%nat row) vars.

(** ** Cages *)

(** The cage rows of a description: the rows with more than two entries,
    each of which adds one constraint. *)
Definition cage_rows (g : list (list Z)) : list (list Z) :=
  filter (λ cage : list Z, 2 < length cage)%nat g.

(** The position on an [n] by [n] board a cell index denotes, with
    Python's reading of negative indices. *)
Definition cell_pos (n : nat) (c : Z) : option (nat * nat) :=
  ki ← Py.norm_index n (cell_of c).1;
  kj ← Py.norm_index n (cell_of c).2;
  Some (ki, kj).

Definition board_at (vars : board) (p : nat * nat) : option var_id :=
  row ← vars !! p.1; row !! p.2.

(** [con] is what [compile_cage] builds for the row [cage] over the store
    [st] and the board [vars]. *)
Definition compiled (st : list Var) (vars : board) (cage : list Z)
    (con : Constraint) : Prop :=
  ∃ val op added,
    Py.get cage (-2) = Some val
    ∧ Py.get cage (-1) = Some op
    ∧ mapM (λ v, at_cell vars (cell_of v)) (take (length cage - 2) cage)
      = Some (scope con)
    ∧ mapM (cage_check op val) (Py.product (domain st <$> scope con))
      = Some added
    ∧ sat_tuples con = mjoin added.

(** A 2x2 puzzle whose first row is forced to 7 and 3, with the
    subtraction cage {11, 12} of target 4. *)
Definition seven_three : list (list Z) :=
  [[2]; [11; 7]; [12; 3]; [11; 12; 4; 1]].

Definition seven_three_model : CSP * board := Eval vm_compute in
  default (no_problem, []) (kenken_csp_model seven_three).

(** The row [cage] forces the cell at position [p] of an [n] by [n]
    board. *)
Definition forces (n : nat) (p : nat * nat) (cage : list Z) : Prop :=
  length cage = 2%nat ∧ ∃ c, cage !! 0%nat = Some c ∧ cell_pos n c = Some p.

(** A 3x3 puzzle in which the cage {11, 12} comes before the row that
    forces cell 11 to 1, and the cage {11, 21} after it. *)
Definition forced_between : list (list Z) :=
  [[3]; [11; 12; 3; 0]; [11; 1]; [11; 21; 3; 0]].

Definition forced_between_model : CSP * board := Eval vm_compute in
  default (no_problem, []) (kenken_csp_model forced_between).

(** The reading of the forced-cell rule that does not depend on the order
    of the rows: whenever a description has a forced row [[c; v]], every
    tuple of every cage constraint carries [v] at the positions where the
    cage row lists [c]. The constraints of the cage rows are the first
    constraints of the model, in order. *)
Definition narrowed_in_every_cage (g : list (list Z)) (r : CSP * board)
    : Prop :=
  ∀ (c v : Z) (i k : nat) (cage : list Z) (con : Constraint) (t : list Z),
    [c; v] ∈ g →
    cage_rows g !! i = Some cage → cons r.1 !! i = Some con →
    (k < length cage - 2)%nat → cage !! k = Some c →
    t ∈ sat_tuples con → t !! k = Some v.

(** The division rule of the design document: [p0 / p1 / ... / pk] equals
    [val] exactly under real-number division. Over integers this says
    that no divisor is zero and that [p0] is [val] times the product of
    the divisors. *)
Definition divides_to (p0 : Z) (ps : list Z) (val : Z) : Prop :=
  Forall (λ p, p ≠ 0) ps ∧ p0 = val * foldr Z.mul 1 ps.

(** A 2x2 puzzle whose first row is forced to 2^53 + 1 and 1, with the
    division cage {11, 12} of target 2^53. *)
Definition rounded_division : list (list Z) :=
  [[2]; [11; 2 ^ 53 + 1]; [12; 1]; [11; 12; 2 ^ 53; 2]].

(** ** Notions for the further properties *)

(** What the scan of [ord_dh] adds up: for every constraint touching [v],
    the distinct other unassigned variables of that constraint. *)
Definition per_constraint_degree (csp : CSP) (v : var_id) : nat :=
  sum_list ((λ c, length (remove_dups
                            (filter (λ u, u ≠ v)
                                    (get_unasgn_vars (store csp) c))))
            <$> get_cons_with_var csp v).

(** The rows of a description that force a cell: [len(cage) == 2]. *)
Definition forced_rows (g : list (list Z)) : list (list Z) :=
  filter (λ cage : list Z, length cage = 2%nat) g.

(** A problem with one variable and no constraint. *)
Definition lone_variable : CSP :=
  mkCSP "lone" [new_Variable "V11" [3; 1; 2]] [0%nat] [].

(** [con] is the constraint of the cage row [cage], read over the store
    [st]: its scope has one variable per cell entry and its tuples are
    what [cage_check] keeps of the product of the domains. *)
Definition cage_constraint (st : list Var) (cage : list Z)
    (con : Constraint) : Prop :=
  ∃ val op added,
    Py.get cage (-2) = Some val
    ∧ Py.get cage (-1) = Some op
    ∧ length (scope con) = (length cage - 2)%nat
    ∧ Forall (λ v, v < length st)%nat (scope con)
    ∧ mapM (cage_check op val) (Py.product (domain st <$> scope con))
      = Some added
    ∧ sat_tuples con = mjoin added.

(** [con] is the all-different constraint over the variables [vs]. *)
Definition all_different_over (st : list Var) (vs : list var_id)
    (con : Constraint) : Prop :=
  scope con = vs
  ∧ sat_tuples con
    = filter (λ t : list Z, length t = length (remove_dups t))
             (Py.product (domain st <$> vs)).

(** The pair of constraints the grid loop adds for the index [k]: the
    all-different constraint of row [k], then that of column [k]. *)
Definition line_pair (st : list Var) (vars : board) (k : nat)
    (y : list Constraint) : Prop :=
  ∃ row col rowCon colCon,
    vars !! k = Some row
    ∧ Forall2 (λ (r : list var_id) v, r !! k = Some v) vars col
    ∧ y = [rowCon; colCon]
    ∧ all_different_over st row rowCon
    ∧ all_different_over st col colCon.

(** The sum and the product of the values of a tuple. *)
Definition total (t : list Z) : Z := foldr Z.add 0 t.

Definition product_of (t : list Z) : Z := foldr Z.mul 1 t.

(** The entries of a row of a description that the cage loop reads as
    cell indices: the first entry of a forced row, all but the last two of
    a cage row. *)
Definition cell_entries (cage : list Z) : list Z :=
  if bool_decide (length cage = 2%nat) then take 1 cage
  else take (length cage - 2) cage.

(** A 3x3 puzzle with a multiplication cage, a division cage, a cage of
    one cell and a cage whose operator tag is not one of 0..3. *)
Definition mixed_cages : list (list Z) :=
  [[3]; [11; 12; 6; 3]; [21; 22; 2; 2]; [33; 2; 0]; [13; 23; 5; 7]].

Definition mixed_cages_model : CSP * board := Eval vm_compute in
  default (no_problem, []) (kenken_csp_model mixed_cages).

(** What a cell [p] of the board holds while the description [g] is
    compiled for an [n] by [n] board with domain [d]: the variable created
    for it at the start, or one created by a forced row of [g] for this
    cell. Either way the variable is new: unassigned, with nothing pruned
    from its current domain. *)
Definition cell_variable (g : list (list Z)) (n : nat) (d : list Z)
    (p : nat * nat) (x : var_id) (o : Var) : Prop :=
  x = (p.1 * n + p.2)%nat
  ∧ o = new_Variable (cell_name (Z.of_nat p.1 + 1) (Z.of_nat p.2 + 1)) d
  ∨ (n * n ≤ x)%nat
    ∧ ∃ c v, [c; v] ∈ g ∧ cell_pos n c = Some p
             ∧ o = new_Variable (cell_name (c `div` 10) (c `mod` 10)) [v].

(** The state of the cage loop before the first row of a description of
    size [N]: the new variables, the board, no constraint. *)
Definition start (N : Z) : build :=
  ((make_vars (make_dom N)).1, (make_vars (make_dom N)).2, []).



(** * Properties *)

(** ** Python helpers *)

Section sorted.
Context {A : Type} (key : A → nat).

Lemma insert_by_Permutation x l : Py.insert_by key x l ≡ₚ x :: l.
Proof.
  induction l as [|y ys IH]; simpl; [done|].
  case_bool_decide; [done|]. rewrite IH. apply Permutation_swap.
Qed.

Lemma sorted_Permutation l : Py.sorted key l ≡ₚ l.
Proof.
  induction l as [|x l IH]; simpl; [done|].
  by rewrite insert_by_Permutation, IH.
Qed.

Lemma insert_by_StronglySorted x l :
  StronglySorted (λ a b, key a ≤ key b)%nat l →
  StronglySorted (λ a b, key a ≤ key b)%nat (Py.insert_by key x l).
Proof.
  induction 1 as [|y ys Hs IH Hall]; simpl.
  - repeat constructor.
  - case_bool_decide as Hxy.
    + constructor; [by constructor|].
      constructor; [done|]. eapply Forall_impl; [exact Hall|].
      simpl. lia.
    + constructor; [done|].
      rewrite insert_by_Permutation. constructor; [lia|done].
Qed.

Lemma sorted_StronglySorted l :
  StronglySorted (λ a b, key a ≤ key b)%nat (Py.sorted key l).
Proof.
  induction l as [|x l IH]; simpl; [constructor|].
  by apply insert_by_StronglySorted.
Qed.

Lemma insert_by_filter_key n x l :
  filter (λ a, key a = n) (Py.insert_by key x l)
  = filter (λ a, key a = n) (x :: l).
Proof.
  induction l as [|y ys IH]; simpl; [done|].
  case_bool_decide as Hxy; [done|].
  rewrite (filter_cons _ y), IH, !(filter_cons _ x), !(filter_cons _ y).
  repeat case_decide; try done; lia.
Qed.

Lemma sorted_filter_key n l :
  filter (λ a, key a = n) (Py.sorted key l) = filter (λ a, key a = n) l.
Proof.
  induction l as [|x l IH]; simpl; [done|].
  by rewrite insert_by_filter_key, !filter_cons, IH.
Qed.
End sorted.

(** Sorting pairs by their second component, when it is a function of the
    first, sorts the first components by that function. *)
Lemma insert_by_decorated {A} (f : A → nat) (x : A) (s : list A) :
  Py.insert_by snd (x, f x) ((λ d, (d, f d)) <$> s)
  = (λ d, (d, f d)) <$> Py.insert_by f x s.
Proof.
  induction s as [|y s IH]; [done|].
  rewrite fmap_cons. cbn [Py.insert_by snd].
  case_bool_decide; [done|]. by rewrite IH.
Qed.

Lemma sorted_decorated {A} (f : A → nat) (l : list A) :
  fst <$> Py.sorted snd ((λ d, (d, f d)) <$> l) = Py.sorted f l.
Proof.
  assert (Py.sorted snd ((λ d, (d, f d)) <$> l)
          = (λ d, (d, f d)) <$> Py.sorted f l) as ->.
  { induction l as [|x l IH]; [done|].
    rewrite fmap_cons. unfold Py.sorted in *. rewrite !foldr_cons, IH.
    apply insert_by_decorated. }
  rewrite <- list_fmap_compose. apply list_fmap_id.
Qed.

(** ** The store under [assign] and [unassign] *)

Lemma cur_domain_alter st v f u :
  (∀ o, curdom (f o) = curdom o) →
  cur_domain (alter f v st) u = cur_domain st u.
Proof.
  intros Hf. unfold cur_domain.
  destruct (decide (v = u)) as [->|Hne].
  - rewrite list_lookup_alter_eq. destruct (st !! u); simpl; [apply Hf|done].
  - by rewrite list_lookup_alter_ne.
Qed.

Lemma cur_domain_assign st v d u :
  cur_domain (assign st v d) u = cur_domain st u.
Proof. apply cur_domain_alter. intros o. by case_bool_decide. Qed.

Lemma is_assigned_assign_ne st v d u :
  u ≠ v → is_assigned (assign st v d) u = is_assigned st u.
Proof.
  intros Hne. unfold is_assigned, assign. by rewrite list_lookup_alter_ne.
Qed.

Lemma is_assigned_assign_eq st v d :
  d ∈ cur_domain st v → is_assigned (assign st v d) v = true.
Proof.
  unfold cur_domain, is_assigned, assign. rewrite list_lookup_alter_eq.
  destruct (st !! v) as [o|]; simpl; [|intros Hd; by apply elem_of_nil in Hd].
  intros Hd. by rewrite (bool_decide_true (d ∈ curdom o)) by done.
Qed.

(** Unassigning after a tentative assignment gives the store in which the
    variable is unassigned, whatever it was before. *)
Lemma unassign_assign st v d d' :
  unassign (assign st v d) v d' = unassign st v d'.
Proof.
  unfold unassign, assign. rewrite list_alter_alter_eq.
  apply list_alter_ext; [|done]. intros o _. simpl. by case_bool_decide.
Qed.

Lemma assign_unassign st v d d' :
  d ∈ cur_domain st v → assign (unassign st v d') v d = assign st v d.
Proof.
  unfold unassign, assign, cur_domain. intros Hd.
  rewrite list_alter_alter_eq.
  apply list_alter_ext; [|done]. intros o Ho. rewrite Ho in Hd. simpl in *.
  by rewrite bool_decide_true.
Qed.

Lemma unassign_id st v d :
  is_assigned st v = false → unassign st v d = st.
Proof.
  unfold is_assigned, unassign. intros Hv.
  apply list_eq. intros i. destruct (decide (v = i)) as [->|Hne].
  - rewrite list_lookup_alter_eq.
    by destruct (st !! i) as [[nm dm cd [a|]]|].
  - by rewrite list_lookup_alter_ne.
Qed.

Lemma with_store_id csp : with_store csp (store csp) = csp.
Proof. by destruct csp. Qed.

(** ** [val_lcv] *)

Lemma foldl_count_false {X} (p : X → bool) (l : list X) (n : nat) :
  foldl (λ n x, if p x then n else S n) n l
  = (n + length (filter (λ x, p x = false) l))%nat.
Proof.
  revert n. induction l as [|x l IH]; intros n.
  { rewrite filter_nil. simpl. lia. }
  cbn [foldl]. rewrite IH, filter_cons.
  destruct (p x); case_decide; simpl; try done; lia.
Qed.

Lemma foldl_add_lengths {X Y} (f : X → list Y) (step : nat → X → nat)
    (l : list X) (n : nat) :
  (∀ n x, step n x = (n + length (f x))%nat) →
  foldl step n l = (n + length (l ≫= f))%nat.
Proof.
  intros Hstep. revert n.
  induction l as [|x l IH]; intros n; [simpl; lia|].
  cbn [foldl]. rewrite IH, Hstep, bind_cons, length_app. lia.
Qed.

Lemma filter_bind {X Y} (P : Y → Prop) `{!∀ y, Decision (P y)}
    (f : X → list Y) (l : list X) :
  filter P (l ≫= f) = l ≫= (λ x, filter P (f x)).
Proof.
  induction l as [|x l IH]; [done|].
  rewrite !bind_cons, filter_app. by rewrite IH.
Qed.

Lemma get_unasgn_vars_tentative st var d c :
  d ∈ cur_domain st var →
  get_unasgn_vars (assign st var d) c
  = filter (λ u, u ≠ var ∧ is_assigned st u = false) (scope c).
Proof.
  intros Hd. unfold get_unasgn_vars. apply list_filter_iff. intros u.
  destruct (decide (u = var)) as [->|Hne].
  - rewrite is_assigned_assign_eq by done. split; [done|by intros []].
  - rewrite is_assigned_assign_ne by done. split; [done|by intros []].
Qed.

(** The three loops of [val_lcv] count the combinations that lost their
    support. *)
Lemma numPruned_tentative csp var d :
  d ∈ cur_domain (store csp) var →
  numPruned (with_store csp (assign (store csp) var d)) var
  = pruning_count csp var d.
Proof.
  intros Hd. unfold numPruned, pruning_count, probes. simpl.
  change (get_cons_with_var (with_store csp (assign (store csp) var d)) var)
    with (get_cons_with_var csp var).
  rewrite filter_bind.
  rewrite (foldl_add_lengths
    (λ c, filter (λ p : Constraint * var_id * Z,
                    has_support (assign (store csp) var d) p.1.1 p.1.2 p.2
                    = false)
          (adjV ← filter (λ u, u ≠ var ∧ is_assigned (store csp) u = false)
                         (scope c);
           adjVal ← cur_domain (store csp) adjV; [(c, adjV, adjVal)])));
    [done|].
  intros n c. rewrite get_unasgn_vars_tentative by done.
  rewrite filter_bind.
  apply (foldl_add_lengths
    (λ adjV, filter (λ p : Constraint * var_id * Z,
                    has_support (assign (store csp) var d) p.1.1 p.1.2 p.2
                    = false)
          (adjVal ← cur_domain (store csp) adjV; [(c, adjV, adjVal)]))).
  intros m adjV. rewrite cur_domain_assign, foldl_count_false. f_equal.
  generalize (cur_domain (store csp) adjV). intros vals.
  induction vals as [|x vals IH]; [done|].
  rewrite bind_cons, filter_app, length_app, filter_cons, <- IH.
  rewrite (filter_cons _ (c, adjV, x)). simpl.
  by repeat case_decide.
Qed.

(** The loop of [val_lcv]: every round probes the same tentative store and
    leaves [var] unassigned. *)
Lemma lcv_fold csp var (l : list Z) (X : CSP) (acc : list (Z * nat)) :
  (∀ d, d ∈ l → d ∈ cur_domain (store csp) var) →
  X = csp ∨ X = cleared csp var →
  foldl (lcv_step var) (X, acc) l
  = (match l with [] => X | _ => cleared csp var end,
     acc ++ ((λ d, (d, pruning_count csp var d)) <$> l)).
Proof.
  revert X acc. induction l as [|d l IH]; intros X acc Hl HX.
  { simpl. by rewrite app_nil_r. }
  assert (d ∈ cur_domain (store csp) var) as Hd by (apply Hl; left).
  assert (lcv_step var (X, acc) d
          = (cleared csp var, acc ++ [(d, pruning_count csp var d)])) as Hstep.
  { unfold lcv_step, cleared. simpl.
    assert (assign (store X) var d = assign (store csp) var d) as ->.
    { destruct HX as [->| ->]; [done|].
      exact (assign_unassign (store csp) var d 0 Hd). }
    assert (with_store X (assign (store csp) var d)
            = with_store csp (assign (store csp) var d)) as ->.
    { by destruct HX as [->| ->]. }
    rewrite numPruned_tentative by done.
    f_equal. unfold with_store. simpl. f_equal.
    by rewrite unassign_assign. }
  cbn [foldl]. rewrite Hstep, IH.
  - rewrite fmap_cons, <- app_assoc. by destruct l.
  - intros d' Hd'. apply Hl. by right.
  - by right.
Qed.

Lemma val_lcv_sorted csp var :
  (val_lcv csp var).2
  = Py.sorted (pruning_count csp var) (cur_domain (store csp) var).
Proof.
  unfold val_lcv. rewrite (lcv_fold csp) by auto. simpl.
  apply sorted_decorated.
Qed.

Lemma val_lcv_state csp var :
  (val_lcv csp var).1
  = match cur_domain (store csp) var with
    | [] => csp
    | _ => cleared csp var
    end.
Proof. unfold val_lcv. by rewrite (lcv_fold csp) by auto. Qed.

Lemma cleared_unassigned csp var :
  is_assigned (store csp) var = false → cleared csp var = csp.
Proof.
  intros Hv. unfold cleared. rewrite unassign_id by done.
  apply with_store_id.
Qed.

(** C6, as the code has it: for an unassigned variable, [val_lcv] returns a
    permutation of the variable's current domain, leaves the variable
    unassigned and returns the problem state it was given. *)
Theorem val_lcv_permutation_frame (csp : CSP) (var : var_id) :
  is_assigned (store csp) var = false →
  (val_lcv csp var).2 ≡ₚ cur_domain (store csp) var
  ∧ is_assigned (store (val_lcv csp var).1) var = false
  ∧ (val_lcv csp var).1 = csp.
Proof.
  intros Hv.
  assert ((val_lcv csp var).1 = csp) as Hst.
  { rewrite val_lcv_state, cleared_unassigned by done.
    by destruct (cur_domain (store csp) var). }
  split; [|by rewrite Hst].
  rewrite val_lcv_sorted. apply sorted_Permutation.
Qed.

Lemma val_lcv_permutation_frame_witness :
  is_assigned (store two_cages) 1%nat = false
  ∧ (val_lcv two_cages 1%nat).2 ≡ₚ cur_domain (store two_cages) 1%nat
  ∧ is_assigned (store (val_lcv two_cages 1%nat).1) 1%nat = false
  ∧ (val_lcv two_cages 1%nat).1 = two_cages.
Proof.
  assert (is_assigned (store two_cages) 1%nat = false) as Hun
    by (vm_compute; reflexivity).
  split; [exact Hun|].
  exact (val_lcv_permutation_frame two_cages 1%nat Hun).
Defined.

(** C6 as stated fails for a variable that is assigned when [val_lcv] is
    called: the call ends with [unassign], so the state has changed. *)
Lemma val_lcv_assigned_changes_state :
  ¬ ((val_lcv two_cages_assigned 0%nat).2
       ≡ₚ cur_domain (store two_cages_assigned) 0%nat
     ∧ is_assigned (store (val_lcv two_cages_assigned 0%nat).1) 0%nat = false
     ∧ (val_lcv two_cages_assigned 0%nat).1 = two_cages_assigned).
Proof.
  intros (_ & Hun & Hsame). rewrite Hsame in Hun.
  assert (is_assigned (store two_cages_assigned) 0%nat = true) as Has
    by (vm_compute; reflexivity).
  rewrite Has in Hun. discriminate.
Qed.

(** C7: [val_lcv] orders the current domain of [var] by ascending pruning
    count, the number of (constraint touching [var], other unassigned
    variable of it, value of that variable's current domain) combinations
    without support once [var] is tentatively assigned the value; values of
    equal count keep their current-domain order. *)
Theorem val_lcv_ascending_stable (csp : CSP) (var : var_id) :
  (val_lcv csp var).2 ≡ₚ cur_domain (store csp) var
  ∧ StronglySorted
      (λ a b, pruning_count csp var a ≤ pruning_count csp var b)%nat
      (val_lcv csp var).2
  ∧ ∀ n, filter (λ d, pruning_count csp var d = n) (val_lcv csp var).2
         = filter (λ d, pruning_count csp var d = n)
                  (cur_domain (store csp) var).
Proof.
  rewrite val_lcv_sorted. split; [apply sorted_Permutation|].
  split; [apply sorted_StronglySorted|].
  intros n. apply sorted_filter_key.
Qed.

(** ** [ord_mrv] and [ord_dh] *)

(** A strictly-less scan keeps the first of the smallest keys. *)
Lemma first_min_fold {X} (key : X → nat) (l : list X) :
  l ≠ [] →
  ∃ pre v post,
    l = pre ++ v :: post
    ∧ foldl (λ (acc : option nat * option X) v,
               let rv := key v in
               if match acc.1 with
                  | None => true
                  | Some mrv => bool_decide (rv < mrv)%nat
                  end
               then (Some rv, Some v) else acc)
            (None, None) l
      = (Some (key v), Some v)
    ∧ (∀ u, u ∈ pre → (key v < key u)%nat)
    ∧ (∀ u, u ∈ post → (key v ≤ key u)%nat).
Proof.
  induction l as [|x l IH] using rev_ind; [done|]. intros _.
  rewrite foldl_snoc. destruct (decide (l = [])) as [->|Hne].
  { exists [], x, []. simpl. repeat split; by intros ? ?%elem_of_nil. }
  destruct (IH Hne) as (pre & v & post & -> & -> & Hpre & Hpost).
  cbn [fst]. case_bool_decide as Hlt.
  - exists (pre ++ v :: post), x, []. repeat split.
    + intros u [Hu|[->|Hu]%elem_of_cons]%elem_of_app.
      * specialize (Hpre u Hu). lia.
      * done.
      * specialize (Hpost u Hu). lia.
    + by intros ? ?%elem_of_nil.
  - exists pre, v, (post ++ [x]). repeat split.
    + by rewrite <- app_assoc.
    + done.
    + intros u [Hu| ->%list_elem_of_singleton]%elem_of_app; [auto|lia].
Qed.

Lemma ord_mrv_elem (csp : CSP) :
  get_all_unasgn_vars csp ≠ [] →
  ∃ w, w ∈ get_all_unasgn_vars csp ∧ ord_mrv csp = Some w.
Proof.
  intros Hne.
  destruct (first_min_fold (cur_domain_size (store csp)) _ Hne)
    as (pre & w & post & Hl & Hf & _).
  exists w. split; [|exact (f_equal snd Hf)].
  rewrite Hl. apply elem_of_app. right. left.
Qed.

(** C8: when some variable is unassigned, [ord_mrv] returns the first
    variable, in the order of [get_all_unasgn_vars], whose current domain
    is smallest: every unassigned variable before it has a strictly larger
    current domain, every one after it a current domain at least as
    large. *)
Theorem ord_mrv_first_smallest (csp : CSP) :
  get_all_unasgn_vars csp ≠ [] →
  ∃ pre v post,
    get_all_unasgn_vars csp = pre ++ v :: post
    ∧ ord_mrv csp = Some v
    ∧ is_assigned (store csp) v = false
    ∧ (∀ u, u ∈ pre →
         (cur_domain_size (store csp) v < cur_domain_size (store csp) u)%nat)
    ∧ (∀ u, u ∈ post →
         (cur_domain_size (store csp) v ≤ cur_domain_size (store csp) u)%nat).
Proof.
  intros Hne.
  destruct (first_min_fold (cur_domain_size (store csp)) _ Hne)
    as (pre & v & post & Hl & Hf & Hpre & Hpost).
  exists pre, v, post. split; [done|].
  split; [exact (f_equal snd Hf)|]. repeat split; try done.
  assert (v ∈ get_all_unasgn_vars csp) as Hv.
  { rewrite Hl. apply elem_of_app. right. left. }
  unfold get_all_unasgn_vars in Hv. by apply list_elem_of_filter in Hv as [? _].
Qed.

Lemma ord_mrv_first_smallest_witness :
  get_all_unasgn_vars two_cages_assigned ≠ []
  ∧ ∃ pre v post,
      get_all_unasgn_vars two_cages_assigned = pre ++ v :: post
      ∧ ord_mrv two_cages_assigned = Some v
      ∧ is_assigned (store two_cages_assigned) v = false
      ∧ (∀ u, u ∈ pre →
           (cur_domain_size (store two_cages_assigned) v
            < cur_domain_size (store two_cages_assigned) u)%nat)
      ∧ (∀ u, u ∈ post →
           (cur_domain_size (store two_cages_assigned) v
            ≤ cur_domain_size (store two_cages_assigned) u)%nat).
Proof.
  assert (get_all_unasgn_vars two_cages_assigned ≠ []) as Hne.
  { vm_compute. discriminate. }
  split; [exact Hne|].
  exact (ord_mrv_first_smallest two_cages_assigned Hne).
Defined.

Lemma scan_unasgn_ge v l deg : deg ≤ scan_unasgn v l deg.
Proof.
  unfold scan_unasgn.
  enough (∀ seen : list nat,
    deg ≤ (foldl (λ (acc : list var_id * Z) unasgnV,
                    if bool_decide (unasgnV ≠ v)
                       && bool_decide (unasgnV ∉ acc.1)
                    then (acc.1 ++ [unasgnV], acc.2 + 1)
                    else acc)
                 (seen, deg) l).2) as H by apply H.
  revert deg.
  induction l as [|u l IH]; intros deg seen; simpl; [lia|].
  destruct (bool_decide (u ≠ v) && bool_decide (u ∉ seen)); simpl.
  - etrans; [|apply IH]. lia.
  - apply IH.
Qed.

Lemma curDegree_nonneg csp v : 0 ≤ curDegree csp v.
Proof.
  unfold curDegree. generalize (get_cons_with_var csp v).
  assert (∀ l deg, 0 ≤ deg →
    0 ≤ foldl (λ deg c, scan_unasgn v (get_unasgn_vars (store csp) c) deg)
              deg l) as H; [|intros l; by apply H].
  induction l as [|c l IH]; intros deg Hdeg; simpl; [done|].
  apply IH. etrans; [exact Hdeg|apply scan_unasgn_ge].
Qed.

(** A scan that replaces its candidate ends on its initial candidate or on
    an element of the list. *)
Lemma select_fold_elem {X K} (step : K * option X → X → K * option X)
    (l : list X) (acc : K * option X) :
  (∀ a x, step a x = a ∨ (step a x).2 = Some x) →
  (foldl step acc l).2 = acc.2 ∨ ∃ v, v ∈ l ∧ (foldl step acc l).2 = Some v.
Proof.
  intros Hstep. revert acc.
  induction l as [|x l IH]; intros acc; simpl; [by left|].
  destruct (IH (step acc x)) as [Heq|(v & Hv & Heq)].
  - destruct (Hstep acc x) as [Hx|Hx].
    + left. by rewrite Heq, Hx.
    + right. exists x. split; [left|]. by rewrite Heq.
  - right. exists v. split; [by right|done].
Qed.

Lemma ord_dh_elem csp :
  get_all_unasgn_vars csp ≠ [] →
  ∃ v, v ∈ get_all_unasgn_vars csp ∧ ord_dh csp = Some v.
Proof.
  unfold ord_dh. destruct (get_all_unasgn_vars csp) as [|x l]; [done|].
  intros _. cbn [foldl fst].
  rewrite bool_decide_true by (pose proof (curDegree_nonneg csp x); lia).
  match goal with |- context [foldl ?f ?a l] =>
    destruct (select_fold_elem f l a) as [Heq|(v & Hv & Heq)] end.
  - intros a y. simpl. case_bool_decide; [by right|by left].
  - exists x. split; [left|]. by rewrite Heq.
  - exists v. split; [by right|done].
Qed.

(** C9: [ord_dh] and [ord_mrv] return [None] when no variable is
    unassigned, and otherwise each returns a variable of the problem that is
    unassigned. *)
Theorem ordering_returns_unassigned (csp : CSP) :
  match get_all_unasgn_vars csp with
  | [] => ord_dh csp = None ∧ ord_mrv csp = None
  | _ :: _ =>
      ∃ v w, ord_dh csp = Some v ∧ ord_mrv csp = Some w
             ∧ v ∈ vars csp ∧ is_assigned (store csp) v = false
             ∧ w ∈ vars csp ∧ is_assigned (store csp) w = false
  end.
Proof.
  destruct (get_all_unasgn_vars csp) as [|x l] eqn:Hl.
  { unfold ord_dh, ord_mrv. by rewrite Hl. }
  assert (get_all_unasgn_vars csp ≠ []) as Hne by (by rewrite Hl).
  destruct (ord_dh_elem csp Hne) as (v & Hv & Hdh).
  destruct (ord_mrv_elem csp Hne) as (w & Hw' & Hmrv).
  exists v, w. split; [done|]. split; [done|].
  unfold get_all_unasgn_vars in Hv, Hw'.
  apply list_elem_of_filter in Hv as [? ?].
  apply list_elem_of_filter in Hw' as [? ?]. done.
Qed.

(** C1, the code at a failing input: in the 3x3 puzzle with cages
    {11, 12} and {21, 32}, [ord_dh] counts 5 for V11, which has 4 distinct
    unassigned neighbours (V12 is counted for the cage and for the row),
    and returns it, although V21 has 5. *)
Theorem ord_dh_counts_per_constraint :
  ord_dh two_cages = Some 0%nat
  ∧ curDegree two_cages 0%nat = 5
  ∧ degree two_cages 0%nat = 4%nat
  ∧ 3%nat ∈ get_all_unasgn_vars two_cages
  ∧ degree two_cages 3%nat = 5%nat.
Proof.
  split; [by vm_compute|]. split; [by vm_compute|].
  split; [by vm_compute|]. split; [|by vm_compute].
  vm_compute. do 3 right. left.
Qed.

(** ** Python lists *)

Lemma norm_index_nat (n k : nat) :
  (k < n)%nat → Py.norm_index n (Z.of_nat k) = Some k.
Proof.
  intros Hk. unfold Py.norm_index.
  rewrite bool_decide_true by lia. by rewrite Nat2Z.id.
Qed.

Lemma norm_index_lt (n : nat) (i : Z) (k : nat) :
  Py.norm_index n i = Some k → (k < n)%nat.
Proof.
  unfold Py.norm_index. repeat case_bool_decide; intros [= <-]; lia.
Qed.

Lemma get_nat {A} (l : list A) (k : nat) :
  (k < length l)%nat → Py.get l (Z.of_nat k) = l !! k.
Proof. intros Hk. unfold Py.get. by rewrite norm_index_nat. Qed.

Lemma get_head {A} (x : A) (l : list A) : Py.get (x :: l) 0 = Some x.
Proof. apply (get_nat (x :: l) 0). simpl. lia. Qed.

Lemma get_Some {A} (l : list A) (i : Z) (x : A) :
  Py.get l i = Some x ↔ ∃ k, Py.norm_index (length l) i = Some k ∧ l !! k = Some x.
Proof.
  unfold Py.get. destruct (Py.norm_index (length l) i) as [k|]; simpl.
  - split; [eauto|]. by intros (? & [= <-] & ?).
  - split; [done|]. by intros (? & ? & ?).
Qed.

Lemma set_Some {A} (l : list A) (i : Z) (x : A) (l' : list A) :
  Py.set l i x = Some l' ↔
  ∃ k, Py.norm_index (length l) i = Some k ∧ l' = <[k:=x]> l.
Proof.
  unfold Py.set. destruct (Py.norm_index (length l) i) as [k|]; simpl.
  - split; [intros [= <-]; eauto|]. by intros (? & [= <-] & ->).
  - split; [done|]. by intros (? & ? & ?).
Qed.

Lemma range_nat (n : nat) : Py.range (Z.of_nat n) = Z.of_nat <$> seq 0 n.
Proof.
  unfold Py.range, seqZ. rewrite Nat2Z.id.
  apply list_fmap_ext. intros ? ? _. lia.
Qed.

Lemma range_nonpos (n : Z) : n ≤ 0 → Py.range n = [].
Proof. intros Hn. unfold Py.range. by rewrite seqZ_nil by lia. Qed.

Lemma elem_of_product {A} (doms : list (list A)) (t : list A) :
  t ∈ Py.product doms ↔ Forall2 (λ x d, x ∈ d) t doms.
Proof.
  revert t. induction doms as [|d ds IH]; intros t; simpl.
  - rewrite list_elem_of_singleton. split; [by intros ->|by inversion 1].
  - rewrite list_elem_of_bind. split.
    + intros (x & (t' & ->%list_elem_of_singleton & Ht')%list_elem_of_bind & Hx).
      constructor; [done|]. by apply IH.
    + inversion 1 as [|x ? t' ? Hx Ht']; subst.
      exists x. split; [|done]. apply list_elem_of_bind.
      exists t'. split; [by left|]. by apply IH.
Qed.

Lemma elem_of_product2 {A B} (a : list A) (b : list B) (p : A * B) :
  p ∈ Py.product2 a b ↔ p.1 ∈ a ∧ p.2 ∈ b.
Proof.
  unfold Py.product2. rewrite list_elem_of_bind. split.
  - intros (x & (y & ->%list_elem_of_singleton & Hy)%list_elem_of_bind & Hx).
    done.
  - intros [Hx Hy]. exists p.1. split; [|done]. apply list_elem_of_bind.
    exists p.2. split; [|done]. destruct p. by left.
Qed.

Lemma product2_singleton_l {A B} (x : A) (b : list B) :
  Py.product2 [x] b = pair x <$> b.
Proof.
  unfold Py.product2. rewrite bind_singleton.
  induction b as [|y b IH]; [done|]. by rewrite bind_cons, IH.
Qed.

Lemma product2_singleton_r {A B} (a : list A) (y : B) :
  Py.product2 a [y] = (λ x, (x, y)) <$> a.
Proof.
  unfold Py.product2.
  induction a as [|x a IH]; [done|]. by rewrite bind_cons, IH.
Qed.

Lemma combinations2_fmap {A B} (f : A → B) (l : list A) :
  Py.combinations2 (f <$> l) = (λ p, (f p.1, f p.2)) <$> Py.combinations2 l.
Proof.
  induction l as [|x l IH]; [done|].
  rewrite fmap_cons. cbn [Py.combinations2].
  rewrite fmap_app, IH, <- !list_fmap_compose. done.
Qed.

Lemma combinations2_Forall2 {A B} (R : A → B → Prop) l k :
  Forall2 R l k →
  Forall2 (λ p q, R p.1 q.1 ∧ R p.2 q.2)
          (Py.combinations2 l) (Py.combinations2 k).
Proof.
  induction 1 as [|x y l k Hxy Hlk IH]; simpl; [constructor|].
  apply Forall2_app; [|done]. apply Forall2_fmap.
  eapply Forall2_impl; [exact Hlk|]. by intros.
Qed.

Lemma NoDup_combinations2 {A} (l : list A) :
  NoDup l ↔ ∀ p, p ∈ Py.combinations2 l → p.1 ≠ p.2.
Proof.
  induction l as [|x l IH]; simpl.
  - split; [by intros _ ? ?%elem_of_nil|intros _; constructor].
  - rewrite NoDup_cons, IH. split.
    + intros [Hx Hl] p [(y & -> & Hy)%list_elem_of_fmap|Hp]%elem_of_app.
      * simpl. by intros ->.
      * by apply Hl.
    + intros H. split.
      * intros Hx. apply (H (x, x)); [|done].
        apply elem_of_app. left. apply list_elem_of_fmap. eauto.
      * intros p Hp. apply H, elem_of_app. by right.
Qed.

Lemma length_remove_dups_le (t : list Z) :
  (length (remove_dups t) ≤ length t)%nat.
Proof.
  induction t as [|x t IH]; simpl; [done|]. case_decide; simpl; lia.
Qed.

Lemma length_remove_dups_NoDup (t : list Z) :
  length t = length (remove_dups t) ↔ NoDup t.
Proof.
  split.
  - induction t as [|x t IH]; simpl; [constructor|].
    pose proof (length_remove_dups_le t) as Hsub.
    case_decide as Hx; simpl; [lia|].
    intros [= Hlen]. constructor; [done|by apply IH].
  - intros Hnd. induction Hnd as [|x t Hx Hnd IH]; [done|]. simpl.
    case_decide; [done|]. simpl. by rewrite <- IH.
Qed.

Lemma Forall_mjoin {A} (P : A → Prop) (ls : list (list A)) :
  Forall P (mjoin ls) ↔ Forall (Forall P) ls.
Proof.
  induction ls as [|l ls IH]; simpl.
  - split; constructor.
  - by rewrite Forall_app, Forall_cons, IH.
Qed.

Lemma for_each_app {A B} (body : B → A → option B) acc l1 l2 :
  for_each body acc (l1 ++ l2)
  = for_each body acc l1 ≫= λ acc', for_each body acc' l2.
Proof.
  revert acc. induction l1 as [|x l1 IH]; intros acc; simpl; [done|].
  destruct (body acc x) as [acc'|]; simpl; [apply IH|done].
Qed.

(** ** The board *)

Lemma make_dom_length (size : Z) : length (make_dom size) = Z.to_nat size.
Proof. unfold make_dom, Py.range. by rewrite length_fmap, length_seqZ. Qed.

Lemma elem_of_make_dom (size x : Z) : x ∈ make_dom size ↔ 1 ≤ x ≤ size.
Proof.
  unfold make_dom, Py.range. rewrite list_elem_of_fmap. split.
  - intros (i & -> & Hi%elem_of_seqZ). lia.
  - intros Hx. exists (x - 1). split; [lia|]. apply elem_of_seqZ. lia.
Qed.

Lemma make_row_spec (d : list Z) (vRow : Z) (st : list Var) :
  make_row d vRow st
  = (st ++ ((λ vCol, new_Variable (cell_name vRow vCol) d) <$> d),
     seq (length st) (length d)).
Proof.
  unfold make_row.
  enough (∀ l,
    foldl (λ (acc : list Var * list var_id) vCol,
             (acc.1 ++ [new_Variable (cell_name vRow vCol) d],
              acc.2 ++ [length acc.1]))
          (st, []) l
    = (st ++ ((λ vCol, new_Variable (cell_name vRow vCol) d) <$> l),
       seq (length st) (length l))) as H by apply H.
  induction l as [|x l IH] using rev_ind.
  { simpl. by rewrite app_nil_r. }
  rewrite foldl_snoc, IH. simpl.
  rewrite fmap_app, app_assoc, !length_app, length_fmap. simpl.
  by rewrite seq_app.
Qed.

Lemma make_vars_spec (d : list Z) :
  let n := length d in
  length (make_vars d).1 = (n * n)%nat
  ∧ Forall (λ o, dom o = d) (make_vars d).1
  ∧ (make_vars d).2 = (λ r, seq (r * n) n) <$> seq 0 n.
Proof.
  intros n. unfold make_vars.
  enough (∀ l,
    let r := foldl (λ (acc : list Var * board) vRow,
                      let r := make_row d vRow acc.1 in (r.1, acc.2 ++ [r.2]))
                   ([], []) l in
    length r.1 = (length l * n)%nat
    ∧ Forall (λ o, dom o = d) r.1
    ∧ r.2 = (λ r, seq (r * n) n) <$> seq 0 (length l)) as H by apply H.
  induction l as [|x l IH] using rev_ind; [by repeat split|].
  cbn zeta in *.
  rewrite foldl_snoc. destruct IH as (Hlen & Hdom & Hb).
  rewrite make_row_spec. cbn [fst snd].
  rewrite !length_app, length_fmap, Hlen, Hb. simpl.
  split; [lia|]. split.
  - apply Forall_app. split; [done|]. by apply Forall_fmap, Forall_true.
  - rewrite seq_app, fmap_app. simpl. done.
Qed.

Lemma make_vars_square (d : list Z) :
  square_board (length d) (make_vars d).1 (make_vars d).2.
Proof.
  destruct (make_vars_spec d) as (Hlen & _ & ->).
  split; [by rewrite length_fmap, length_seq|].
  apply Forall_fmap, Forall_forall. intros r Hr%elem_of_seq. simpl.
  split; [by rewrite length_seq|].
  apply Forall_forall. intros v Hv%elem_of_seq. rewrite Hlen. nia.
Qed.

Lemma at_cell_Some (vars : board) (ij : Z * Z) (v : var_id) :
  at_cell vars ij = Some v ↔
  ∃ row ki kj, Py.norm_index (length vars) ij.1 = Some ki
               ∧ vars !! ki = Some row
               ∧ Py.norm_index (length row) ij.2 = Some kj
               ∧ row !! kj = Some v.
Proof.
  unfold at_cell. rewrite bind_Some. split.
  - intros (row & (ki & Hki & Hrow)%get_Some & (kj & Hkj & Hv)%get_Some).
    eauto 10.
  - intros (row & ki & kj & ? & ? & ? & ?).
    exists row. split; apply get_Some; eauto.
Qed.

Lemma at_cell_square n st (vars : board) (i j : nat) :
  square_board n st vars → (i < n)%nat → (j < n)%nat →
  ∃ row v, vars !! i = Some row ∧ row !! j = Some v
           ∧ at_cell vars (Z.of_nat i, Z.of_nat j) = Some v
           ∧ (v < length st)%nat ∧ v ∈ mjoin vars.
Proof.
  intros [Hlen Hrows] Hi Hj.
  destruct (lookup_lt_is_Some_2 vars i) as [row Hrow]; [lia|].
  pose proof (Forall_lookup_1 _ _ _ _ Hrows Hrow) as [Hrl Hids].
  destruct (lookup_lt_is_Some_2 row j) as [v Hv]; [lia|].
  exists row, v. repeat split; try done.
  - apply at_cell_Some. exists row, i, j. simpl.
    rewrite !norm_index_nat by lia. done.
  - by apply (Forall_lookup_1 _ _ _ _ Hids Hv).
  - apply list_elem_of_lookup_2 in Hrow, Hv.
    apply list_elem_of_join. eauto.
Qed.

(** On a square board every coordinate of a row or a column holds a
    variable: the line of variables the grid helpers work on. *)
Lemma line_vars n st (vars : board) (k : nat) (isRow : bool) :
  square_board n st vars → (k < n)%nat →
  ∃ vs, mapM (at_cell vars) (line_items (Z.of_nat k) (Z.of_nat n) isRow)
        = Some vs
        ∧ length vs = n
        ∧ Forall (λ v, (v < length st)%nat ∧ v ∈ mjoin vars) vs.
Proof.
  intros Hsq Hk.
  assert (∃ vs, Forall2 (λ it v, at_cell vars it = Some v
                                 ∧ (v < length st)%nat ∧ v ∈ mjoin vars)
                        (line_items (Z.of_nat k) (Z.of_nat n) isRow) vs
                ∧ length vs = n) as (vs & Hvs & Hlen).
  { unfold line_items. rewrite range_nat.
    destruct isRow;
      [rewrite product2_singleton_l|rewrite product2_singleton_r];
      rewrite <- list_fmap_compose.
    - exists ((λ j, default 0%nat (at_cell vars (Z.of_nat k, Z.of_nat j)))
                <$> seq 0 n).
      split; [|by rewrite length_fmap, length_seq].
      apply Forall2_fmap, Forall_Forall2_diag, Forall_forall.
      intros j Hj%elem_of_seq. simpl.
      destruct (at_cell_square n st vars k j) as (? & v & _ & _ & -> & ? & ?);
        [done|lia|lia|done].
    - exists ((λ j, default 0%nat (at_cell vars (Z.of_nat j, Z.of_nat k)))
                <$> seq 0 n).
      split; [|by rewrite length_fmap, length_seq].
      apply Forall2_fmap, Forall_Forall2_diag, Forall_forall.
      intros j Hj%elem_of_seq. simpl.
      destruct (at_cell_square n st vars j k) as (? & v & _ & _ & -> & ? & ?);
        [done|lia|lia|done]. }
  exists vs. split; [|split; [done|]].
  - apply mapM_Some. eapply Forall2_impl; [exact Hvs|]. by intros ? ? [? _].
  - eapply Forall2_Forall_r; [exact Hvs|]. apply Forall_true. by intros ? ? [_ ?].
Qed.

(** ** The grid compilers *)

Lemma domain_lookup (st : list Var) (d : list Z) (v : var_id) :
  Forall (λ o, dom o = d) st → (v < length st)%nat → domain st v = d.
Proof.
  intros Hst Hv. unfold domain.
  destruct (lookup_lt_is_Some_2 st v Hv) as [o Ho]. rewrite Ho. simpl.
  by apply (Forall_lookup_1 _ _ _ _ Hst Ho).
Qed.

Lemma for_each_collect {A C} (f : A → option (list C))
    (body : list C → A → option (list C)) (l : list A) (acc : list C) :
  (∀ cons x, body cons x = y ← f x; Some (cons ++ y)) →
  for_each body acc l = ys ← mapM f l; Some (acc ++ mjoin ys).
Proof.
  intros Hbody. revert acc.
  induction l as [|x l IH]; intros acc; simpl.
  { by rewrite app_nil_r. }
  rewrite Hbody. destruct (f x) as [y|]; simpl; [|done].
  rewrite IH. destruct (mapM f l) as [ys|]; simpl; [|done].
  by rewrite app_assoc.
Qed.

Lemma mapM_pair_equiv {A B C T} (f : A → option B) (g : A → option C)
    (P : T → B → Prop) (Q : T → C → Prop) (l : list A) :
  (∀ x, x ∈ l → ∃ y z, f x = Some y ∧ g x = Some z ∧ ∀ a, P a y ↔ Q a z) →
  ∃ ys zs, mapM f l = Some ys ∧ mapM g l = Some zs
           ∧ ∀ a, Forall (P a) ys ↔ Forall (Q a) zs.
Proof.
  induction l as [|x l IH]; intros Hl; simpl.
  { exists [], []. by repeat split. }
  destruct (Hl x) as (y & z & -> & -> & Hyz); [left|].
  destruct IH as (ys & zs & -> & -> & Hyzs).
  { intros x' Hx'. apply Hl. by right. }
  exists (y :: ys), (z :: zs). simpl. repeat split; try done.
  - inversion 1; subst. constructor; [by apply Hyz|by apply Hyzs].
  - inversion 1; subst. constructor; [by apply Hyz|by apply Hyzs].
Qed.

Lemma combinations2_elem {A} (l : list A) (p : A * A) :
  p ∈ Py.combinations2 l → p.1 ∈ l ∧ p.2 ∈ l.
Proof.
  induction l as [|x l IH]; simpl; [by intros ?%elem_of_nil|].
  intros [(y & -> & Hy)%list_elem_of_fmap|Hp]%elem_of_app; simpl.
  - split; [left|by right].
  - destruct (IH Hp). split; by right.
Qed.

(** The binary helper on a line of variables: one constraint per pair. *)
Lemma helper_binary_spec st index size (vars : board) isRow vs :
  mapM (at_cell vars) (line_items index size isRow) = Some vs →
  ∃ cs, helper_binary_ne_constraint st index size vars isRow = Some cs
        ∧ Forall2 (λ (p : var_id * var_id) c,
                     scope c = [p.1; p.2]
                     ∧ sat_tuples c
                       = (λ t : Z * Z, [t.1; t.2])
                         <$> filter (λ t : Z * Z, t.1 ≠ t.2)
                               (Py.product2 (domain st p.1) (domain st p.2)))
                  (Py.combinations2 vs) cs.
Proof.
  intros Hvs%mapM_Some%combinations2_Forall2.
  unfold helper_binary_ne_constraint.
  induction Hvs as [|p q ps qs [Hp1 Hp2] _ (cs & Hcs & IH)]; simpl.
  { exists []. by split. }
  rewrite Hp1, Hp2. simpl. simpl in Hcs. rewrite Hcs. simpl.
  eexists. split; [done|]. constructor; [by split|done].
Qed.

(** The n-ary helper on a line of variables: one constraint. *)
Lemma helper_nary_spec st index size (vars : board) isRow vs :
  mapM (at_cell vars) (line_items index size isRow) = Some vs →
  ∃ c, helper_nary_ad_constraint st index size vars isRow = Some c
       ∧ scope c = vs
       ∧ sat_tuples c
         = filter (λ t : list Z, length t = length (remove_dups t))
                  (Py.product (domain st <$> vs)).
Proof.
  intros Hvs. unfold helper_nary_ad_constraint. rewrite Hvs. simpl.
  eexists. by split.
Qed.

(** On one line the pairwise not-equal constraints and the all-different
    constraint accept the same values, when the values lie in the
    domains. *)
Lemma line_equivalence st (a : var_id → Z) (vs : list var_id) cs c :
  Forall (λ v, a v ∈ domain st v) vs →
  Forall2 (λ (p : var_id * var_id) c,
             scope c = [p.1; p.2]
             ∧ sat_tuples c
               = (λ t : Z * Z, [t.1; t.2])
                 <$> filter (λ t : Z * Z, t.1 ≠ t.2)
                       (Py.product2 (domain st p.1) (domain st p.2)))
          (Py.combinations2 vs) cs →
  scope c = vs →
  sat_tuples c = filter (λ t : list Z, length t = length (remove_dups t))
                        (Py.product (domain st <$> vs)) →
  Forall (satisfies a) cs ↔ satisfies a c.
Proof.
  intros Hdom Hcs Hsc Hsat.
  assert (satisfies a c ↔ NoDup (a <$> vs)) as ->.
  { unfold satisfies. rewrite Hsc, Hsat, list_elem_of_filter.
    rewrite length_remove_dups_NoDup, elem_of_product.
    split; [by intros [? _]|]. intros Hnd. split; [done|].
    apply Forall2_fmap, Forall_Forall2_diag. done. }
  rewrite NoDup_combinations2, combinations2_fmap.
  rewrite Forall_forall in Hdom.
  assert (Forall (satisfies a) cs
          ↔ Forall (λ p : var_id * var_id, a p.1 ≠ a p.2)
                   (Py.combinations2 vs)) as ->.
  { pose proof (combinations2_elem vs) as Hel. revert Hel Hcs.
    generalize (Py.combinations2 vs). intros ps Hel Hcs. revert Hel.
    induction Hcs as [|p c' ps' cs' [Hs Ht] _ IH]; intros Hel.
    { split; constructor. }
    rewrite !Forall_cons, IH by (intros; apply Hel; by right).
    assert (satisfies a c' ↔ a p.1 ≠ a p.2) as ->; [|done].
    unfold satisfies. rewrite Hs, Ht. simpl.
    rewrite list_elem_of_fmap. split.
    - intros ([x y] & [= -> ->] & [Hne _]%list_elem_of_filter). done.
    - intros Hne. exists (a p.1, a p.2). split; [done|].
      apply list_elem_of_filter. split; [done|].
      destruct (Hel p) as [? ?]; [left|].
      apply elem_of_product2. split; by apply Hdom. }
  rewrite Forall_forall. split.
  - intros H q (p & -> & Hp)%list_elem_of_fmap. by apply H.
  - intros H p Hp. apply (H (a p.1, a p.2)), list_elem_of_fmap. eauto.
Qed.

(** Both grid compilers succeed on every description that starts with a
    size; they build the same variables and board, and constraint lists
    that accept the same assignments over the domain. *)
Lemma grid_compilers_spec (g : list (list Z)) (N : Z) :
  grid_size g = Some N →
  ∃ consb consn,
    binary_ne_grid g
    = Some (make_csp N (make_vars (make_dom N)).1 (make_vars (make_dom N)).2
                     consb, (make_vars (make_dom N)).2)
    ∧ nary_ad_grid g
      = Some (make_csp N (make_vars (make_dom N)).1 (make_vars (make_dom N)).2
                       consn, (make_vars (make_dom N)).2)
    ∧ ∀ a : var_id → Z,
        (∀ v, v ∈ mjoin (make_vars (make_dom N)).2 → a v ∈ make_dom N) →
        Forall (satisfies a) consb ↔ Forall (satisfies a) consn.
Proof.
  intros Hsize. unfold binary_ne_grid, nary_ad_grid. rewrite Hsize. simpl.
  pose proof (make_vars_square (make_dom N)) as Hsq.
  pose proof (make_vars_spec (make_dom N)) as (_ & Hdom & _).
  rewrite make_dom_length in Hsq.
  destruct (make_vars (make_dom N)) as [st vars]. simpl in *.
  set (fb := λ index,
    rowCons ← helper_binary_ne_constraint st index N vars true;
    colCons ← helper_binary_ne_constraint st index N vars false;
    Some (rowCons ++ colCons)).
  set (fn := λ index,
    rowCon ← helper_nary_ad_constraint st index N vars true;
    colCon ← helper_nary_ad_constraint st index N vars false;
    Some ([rowCon] ++ [colCon])).
  rewrite (for_each_collect fb), (for_each_collect fn); cycle 1.
  { intros cons x. unfold fn.
    destruct (helper_nary_ad_constraint st x N vars true); simpl; [|done].
    by destruct (helper_nary_ad_constraint st x N vars false). }
  { intros cons x. unfold fb.
    destruct (helper_binary_ne_constraint st x N vars true); simpl; [|done].
    by destruct (helper_binary_ne_constraint st x N vars false). }
  destruct (mapM_pair_equiv fb fn
    (λ (a : {a : var_id → Z | ∀ v, v ∈ mjoin vars → a v ∈ make_dom N}) cs,
       Forall (satisfies (`a)) cs)
    (λ (a : {a : var_id → Z | ∀ v, v ∈ mjoin vars → a v ∈ make_dom N}) cs,
       Forall (satisfies (`a)) cs)
    (Py.range N)) as (ys & zs & -> & -> & Heq).
  { intros x Hx%elem_of_seqZ.
    assert (x = Z.of_nat (Z.to_nat x)) as Hxk by lia.
    assert (N = Z.of_nat (Z.to_nat N)) as HNn by lia.
    assert (Z.to_nat x < Z.to_nat N)%nat as Hlt by lia.
    destruct (line_vars _ _ _ _ true Hsq Hlt) as (rvs & Hrvs & _ & Hrin).
    destruct (line_vars _ _ _ _ false Hsq Hlt) as (cvs & Hcvs & _ & Hcin).
    rewrite <- Hxk, <- HNn in Hrvs, Hcvs.
    destruct (helper_binary_spec st _ _ _ _ _ Hrvs) as (rb & Hrb & Hrbs).
    destruct (helper_binary_spec st _ _ _ _ _ Hcvs) as (cb & Hcb & Hcbs).
    destruct (helper_nary_spec st _ _ _ _ _ Hrvs) as (rn & Hrn & Hrs & Hrt).
    destruct (helper_nary_spec st _ _ _ _ _ Hcvs) as (cn & Hcn & Hcs & Hct).
    exists (rb ++ cb), ([rn] ++ [cn]). unfold fb, fn.
    rewrite Hrb, Hcb, Hrn, Hcn. simpl. split; [done|]. split; [done|].
    intros [a Ha]; simpl.
    rewrite Forall_app, Forall_cons, Forall_singleton.
    rewrite (line_equivalence st a rvs rb rn),
            (line_equivalence st a cvs cb cn); try done.
    all: eapply Forall_impl; [eassumption|]; simpl; intros v [Hv Hin].
    all: rewrite (domain_lookup st (make_dom N) v Hdom Hv); by apply Ha. }
  simpl. exists (mjoin ys), (mjoin zs). split; [done|]. split; [done|].
  intros a Ha. rewrite !Forall_mjoin. apply (Heq (a ↾ Ha)).
Qed.

(** C5: on every description that starts with a grid size the binary
    not-equal model and the n-ary all-different model are both built, over
    the same variables and board, and an assignment of values of 1..N to
    the variables satisfies every constraint of one exactly when it
    satisfies every constraint of the other. *)
Theorem grid_models_equivalent (g : list (list Z)) (N : Z) :
  grid_size g = Some N →
  ∃ b n,
    binary_ne_grid g = Some b ∧ nary_ad_grid g = Some n
    ∧ store b.1 = store n.1 ∧ vars b.1 = vars n.1 ∧ b.2 = n.2
    ∧ ∀ a : var_id → Z,
        (∀ v, v ∈ vars b.1 → 1 ≤ a v ≤ N) →
        accepts b.1 a ↔ accepts n.1 a.
Proof.
  intros Hsize.
  destruct (grid_compilers_spec g N Hsize) as (cb & cn & Hb & Hn & Heq).
  eexists _, _. split; [exact Hb|]. split; [exact Hn|]. simpl.
  do 3 (split; [done|]). intros a Ha. apply Heq.
  intros v Hv. by apply elem_of_make_dom, Ha.
Qed.

Lemma grid_models_equivalent_witness :
  grid_size [[3]] = Some 3
  ∧ ∃ b n,
      binary_ne_grid [[3]] = Some b ∧ nary_ad_grid [[3]] = Some n
      ∧ store b.1 = store n.1 ∧ vars b.1 = vars n.1 ∧ b.2 = n.2
      ∧ ∀ a : var_id → Z,
          (∀ v, v ∈ vars b.1 → 1 ≤ a v ≤ 3) →
          accepts b.1 a ↔ accepts n.1 a.
Proof.
  assert (grid_size [[3]] = Some 3) as Hsize by (vm_compute; reflexivity).
  split; [exact Hsize|].
  exact (grid_models_equivalent [[3]] 3 Hsize).
Defined.

Lemma grid_size_cons (N : Z) (cages : list (list Z)) :
  grid_size ([N] :: cages) = Some N.
Proof. unfold grid_size. rewrite get_head. simpl. apply get_head. Qed.

(** C10: two descriptions that start with the same size row give the same
    result in [binary_ne_grid], and the same result in [nary_ad_grid],
    whatever rows follow: names, domains, scopes and satisfying tuples
    coincide. *)
Theorem grid_compilers_ignore_cages (N : Z)
    (cages1 cages2 : list (list Z)) :
  (∃ r, binary_ne_grid ([N] :: cages1) = Some r
        ∧ binary_ne_grid ([N] :: cages2) = Some r)
  ∧ (∃ r, nary_ad_grid ([N] :: cages1) = Some r
          ∧ nary_ad_grid ([N] :: cages2) = Some r).
Proof.
  destruct (grid_compilers_spec ([N] :: cages1) N (grid_size_cons _ _))
    as (cb & cn & Hb & Hn & _).
  split.
  - eexists. split; [exact Hb|]. rewrite <- Hb.
    unfold binary_ne_grid. by rewrite !grid_size_cons.
  - eexists. split; [exact Hn|]. rewrite <- Hn.
    unfold nary_ad_grid. by rewrite !grid_size_cons.
Qed.

(** ** Orderings of a tuple *)

Lemma elem_of_picks {A} (l : list A) (x : A) (rest : list A) :
  (x, rest) ∈ Py.picks l ↔ ∃ l1 l2, l = l1 ++ x :: l2 ∧ rest = l1 ++ l2.
Proof.
  revert rest. induction l as [|y l IH]; intros rest; simpl.
  { split; [by intros ?%elem_of_nil|]. by intros ([|??] & ? & ? & _). }
  rewrite elem_of_cons, list_elem_of_fmap. split.
  - intros [[= -> ->]|([x' rest'] & [= -> ->] & Hin)].
    + by exists [], l.
    + apply IH in Hin as (l1 & l2 & -> & ->). by exists (y :: l1), l2.
  - intros ([|y' l1] & l2 & Hl & ->); simplify_eq/=.
    + by left.
    + right. exists (x, l1 ++ l2). split; [done|]. apply IH. eauto.
Qed.

Lemma elem_of_permutations {A} (t r : list A) :
  r ∈ Py.permutations t ↔ r ≡ₚ t.
Proof.
  unfold Py.permutations. remember (length t) as n eqn:Hn.
  revert t r Hn. induction n as [|n IH]; intros t r Hn; simpl.
  { destruct t; [|done]. rewrite list_elem_of_singleton. split.
    - by intros ->.
    - by intros ->%Permutation_nil_r. }
  rewrite list_elem_of_bind. split.
  - intros ([x rest] & (r' & -> & Hr')%list_elem_of_fmap
            & (l1 & l2 & -> & ->)%elem_of_picks). simpl in *.
    apply IH in Hr'; [|simpl; rewrite ?length_app in *; simpl in *; lia].
    by rewrite Hr', Permutation_middle.
  - intros Hp. destruct r as [|x r'].
    { apply Permutation_nil_l in Hp. by subst. }
    assert (x ∈ t) as (l1 & l2 & ->)%list_elem_of_split.
    { rewrite <- Hp. left. }
    exists (x, l1 ++ l2). split; [|apply elem_of_picks; eauto].
    apply list_elem_of_fmap. exists r'. split; [done|].
    apply IH; [simpl; rewrite ?length_app in *; simpl in *; lia|].
    by apply Permutation_cons_app_inv in Hp.
Qed.

(** ** The cage loop *)

Lemma at_cell_board_at n st (vars : board) (c : Z) :
  square_board n st vars →
  at_cell vars (cell_of c) = cell_pos n c ≫= board_at vars.
Proof.
  intros [Hlen Hrows]. unfold at_cell, cell_pos, board_at, Py.get.
  rewrite Hlen. generalize ((cell_of c).1) ((cell_of c).2). intros i j.
  destruct (Py.norm_index n i) as [ki|]; simpl; [|done].
  destruct (vars !! ki) as [row|] eqn:Hrow; simpl.
  - destruct (Forall_lookup_1 _ _ _ _ Hrows Hrow) as [Hl _]. rewrite Hl.
    destruct (Py.norm_index n j); simpl; [|done]. by rewrite Hrow.
  - destruct (Py.norm_index n j); simpl; [|done]. by rewrite Hrow.
Qed.

Lemma compile_cage_spec (b b' : build) (cage : list Z) :
  compile_cage b cage = Some b' →
  ∃ con, b' = (b.1.1, b.1.2, b.2 ++ [con]) ∧ compiled b.1.1 b.1.2 cage con.
Proof.
  unfold compile_cage. intros H.
  apply bind_Some in H as (val & Hval & H).
  apply bind_Some in H as (op & Hop & H).
  apply bind_Some in H as (cageVars & Hvars & H).
  apply bind_Some in H as (added & Hadded & [= <-]).
  eexists. split; [done|]. by exists val, op, added.
Qed.

Lemma force_cell_spec (b b' : build) (cage : list Z) :
  force_cell b cage = Some b' →
  ∃ val c ki kj row,
    Py.get cage 1 = Some val ∧ Py.get cage 0 = Some c
    ∧ Py.norm_index (length b.1.2) (cell_of c).1 = Some ki
    ∧ b.1.2 !! ki = Some row
    ∧ Py.norm_index (length row) (cell_of c).2 = Some kj
    ∧ b' = (b.1.1 ++ [new_Variable (cell_name ((cell_of c).1 + 1)
                                              ((cell_of c).2 + 1)) [val]],
            <[ki := <[kj := length b.1.1]> row]> b.1.2,
            b.2).
Proof.
  unfold force_cell. intros H.
  apply bind_Some in H as (val & Hval & H).
  apply bind_Some in H as (c & Hc & H).
  apply bind_Some in H as (row & (ki & Hki & Hrow)%get_Some & H).
  apply bind_Some in H as (row' & (kj & Hkj & ->)%set_Some & H).
  apply bind_Some in H as (vars' & (ki' & Hki' & ->)%set_Some & [= <-]).
  rewrite Hki in Hki'. injection Hki' as <-.
  by exists val, c, ki, kj, row.
Qed.

Lemma force_cell_square n (b b' : build) (cage : list Z) :
  force_cell b cage = Some b' →
  square_board n b.1.1 b.1.2 → square_board n b'.1.1 b'.1.2.
Proof.
  intros (val & c & ki & kj & row & _ & _ & _ & Hrow & _ & ->)%force_cell_spec.
  intros [Hlen Hrows]. simpl. split; [by rewrite length_insert|].
  assert (Forall (λ row, length row = n
                         ∧ Forall (λ v, v < length (b.1.1 ++ [new_Variable
                             (cell_name ((cell_of c).1 + 1)
                                        ((cell_of c).2 + 1)) [val]]))%nat row)
                 b.1.2) as Hrows'.
  { eapply Forall_impl; [exact Hrows|]. intros r [? Hr]. split; [done|].
    eapply Forall_impl; [exact Hr|]. intros v Hv. simpl in Hv.
    rewrite length_app. simpl. lia. }
  apply Forall_insert; [done|].
  destruct (Forall_lookup_1 _ _ _ _ Hrows' Hrow) as [Hl Hids].
  split; [by rewrite length_insert|].
  apply Forall_insert; [done|]. rewrite length_app. simpl. lia.
Qed.

Lemma cage_step_spec n (b b1 : build) (cage : list Z) :
  cage_step b cage = Some b1 →
  square_board n b.1.1 b.1.2 →
  square_board n b1.1.1 b1.1.2
  ∧ b.1.1 `prefix_of` b1.1.1
  ∧ ((2 < length cage)%nat
     ∧ (∃ con, b1 = (b.1.1, b.1.2, b.2 ++ [con])
               ∧ compiled b.1.1 b.1.2 cage con)
     ∨ ¬ (2 < length cage)%nat
       ∧ b1.2 = b.2
       ∧ (b1 = b ∨ length cage = 2%nat ∧ force_cell b cage = Some b1)).
Proof.
  unfold cage_step. intros H Hsq.
  destruct (decide (length cage = 1%nat)) as [H1|H1].
  { rewrite (bool_decide_true (length cage = 1%nat)) in H by done.
    injection H as <-. split; [done|]. split; [done|].
    right. split; [lia|]. by split; [|left]. }
  rewrite (bool_decide_false (length cage = 1%nat)) in H by done.
  destruct (decide (length cage = 2%nat)) as [H2|H2].
  - rewrite (bool_decide_true (length cage = 2%nat)) in H by done.
    apply bind_Some in H as (b' & Hf & H).
    rewrite (bool_decide_false (2 < length cage)%nat) in H by lia.
    injection H as <-.
    split; [by eapply force_cell_square|].
    pose proof Hf as (? & ? & ? & ? & ? & _ & _ & _ & _ & _ & ->)%force_cell_spec.
    simpl. split; [by apply prefix_app_r|].
    right. split; [lia|]. split; [done|]. right. by split.
  - rewrite (bool_decide_false (length cage = 2%nat)) in H by done.
    simpl in H.
    destruct (decide (2 < length cage)%nat) as [H3|H3].
    + rewrite (bool_decide_true (2 < length cage)%nat) in H by done.
      apply compile_cage_spec in H as (con & -> & Hcon). simpl.
      split; [done|]. split; [done|]. left. eauto.
    + rewrite (bool_decide_false (2 < length cage)%nat) in H by done.
      injection H as <-. split; [done|]. split; [done|].
      right. by split; [|split; [|left]].
Qed.

Section cage_loop.
Context (n : nat) (Q : build → Prop).

(** The loop over a list of rows: the board stays square, the store
    only grows, and the new constraints are those of the cage rows, in
    order, each compiled over a state the loop went through. *)
Lemma cage_loop_spec (g : list (list Z)) (b b' : build) :
  (∀ cage b b1, cage ∈ g → square_board n b.1.1 b.1.2 → Q b →
                cage_step b cage = Some b1 → Q b1) →
  square_board n b.1.1 b.1.2 → Q b →
  for_each cage_step b g = Some b' →
  square_board n b'.1.1 b'.1.2 ∧ Q b' ∧ b.1.1 `prefix_of` b'.1.1
  ∧ ∃ new, b'.2 = b.2 ++ new
           ∧ Forall2 (λ cage con,
                        ∃ b0 : build,
                          square_board n b0.1.1 b0.1.2 ∧ Q b0
                          ∧ b0.1.1 `prefix_of` b'.1.1
                          ∧ compiled b0.1.1 b0.1.2 cage con)
                     (cage_rows g) new.
Proof.
  revert b. induction g as [|cage g IH]; intros b HQ Hsq Hb Hloop.
  { injection Hloop as <-. do 3 (split; [done|]).
    exists []. split; [by rewrite app_nil_r|constructor]. }
  simpl in Hloop. apply bind_Some in Hloop as (b1 & Hstep & Hloop).
  pose proof (HQ cage b b1 ltac:(left) Hsq Hb Hstep) as Hb1.
  destruct (cage_step_spec n _ _ _ Hstep Hsq) as (Hsq1 & Hpre & Hcase).
  destruct (IH b1) as (Hsq' & HQ' & Hpre' & new & Hnew & Hall); try done.
  { intros c' ? ? ?. apply HQ. by right. }
  split; [done|]. split; [done|]. split; [by etrans|].
  unfold cage_rows. rewrite filter_cons.
  destruct Hcase as [(Hlen & con & -> & Hcon)|(Hlen & Hcons & _)].
  - rewrite decide_True by done. exists (con :: new). simpl in *.
    split; [by rewrite Hnew, <- app_assoc|].
    constructor; [|done]. exists b.
    split; [done|]. split; [done|]. split; [exact Hpre'|done].
  - rewrite decide_False by done. exists new.
    split; [by rewrite Hnew, Hcons|done].
Qed.
End cage_loop.

(** ** The grid constraints of the full model *)

Lemma line_row n st (vars : board) (k : nat) (row : list var_id) :
  square_board n st vars → vars !! k = Some row →
  mapM (at_cell vars) (line_items (Z.of_nat k) (Z.of_nat n) true) = Some row.
Proof.
  intros [Hlen Hrows] Hrow.
  destruct (Forall_lookup_1 _ _ _ _ Hrows Hrow) as [Hl _].
  pose proof (lookup_lt_Some _ _ _ Hrow) as Hk.
  apply mapM_Some. unfold line_items.
  rewrite range_nat, product2_singleton_l, <- list_fmap_compose.
  apply Forall2_fmap_l, Forall2_same_length_lookup_2.
  { by rewrite length_seq. }
  intros i j v [-> Hi]%lookup_seq Hv. simpl.
  apply at_cell_Some. exists row, k, i. simpl.
  rewrite Hl, !norm_index_nat by lia. done.
Qed.

Lemma line_column n st (vars : board) (k : nat) :
  square_board n st vars → (k < n)%nat →
  ∃ col, mapM (at_cell vars) (line_items (Z.of_nat k) (Z.of_nat n) false)
         = Some col
         ∧ Forall2 (λ row v, row !! k = Some v) vars col.
Proof.
  intros [Hlen Hrows] Hk.
  exists ((λ row, default 0%nat (row !! k)) <$> vars).
  assert (Forall2 (λ (row : list var_id) (v : var_id), row !! k = Some v) vars
                  ((λ row, default 0%nat (row !! k)) <$> vars)) as Hcol.
  { apply Forall2_fmap_r, Forall_Forall2_diag.
    eapply Forall_impl; [exact Hrows|]. intros row [Hl _]. simpl.
    by destruct (lookup_lt_is_Some_2 row k) as [v ->]; [lia|]. }
  split; [|done].
  apply mapM_Some. unfold line_items.
  rewrite range_nat, product2_singleton_r, <- list_fmap_compose.
  apply Forall2_fmap_l, Forall2_same_length_lookup_2.
  { by rewrite length_seq, length_fmap. }
  intros i j v [-> Hi]%lookup_seq Hv. simpl.
  rewrite list_lookup_fmap in Hv.
  destruct (vars !! i) as [row|] eqn:Hrow; [|done]. simpl in Hv.
  destruct (Forall_lookup_1 _ _ _ _ Hrows Hrow) as [Hl _].
  destruct (lookup_lt_is_Some_2 row k) as [w Hw]; [lia|].
  rewrite Hw in Hv. injection Hv as <-.
  apply at_cell_Some. exists row, i, k. simpl.
  rewrite Hl, !norm_index_nat by lia. done.
Qed.

Lemma grid_loop_collect (size : Z) (st : list Var) (vars : board)
    (l : list Z) (cons0 : list Constraint) :
  for_each (grid_step size) (st, vars, cons0) l
  = ys ← mapM (λ index,
                 rowCon ← helper_nary_ad_constraint st index size vars true;
                 colCon ← helper_nary_ad_constraint st index size vars false;
                 Some [rowCon; colCon]) l;
    Some (st, vars, cons0 ++ mjoin ys).
Proof.
  revert cons0. induction l as [|x l IH]; intros cons0.
  { simpl. by rewrite app_nil_r. }
  cbn [for_each mapM].
  assert (grid_step size (st, vars, cons0) x
          = (rowCon ← helper_nary_ad_constraint st x size vars true;
             colCon ← helper_nary_ad_constraint st x size vars false;
             Some (st, vars, cons0 ++ [rowCon; colCon]))) as -> by done.
  destruct (helper_nary_ad_constraint st x size vars true) as [r|];
    [|done].
  destruct (helper_nary_ad_constraint st x size vars false) as [c|];
    [|done].
  cbn [mbind option_bind]. rewrite IH.
  match goal with |- context [mapM ?f l] => destruct (mapM f l) end;
    [|done].
  simpl. by rewrite <- !app_assoc.
Qed.

(** The last loop of [kenken_csp_model] succeeds on a square board and
    adds, for every index, the all-different constraint of its row and of
    its column, both computed from the board and the domains as they are
    after the cage loop. *)
Lemma grid_loop_spec n (st : list Var) (vars : board)
    (cons0 : list Constraint) :
  square_board n st vars →
  ∃ lines,
    for_each (grid_step (Z.of_nat n)) (st, vars, cons0)
             (Py.range (Z.of_nat n))
    = Some (st, vars, cons0 ++ lines)
    ∧ Forall (λ con,
                Forall (λ v, v < length st)%nat (scope con)
                ∧ sat_tuples con
                  = filter (λ t : list Z, length t = length (remove_dups t))
                           (Py.product (domain st <$> scope con))) lines
    ∧ ∀ k row, vars !! k = Some row →
        ∃ rowCon colCon,
          rowCon ∈ lines ∧ colCon ∈ lines
          ∧ scope rowCon = row
          ∧ Forall2 (λ row v, row !! k = Some v) vars (scope colCon).
Proof.
  intros Hsq. rewrite grid_loop_collect, range_nat.
  pose proof Hsq as [Hlen Hrows].
  set (f := λ index,
    rowCon ← helper_nary_ad_constraint st index (Z.of_nat n) vars true;
    colCon ← helper_nary_ad_constraint st index (Z.of_nat n) vars false;
    Some [rowCon; colCon]).
  assert (∀ k, (k < n)%nat →
    ∃ row rowCon colCon,
      vars !! k = Some row ∧ f (Z.of_nat k) = Some [rowCon; colCon]
      ∧ scope rowCon = row
      ∧ Forall2 (λ row v, row !! k = Some v) vars (scope colCon)
      ∧ Forall (λ con,
                  Forall (λ v, v < length st)%nat (scope con)
                  ∧ sat_tuples con
                    = filter (λ t : list Z,
                                length t = length (remove_dups t))
                             (Py.product (domain st <$> scope con)))
               [rowCon; colCon]) as Hf.
  { intros k Hk.
    destruct (lookup_lt_is_Some_2 vars k) as [row Hrow]; [lia|].
    pose proof (line_row n st vars k row Hsq Hrow) as Hr.
    destruct (line_column n st vars k Hsq Hk) as (col & Hc & Hcol).
    destruct (helper_nary_spec st _ _ _ _ _ Hr) as (rc & Hrc & Hrs & Hrt).
    destruct (helper_nary_spec st _ _ _ _ _ Hc) as (cc & Hcc & Hcs & Hct).
    exists row, rc, cc. unfold f. rewrite Hrc, Hcc. simpl.
    do 3 (split; [done|]). split; [by rewrite Hcs|].
    destruct (line_vars n st vars k true Hsq Hk) as (rvs & Hrvs & _ & Hrin).
    destruct (line_vars n st vars k false Hsq Hk) as (cvs & Hcvs & _ & Hcin).
    rewrite Hr in Hrvs. rewrite Hc in Hcvs.
    injection Hrvs as <-. injection Hcvs as <-.
    repeat constructor.
    - rewrite Hrs. eapply Forall_impl; [exact Hrin|]. by intros ? [? _].
    - by rewrite Hrt, Hrs.
    - rewrite Hcs. eapply Forall_impl; [exact Hcin|]. by intros ? [? _].
    - by rewrite Hct, Hcs. }
  assert (∃ ys, mapM f (Z.of_nat <$> seq 0 n) = Some ys
                ∧ Forall2 (λ k y, f (Z.of_nat k) = Some y) (seq 0 n) ys)
    as (ys & Hys & Hall).
  { destruct (mapM_is_Some_2 f (Z.of_nat <$> seq 0 n)) as [ys Hys].
    { apply Forall_fmap, Forall_forall. intros k Hk%elem_of_seq. simpl.
      destruct (Hf k) as (? & ? & ? & _ & -> & _); [lia|]. eauto. }
    exists ys. split; [done|].
    apply mapM_Some in Hys. by apply Forall2_fmap_l in Hys. }
  rewrite Hys. simpl. exists (mjoin ys). split; [done|]. split.
  - apply Forall_mjoin, Forall_forall. intros y Hy.
    apply list_elem_of_lookup in Hy as [i Hi].
    destruct (Forall2_lookup_r _ _ _ _ _ Hall Hi)
      as (k & Hk%lookup_seq & Hfk).
    destruct (Hf k) as (? & rc & cc & _ & Hfk' & _ & _ & Hcons); [lia|].
    rewrite Hfk' in Hfk. by injection Hfk as <-.
  - intros k row Hrow. pose proof (lookup_lt_Some _ _ _ Hrow) as Hk.
    destruct (Hf k) as (row' & rc & cc & Hrow' & Hfk & Hrs & Hcs & _); [lia|].
    rewrite Hrow in Hrow'. injection Hrow' as <-.
    destruct (Forall2_lookup_l _ (seq 0 n) ys k k Hall)
      as (y & Hy & Hfy); [apply lookup_seq; lia|].
    rewrite Hfk in Hfy. injection Hfy as <-.
    apply list_elem_of_lookup_2 in Hy.
    exists rc, cc. repeat split; try done.
    + apply list_elem_of_join. exists [rc; cc]. split; [left|done].
    + apply list_elem_of_join. exists [rc; cc].
      split; [right; left|done].
Qed.

(** ** The tuples of a cage *)

Lemma cage_check_elem (op val : Z) (t : list Z) (l : list (list Z)) :
  cage_check op val t = Some l → ∀ t', t' ∈ l → t' = t.
Proof.
  unfold cage_check. intros H t' Ht'.
  repeat case_bool_decide; simplify_option_eq;
    try (apply list_elem_of_fmap in Ht' as (? & -> & _); done);
    try (apply list_elem_of_singleton in Ht'; done);
    by apply elem_of_nil in Ht'.
Qed.

(** Under subtraction a tuple is kept when one of its orderings reaches
    the target. *)
Lemma cage_check_sub (val : Z) (t : list Z) (l : list (list Z)) :
  cage_check 1 val t = Some l →
  ∀ t', t' ∈ l ↔ t' = t ∧ ∃ p0 ps, p0 :: ps ≡ₚ t ∧ foldl Z.sub p0 ps = val.
Proof.
  unfold cage_check.
  rewrite (bool_decide_false (1 = 0)), (bool_decide_true (1 = 1)) by done.
  intros (hits & Hhits%mapM_Some & [= <-])%bind_Some t'.
  rewrite list_elem_of_fmap. split.
  - intros (h & -> & [-> Hh]%list_elem_of_filter). split; [done|].
    apply list_elem_of_lookup in Hh as [i Hi].
    destruct (Forall2_lookup_r _ _ _ _ _ Hhits Hi) as (r & Hr & Hres).
    apply list_elem_of_lookup_2, elem_of_permutations in Hr.
    destruct r as [|p0 ps]; [done|]. simpl in Hres.
    injection Hres as Hres%bool_decide_eq_true. eauto.
  - intros [-> (p0 & ps & Hp%elem_of_permutations & Hval)].
    exists true. split; [done|]. apply list_elem_of_filter. split; [done|].
    apply list_elem_of_lookup in Hp as [i Hi].
    destruct (Forall2_lookup_l _ _ _ _ _ Hhits Hi) as (h & Hh & Hres).
    simpl in Hres. rewrite bool_decide_true in Hres by done.
    injection Hres as <-. by apply list_elem_of_lookup_2 in Hh.
Qed.

Lemma elem_of_mapM_join {A B} (f : A → option (list B)) (P : A → B → Prop)
    (l : list A) (ys : list (list B)) :
  mapM f l = Some ys →
  (∀ x zs, f x = Some zs → ∀ y, y ∈ zs ↔ P x y) →
  ∀ y, y ∈ mjoin ys ↔ ∃ x, x ∈ l ∧ P x y.
Proof.
  intros Hys%mapM_Some HP y. rewrite list_elem_of_join. split.
  - intros (zs & Hy & [i Hi]%list_elem_of_lookup).
    destruct (Forall2_lookup_r _ _ _ _ _ Hys Hi) as (x & Hx & Hfx).
    exists x. split; [by eapply list_elem_of_lookup_2|].
    by apply (HP x zs).
  - intros (x & [i Hi]%list_elem_of_lookup & Hxy).
    destruct (Forall2_lookup_l _ _ _ _ _ Hys Hi) as (zs & Hzs & Hfx).
    exists zs. split; [by apply (HP x zs)|by eapply list_elem_of_lookup_2].
Qed.

Lemma domain_prefix (st st' : list Var) (v : var_id) :
  st `prefix_of` st' → (v < length st)%nat → domain st' v = domain st v.
Proof.
  intros [ext ->] Hv. unfold domain. by rewrite lookup_app_l.
Qed.

Lemma at_cell_lt n st (vars : board) (ij : Z * Z) (v : var_id) :
  square_board n st vars → at_cell vars ij = Some v → (v < length st)%nat.
Proof.
  intros [_ Hrows] (row & ki & kj & _ & Hrow & _ & Hv)%at_cell_Some.
  destruct (Forall_lookup_1 _ _ _ _ Hrows Hrow) as [_ Hids].
  by apply (Forall_lookup_1 _ _ _ _ Hids Hv).
Qed.

(** What the cage loop records about a compiled cage, read over a later
    store. *)
Lemma compiled_later n (st0 st : list Var) (vars0 : board) cage con :
  square_board n st0 vars0 → st0 `prefix_of` st →
  compiled st0 vars0 cage con →
  Forall (λ v, v < length st0)%nat (scope con)
  ∧ domain st <$> scope con = domain st0 <$> scope con.
Proof.
  intros Hsq Hpre (val & op & added & _ & _ & Hsc%mapM_Some & _).
  assert (Forall (λ v, v < length st0)%nat (scope con)) as Hlt.
  { eapply Forall2_Forall_r; [exact Hsc|]. apply Forall_true.
    intros e v. by apply (at_cell_lt n st0 vars0). }
  split; [done|]. apply Forall_fmap_ext.
  eapply Forall_impl; [exact Hlt|]. intros v Hv. by apply domain_prefix.
Qed.

Lemma kenken_model_stages (g : list (list Z)) (r : CSP * board) :
  kenken_csp_model g = Some r →
  ∃ N (b1 b : build),
    grid_size g = Some N
    ∧ for_each cage_step
               ((make_vars (make_dom N)).1, (make_vars (make_dom N)).2, []) g
      = Some b1
    ∧ for_each (grid_step (Z.of_nat (Z.to_nat N))) b1
               (Py.range (Z.of_nat (Z.to_nat N))) = Some b
    ∧ r = (make_csp N b.1.1 b.1.2 b.2, b.1.2).
Proof.
  unfold kenken_csp_model, kenken_build.
  intros (N & HN & (b & Hb & [= <-])%bind_Some)%bind_Some.
  rewrite HN in Hb. simpl in Hb.
  apply bind_Some in Hb as (b1 & Hb1 & Hb).
  exists N, b1, b. do 2 (split; [done|]). split; [|done].
  destruct (decide (0 ≤ N)) as [?|Hneg]; [by rewrite Z2Nat.id|].
  rewrite range_nonpos in Hb by lia.
  assert (Z.to_nat N = 0%nat) as -> by lia. done.
Qed.

Lemma norm_index_neg (n : nat) (i : Z) :
  - Z.of_nat n ≤ i < 0 → Py.norm_index n i = Some (Z.to_nat (Z.of_nat n + i)).
Proof.
  intros Hi. unfold Py.norm_index.
  rewrite bool_decide_false by lia. by rewrite bool_decide_true by lia.
Qed.

Lemma cage_row_parts (cells : list Z) (val op : Z) :
  Py.get (cells ++ [val; op]) (-2) = Some val
  ∧ Py.get (cells ++ [val; op]) (-1) = Some op
  ∧ take (length (cells ++ [val; op]) - 2) (cells ++ [val; op]) = cells.
Proof.
  unfold Py.get. rewrite !norm_index_neg by (rewrite length_app; simpl; lia).
  rewrite length_app. simpl.
  replace (Z.to_nat (Z.of_nat (length cells + 2) + -2)) with
    (length cells + 0)%nat by lia.
  replace (Z.to_nat (Z.of_nat (length cells + 2) + -1)) with
    (length cells + 1)%nat by lia.
  rewrite !lookup_app_r by lia.
  replace (length cells + 0 - length cells)%nat with 0%nat by lia.
  replace (length cells + 1 - length cells)%nat with 1%nat by lia.
  do 2 (split; [done|]).
  replace (length cells + 2 - 2)%nat with (length cells) by lia.
  by rewrite take_app_length.
Qed.

Lemma two_orderings (a b p0 : Z) (ps : list Z) :
  p0 :: ps ≡ₚ [a; b] → foldl Z.sub p0 ps = a - b ∨ foldl Z.sub p0 ps = b - a.
Proof.
  intros Hp. symmetry in Hp.
  apply Permutation_length_2_inv in Hp as [[= -> ->]|[= -> ->]]; simpl; auto.
Qed.

(** C4: in the model of a description, the constraints of the cage rows
    come first, in order; for a subtraction cage (last entry 1) a tuple is
    a satisfying tuple exactly when it is drawn from the domains of the
    cage's variables and some ordering p0, p1, ..., pk of its values has
    p0 - p1 - ... - pk equal to the target. So with target 4 the values 7
    and 3 are accepted in either positional order, and with target 10
    neither order is, and a 2-cell cage over domains within {7, 3} has no
    satisfying tuple. *)
Theorem subtraction_cage_orderings (g : list (list Z)) (r : CSP * board) :
  kenken_csp_model g = Some r →
  ∃ cage_cons grid_cons,
    cons r.1 = cage_cons ++ grid_cons
    ∧ Forall2
        (λ cage con,
           ∀ cells val, cage = cells ++ [val; 1] →
             length (scope con) = length cells
             ∧ (∀ t, t ∈ sat_tuples con ↔
                     Forall2 (λ x v, x ∈ domain (store r.1) v) t (scope con)
                     ∧ ∃ p0 ps, p0 :: ps ≡ₚ t ∧ foldl Z.sub p0 ps = val)
             ∧ (∀ t, t ≡ₚ [7; 3] →
                     (val = 4 →
                      Forall2 (λ x v, x ∈ domain (store r.1) v) t (scope con) →
                      t ∈ sat_tuples con)
                     ∧ (val = 10 → t ∉ sat_tuples con))
             ∧ (val = 10 → length cells = 2%nat →
                Forall (λ v, ∀ x, x ∈ domain (store r.1) v → x = 7 ∨ x = 3)
                       (scope con) →
                sat_tuples con = []))
        (cage_rows g) cage_cons.
Proof.
  intros (N & b1 & b & HN & Hb1 & Hb & ->)%kenken_model_stages.
  pose proof (make_vars_square (make_dom N)) as Hsq0.
  rewrite make_dom_length in Hsq0.
  destruct (cage_loop_spec (Z.to_nat N) (λ _, True) g
              ((make_vars (make_dom N)).1, (make_vars (make_dom N)).2, []) b1
              ltac:(done) Hsq0 I Hb1)
    as (Hsq1 & _ & _ & new & Hnew & Hall).
  destruct b1 as [[st1 vars1] cons1]. simpl in *.
  destruct (grid_loop_spec _ st1 vars1 cons1 Hsq1) as (lines & Hlines & _).
  rewrite Hlines in Hb. injection Hb as <-. simpl. subst cons1.
  exists new, lines. split; [done|].
  eapply Forall2_impl; [exact Hall|]. clear Hall.
  intros cage con (b0 & Hsq & _ & Hpre & Hcomp) cells val ->.
  destruct (compiled_later _ _ _ _ _ _ Hsq Hpre Hcomp) as [Hlt Hdom].
  destruct Hcomp as (val' & op & added & Hval & Hop & Hsc & Hadded & Hsat).
  destruct (cage_row_parts cells val 1) as (Hval' & Hop' & Htake).
  rewrite Hval' in Hval. rewrite Hop' in Hop. rewrite Htake in Hsc.
  injection Hval as <-. injection Hop as <-.
  assert (∀ t, t ∈ sat_tuples con ↔
               Forall2 (λ x v, x ∈ domain st1 v) t (scope con)
               ∧ ∃ p0 ps, p0 :: ps ≡ₚ t ∧ foldl Z.sub p0 ps = val) as Hiff.
  { intros t. rewrite Hsat.
    rewrite (elem_of_mapM_join _
      (λ t0 t', t' = t0 ∧ ∃ p0 ps, p0 :: ps ≡ₚ t0 ∧ foldl Z.sub p0 ps = val)
      _ _ Hadded) by (intros; by apply cage_check_sub).
    rewrite <- Hdom. split.
    - intros (t0 & Hin%elem_of_product & -> & Hord). split; [|done].
      by rewrite Forall2_fmap_r in Hin.
    - intros [Hin Hord]. exists t. split; [|done].
      apply elem_of_product. by rewrite Forall2_fmap_r. }
  split; [symmetry; by eapply length_mapM|]. split; [exact Hiff|]. split.
  - intros t Ht. split.
    + intros -> Hin. apply Hiff. split; [done|].
      exists 7, [3]. by split.
    + intros -> (_ & p0 & ps & Hp & Hval)%Hiff.
      rewrite Ht in Hp. apply two_orderings in Hp. lia.
  - intros -> Hlen Hdoms. apply length_mapM in Hsc.
    destruct (sat_tuples con) as [|t ts]; [done|].
    destruct (Hiff t) as [(Hin & p0 & ps & Hp & Hval) _]; [left|].
    destruct (scope con) as [|u [|w [|? ?]]]; simpl in Hsc; try lia.
    inversion Hin as [|a ? ? ? Ha Hin']; subst.
    inversion Hin' as [|c ? ? ? Hc Hin'']; subst.
    inversion Hin''; subst.
    inversion Hdoms as [|? ? Hu Hdoms']; subst.
    inversion Hdoms' as [|? ? Hw _]; subst.
    apply two_orderings in Hp.
    destruct (Hu a Ha), (Hw c Hc); lia.
Qed.

Lemma subtraction_cage_orderings_witness :
  kenken_csp_model seven_three = Some seven_three_model
  ∧ ∃ cage_cons grid_cons,
      cons seven_three_model.1 = cage_cons ++ grid_cons
      ∧ Forall2
          (λ cage con,
             ∀ cells val, cage = cells ++ [val; 1] →
               length (scope con) = length cells
               ∧ (∀ t, t ∈ sat_tuples con ↔
                       Forall2 (λ x v, x ∈ domain (store seven_three_model.1) v)
                               t (scope con)
                       ∧ ∃ p0 ps, p0 :: ps ≡ₚ t ∧ foldl Z.sub p0 ps = val)
               ∧ (∀ t, t ≡ₚ [7; 3] →
                       (val = 4 →
                        Forall2 (λ x v, x ∈ domain (store seven_three_model.1) v)
                                t (scope con) →
                        t ∈ sat_tuples con)
                       ∧ (val = 10 → t ∉ sat_tuples con))
               ∧ (val = 10 → length cells = 2%nat →
                  Forall (λ v, ∀ x, x ∈ domain (store seven_three_model.1) v →
                                    x = 7 ∨ x = 3)
                         (scope con) →
                  sat_tuples con = []))
          (cage_rows seven_three) cage_cons.
Proof.
  assert (kenken_csp_model seven_three = Some seven_three_model) as Hmodel
    by (vm_compute; reflexivity).
  split; [exact Hmodel|].
  exact (subtraction_cage_orderings seven_three seven_three_model Hmodel).
Defined.

(** ** Forced cells *)

(** Every satisfying tuple of a compiled cage is drawn from the domains
    of the cage's variables. *)
Lemma compiled_tuples_in_domains n (b0 : build) (st : list Var) cage con :
  square_board n b0.1.1 b0.1.2 → b0.1.1 `prefix_of` st →
  compiled b0.1.1 b0.1.2 cage con →
  ∀ t, t ∈ sat_tuples con →
       Forall2 (λ x v, x ∈ domain st v) t (scope con).
Proof.
  intros Hsq Hpre Hcomp t Ht.
  destruct (compiled_later _ _ _ _ _ _ Hsq Hpre Hcomp) as [_ Hdom].
  destruct Hcomp as (val & op & added & _ & _ & _ & Hadded%mapM_Some & Hsat).
  rewrite Hsat in Ht.
  apply list_elem_of_join in Ht as (l & Ht & [i Hi]%list_elem_of_lookup).
  destruct (Forall2_lookup_r _ _ _ _ _ Hadded Hi) as (t0 & Ht0 & Hcheck).
  apply (cage_check_elem _ _ _ _ Hcheck) in Ht as ->.
  apply list_elem_of_lookup_2, elem_of_product in Ht0.
  rewrite <- Hdom in Ht0. by rewrite Forall2_fmap_r in Ht0.
Qed.

(** The invariant of the constraint model holds for the compiled
    problem: every satisfying tuple lies, position by position, in the
    domains of the scope. *)
Lemma model_tuples_in_domains (g : list (list Z)) (r : CSP * board) :
  kenken_csp_model g = Some r →
  ∀ con t, con ∈ cons r.1 → t ∈ sat_tuples con →
           Forall2 (λ x v, x ∈ domain (store r.1) v) t (scope con).
Proof.
  intros (N & b1 & b & HN & Hb1 & Hb & ->)%kenken_model_stages.
  pose proof (make_vars_square (make_dom N)) as Hsq0.
  rewrite make_dom_length in Hsq0.
  destruct (cage_loop_spec (Z.to_nat N) (λ _, True) g
              ((make_vars (make_dom N)).1, (make_vars (make_dom N)).2, []) b1
              ltac:(done) Hsq0 I Hb1)
    as (Hsq1 & _ & _ & new & Hnew & Hall).
  destruct b1 as [[st1 vars1] cons1]. simpl in *.
  destruct (grid_loop_spec _ st1 vars1 cons1 Hsq1) as (lines & Hlines & Hl & _).
  rewrite Hlines in Hb. injection Hb as <-. simpl. subst cons1.
  intros con t [Hcon|Hcon]%elem_of_app Ht.
  - apply list_elem_of_lookup in Hcon as [i Hi].
    destruct (Forall2_lookup_r _ _ _ _ _ Hall Hi)
      as (cage & _ & b0 & Hsq & _ & Hpre & Hcomp).
    by eapply compiled_tuples_in_domains.
  - rewrite Forall_forall in Hl. destruct (Hl con Hcon) as [_ Hsat].
    rewrite Hsat in Ht.
    apply list_elem_of_filter in Ht as [_ Ht%elem_of_product].
    by rewrite Forall2_fmap_r in Ht.
Qed.

Lemma cage_step_forced (b : build) (c v : Z) :
  cage_step b [c; v] = force_cell b [c; v].
Proof. unfold cage_step. simpl. by destruct (force_cell b [c; v]). Qed.

Lemma board_at_insert (vars : board) (row : list var_id) (ki kj : nat)
    (x : var_id) (p : nat * nat) :
  vars !! ki = Some row → (kj < length row)%nat →
  board_at (<[ki := <[kj := x]> row]> vars) p
  = if decide (p = (ki, kj)) then Some x else board_at vars p.
Proof.
  intros Hrow Hkj. unfold board_at. destruct p as [i j]. simpl.
  pose proof (lookup_lt_Some _ _ _ Hrow) as Hki.
  destruct (decide (i = ki)) as [->|Hi].
  - rewrite list_lookup_insert_eq by done. simpl. rewrite Hrow. simpl.
    destruct (decide (j = kj)) as [->|Hj].
    + rewrite list_lookup_insert_eq by done. by rewrite decide_True.
    + rewrite list_lookup_insert_ne by done.
      rewrite decide_False; [done|]. by intros [= ?].
  - rewrite list_lookup_insert_ne by done.
    rewrite decide_False; [done|]. by intros [= ?].
Qed.

(** A row that does not force the cell at [p] leaves the board at [p] in
    place. *)
Lemma cage_step_keeps_cell n (p : nat * nat) (x : var_id) (b b1 : build)
    (cage : list Z) :
  ¬ forces n p cage →
  square_board n b.1.1 b.1.2 → board_at b.1.2 p = Some x →
  cage_step b cage = Some b1 → board_at b1.1.2 p = Some x.
Proof.
  intros Hnf Hsq Hx Hstep.
  destruct (cage_step_spec n _ _ _ Hstep Hsq)
    as (_ & _ & [(_ & con & -> & _)|(_ & _ & [->|[Hlen Hf]])]); try done.
  apply force_cell_spec in Hf
    as (val & c & ki & kj & row & _ & Hc & Hki & Hrow & Hkj & ->).
  simpl. pose proof Hsq as [Hl Hrows].
  destruct (Forall_lookup_1 _ _ _ _ Hrows Hrow) as [Hrl _].
  rewrite board_at_insert by (done || by eapply norm_index_lt).
  rewrite decide_False; [done|]. intros ->. apply Hnf.
  split; [done|]. exists c. split.
  - apply get_Some in Hc as (k & Hk & Hc). unfold Py.norm_index in Hk.
    rewrite bool_decide_true in Hk by lia. by injection Hk as <-.
  - unfold cell_pos.
    assert (Py.norm_index n (cell_of c).1 = Some ki) as ->
      by (by rewrite <- Hl).
    assert (Py.norm_index n (cell_of c).2 = Some kj) as ->
      by (by rewrite <- Hrl).
    done.
Qed.

(** C2 as stated fails when a cage row precedes the forced row of one of
    its cells: in [[3], [11, 12, 3, 0], [11, 1], [11, 21, 3, 0]] the
    constraint of the cage {11, 12} keeps the tuple (2, 1), built from the
    domain 1..3 of the variable that cell 11 held before it was forced. *)
Lemma forced_cell_after_cage_not_narrowed :
  kenken_csp_model forced_between = Some forced_between_model
  ∧ ¬ narrowed_in_every_cage forced_between forced_between_model.
Proof.
  split; [vm_compute; reflexivity|]. intros H.
  specialize (H 11 1 0%nat 0%nat [11; 12; 3; 0]
                (mkConstraint "Cage(V11,V12)" [0; 1]%nat [[1; 2]; [2; 1]])
                [2; 1]).
  assert ([2; 1] !! 0%nat = Some 1) as Hbad; [|discriminate Hbad].
  apply H.
  - do 2 right. left.
  - reflexivity.
  - vm_compute. reflexivity.
  - simpl. lia.
  - reflexivity.
  - right. left.
Qed.

(** C2, as the code has it: a forced row [[c; v]] puts at its cell a
    variable whose domain is exactly [[v]] and, unless a later row forces
    the same cell again, that variable is still there in the returned
    board. Every constraint that has it in scope was built from the
    narrowed domain: all its tuples carry [v] at that position. The cage
    rows that come after the forced row refer to the cell through this
    variable, and so do the all-different constraints of the cell's row
    and column, which are compiled after all the cages. *)
Theorem forced_cell_narrows_later_constraints (pre post : list (list Z))
    (c v N : Z) (p : nat * nat) (r : CSP * board) :
  kenken_csp_model (pre ++ [c; v] :: post) = Some r →
  grid_size (pre ++ [c; v] :: post) = Some N →
  cell_pos (Z.to_nat N) c = Some p →
  Forall (λ cage, ¬ forces (Z.to_nat N) p cage) post →
  ∃ x,
    board_at r.2 p = Some x
    ∧ domain (store r.1) x = [v]
    ∧ (∀ con k t, con ∈ cons r.1 → scope con !! k = Some x →
                  t ∈ sat_tuples con → t !! k = Some v)
    ∧ ∃ cons_pre cons_post lines,
        cons r.1 = cons_pre ++ cons_post ++ lines
        ∧ length cons_pre = length (cage_rows pre)
        ∧ Forall2 (λ cage con,
                     ∀ k e, (k < length cage - 2)%nat → cage !! k = Some e →
                            cell_pos (Z.to_nat N) e = Some p →
                            scope con !! k = Some x)
                  (cage_rows post) cons_post
        ∧ ∃ rowCon colCon,
            rowCon ∈ lines ∧ colCon ∈ lines
            ∧ scope rowCon !! p.2 = Some x ∧ scope colCon !! p.1 = Some x.
Proof.
  intros Hmodel HN Hp Hpost.
  pose proof (model_tuples_in_domains _ _ Hmodel) as Hdoms.
  apply kenken_model_stages in Hmodel as (N' & b1 & b & HN' & Hb1 & Hb & ->).
  rewrite HN in HN'. injection HN' as <-.
  pose proof (make_vars_square (make_dom N)) as Hsq0.
  rewrite make_dom_length in Hsq0.
  rewrite for_each_app in Hb1.
  apply bind_Some in Hb1 as (bp & Hpre & Hb1). cbn [for_each] in Hb1.
  apply bind_Some in Hb1 as (bf & Hforce & Hb1).
  (* the rows before the forced row *)
  destruct (cage_loop_spec (Z.to_nat N) (λ _, True) pre
              ((make_vars (make_dom N)).1, (make_vars (make_dom N)).2, []) bp
              ltac:(done) Hsq0 I Hpre)
    as (Hsqp & _ & _ & cons_pre & Hcp & Hallp).
  simpl in Hcp.
  (* the forced row *)
  pose proof (cage_step_spec _ _ _ _ Hforce Hsqp) as (Hsqf & _ & _).
  rewrite cage_step_forced in Hforce.
  apply force_cell_spec in Hforce
    as (v' & c' & ki & kj & row & Hv' & Hc' & Hki & Hrow & Hkj & ->).
  rewrite get_head in Hc'. injection Hc' as <-.
  change 1 with (Z.of_nat 1) in Hv'. rewrite get_nat in Hv' by (simpl; lia).
  injection Hv' as <-.
  destruct bp as [[stp varsp] consp]. cbn [fst snd] in *. subst consp.
  pose proof Hsqp as [Hlp Hrowsp].
  destruct (Forall_lookup_1 _ _ _ _ Hrowsp Hrow) as [Hrl _].
  assert (p = (ki, kj)) as ->.
  { unfold cell_pos in Hp. rewrite Hlp in Hki. rewrite Hrl in Hkj.
    rewrite Hki in Hp. cbn [mbind option_bind] in Hp. rewrite Hkj in Hp.
    by injection Hp as <-. }
  set (x := length stp) in *.
  set (stf := stp ++ [new_Variable (cell_name ((cell_of c).1 + 1)
                                              ((cell_of c).2 + 1)) [v]]) in *.
  (* the rows after the forced row keep the cell *)
  assert (board_at (<[ki:=<[kj:=x]> row]> varsp) (ki, kj) = Some x) as Hxf.
  { rewrite board_at_insert by (done || by eapply norm_index_lt).
    by rewrite decide_True. }
  destruct (cage_loop_spec (Z.to_nat N)
              (λ b : build, board_at b.1.2 (ki, kj) = Some x) post
              (stf, <[ki:=<[kj:=x]> row]> varsp, cons_pre) b1)
    as (Hsq1 & Hx1 & Hpre1 & cons_post & Hcpost & Hallpost); try done.
  { intros cage b0 b0' Hin Hsq Hx Hstep.
    rewrite Forall_forall in Hpost.
    by eapply (cage_step_keeps_cell _ _ _ _ _ _ (Hpost cage Hin)). }
  destruct b1 as [[st1 vars1] cons1]. cbn [fst snd] in *. subst cons1.
  (* the all-different constraints *)
  destruct (grid_loop_spec _ st1 vars1 (cons_pre ++ cons_post) Hsq1)
    as (lines & Hlines & _ & Hrc).
  rewrite Hlines in Hb. injection Hb as <-. cbn [fst snd] in *.
  simpl in Hdoms. exists x. split; [done|].
  assert (domain st1 x = [v]) as Hdx.
  { rewrite (domain_prefix stf) by (done || (subst stf x; rewrite length_app; simpl; lia)).
    unfold domain, stf, x. by rewrite list_lookup_middle. }
  split; [done|]. split.
  { intros con k t Hcon Hk Ht.
    pose proof (Hdoms con t Hcon Ht) as Hin.
    destruct (Forall2_lookup_r _ _ _ _ _ Hin Hk) as (y & Hy & Hyd).
    rewrite Hdx in Hyd. apply list_elem_of_singleton in Hyd. by subst. }
  exists cons_pre, cons_post, lines. split; [by rewrite app_assoc|].
  split; [symmetry; by eapply Forall2_length|]. split.
  - eapply Forall2_impl; [exact Hallpost|].
    intros cage con (b0 & Hsq & Hx & _ & Hcomp) k e Hk He Hpos.
    destruct Hcomp as (? & ? & ? & _ & _ & Hsc%mapM_Some & _).
    assert (take (length cage - 2) cage !! k = Some e) as Hke
      by (by rewrite lookup_take_lt).
    destruct (Forall2_lookup_l _ _ _ _ _ Hsc Hke) as (u & Hu & Hat).
    rewrite (at_cell_board_at _ _ _ _ Hsq), Hpos in Hat. simpl in Hat.
    rewrite Hx in Hat. by injection Hat as <-.
  - unfold board_at in Hx1. simpl in Hx1.
    destruct (vars1 !! ki) as [row1|] eqn:Hrow1; [|done]. simpl in Hx1.
    destruct (Hrc ki row1 Hrow1) as (rowCon & _ & Hr & _ & Hrs & _).
    destruct Hsq1 as [Hl1 Hrows1].
    destruct (Forall_lookup_1 _ _ _ _ Hrows1 Hrow1) as [Hrl1 _].
    pose proof (lookup_lt_Some _ _ _ Hx1) as Hkj1.
    destruct (lookup_lt_is_Some_2 vars1 kj) as [row2 Hrow2]; [lia|].
    destruct (Hrc kj row2 Hrow2) as (_ & colCon & _ & Hcin & _ & Hcs).
    exists rowCon, colCon. do 2 (split; [done|]). simpl.
    split; [by rewrite Hrs|].
    destruct (Forall2_lookup_l _ _ _ _ _ Hcs Hrow1) as (u & Hu & Hu').
    rewrite Hx1 in Hu'. by injection Hu' as <-.
Qed.

Lemma forced_cell_narrows_later_constraints_witness :
  kenken_csp_model ([[3]; [11; 12; 3; 0]] ++ [11; 1] :: [[11; 21; 3; 0]])
  = Some forced_between_model
  ∧ grid_size ([[3]; [11; 12; 3; 0]] ++ [11; 1] :: [[11; 21; 3; 0]]) = Some 3
  ∧ cell_pos (Z.to_nat 3) 11 = Some (0, 0)%nat
  ∧ Forall (λ cage, ¬ forces (Z.to_nat 3) (0, 0)%nat cage) [[11; 21; 3; 0]]
  ∧ ∃ x,
      board_at forced_between_model.2 (0, 0)%nat = Some x
      ∧ domain (store forced_between_model.1) x = [1]
      ∧ (∀ con k t, con ∈ cons forced_between_model.1 →
                    scope con !! k = Some x →
                    t ∈ sat_tuples con → t !! k = Some 1)
      ∧ ∃ cons_pre cons_post lines,
          cons forced_between_model.1 = cons_pre ++ cons_post ++ lines
          ∧ length cons_pre = length (cage_rows [[3]; [11; 12; 3; 0]])
          ∧ Forall2 (λ cage con,
                       ∀ k e, (k < length cage - 2)%nat →
                              cage !! k = Some e →
                              cell_pos (Z.to_nat 3) e = Some (0, 0)%nat →
                              scope con !! k = Some x)
                    (cage_rows [[11; 21; 3; 0]]) cons_post
          ∧ ∃ rowCon colCon,
              rowCon ∈ lines ∧ colCon ∈ lines
              ∧ scope rowCon !! (0, 0)%nat.2 = Some x
              ∧ scope colCon !! (0, 0)%nat.1 = Some x.
Proof.
  assert (Forall (λ cage, ¬ forces (Z.to_nat 3) (0, 0)%nat cage)
                 [[11; 21; 3; 0]]) as Hpost.
  { constructor; [|constructor]. intros [Hlen _]. simpl in Hlen. lia. }
  assert (kenken_csp_model
            ([[3]; [11; 12; 3; 0]] ++ [11; 1] :: [[11; 21; 3; 0]])
          = Some forced_between_model) as Hmodel
    by (vm_compute; reflexivity).
  assert (grid_size ([[3]; [11; 12; 3; 0]] ++ [11; 1] :: [[11; 21; 3; 0]])
          = Some 3) as Hsize by (vm_compute; reflexivity).
  assert (cell_pos (Z.to_nat 3) 11 = Some (0, 0)%nat) as Hcell
    by (vm_compute; reflexivity).
  do 3 (split; [assumption|]). split; [exact Hpost|].
  exact (forced_cell_narrows_later_constraints
           [[3]; [11; 12; 3; 0]] [[11; 21; 3; 0]] 11 1 3 (0, 0)%nat
           forced_between_model Hmodel Hsize Hcell Hpost).
Defined.

(** ** Division cages *)

(** C3, the code at a failing input: in the 2x2 puzzle whose first row is
    forced to 2^53 + 1 and 1, the division cage {11, 12} of target 2^53
    keeps the tuple (2^53 + 1, 1), the only tuple of the product of the
    domains of its variables, although neither ordering of its values
    divides out to the target exactly: the quotient (2^53 + 1) / 1 is
    rounded to the float 2^53 before it is compared. *)
Theorem division_cage_rounds :
  ∃ r con,
    kenken_csp_model rounded_division = Some r
    ∧ cons r.1 !! 0%nat = Some con
    ∧ Py.product (domain (store r.1) <$> scope con) = [[2 ^ 53 + 1; 1]]
    ∧ sat_tuples con = [[2 ^ 53 + 1; 1]]
    ∧ ¬ ∃ p0 ps, p0 :: ps ≡ₚ [2 ^ 53 + 1; 1] ∧ divides_to p0 ps (2 ^ 53).
Proof.
  eexists _, _. split; [vm_compute; reflexivity|].
  split; [vm_compute; reflexivity|].
  split; [vm_compute; reflexivity|].
  split; [vm_compute; reflexivity|].
  intros (p0 & ps & Hp & _ & Hprod). symmetry in Hp.
  apply Permutation_length_2_inv in Hp as [[= -> ->]|[= -> ->]];
    vm_compute in Hprod; discriminate Hprod.
Qed.

(** ** The code on small inputs *)

Example product_order :
  Py.product [[1; 2]; [3; 4]] = [[1; 3]; [1; 4]; [2; 3]; [2; 4]].
Proof. reflexivity. Qed.

Example combinations2_order :
  Py.combinations2 [1; 2; 3] = [(1, 2); (1, 3); (2, 3)].
Proof. reflexivity. Qed.

Example permutations_order :
  Py.permutations [1; 2; 3]
  = [[1; 2; 3]; [1; 3; 2]; [2; 1; 3]; [2; 3; 1]; [3; 1; 2]; [3; 2; 1]].
Proof. reflexivity. Qed.

Example sorted_is_stable :
  Py.sorted snd [(1, 2); (2, 0); (3, 2); (4, 0)]%nat
  = [(2, 0); (4, 0); (1, 2); (3, 2)]%nat.
Proof. reflexivity. Qed.

Example negative_index : Py.get [10; 20; 30] (-1) = Some 30.
Proof. reflexivity. Qed.

Example addition_cage : cage_check 0 5 [2; 3] = Some [[2; 3]].
Proof. reflexivity. Qed.

Example subtraction_cage_twice :
  cage_check 1 0 [1; 1] = Some [[1; 1]; [1; 1]].
Proof. reflexivity. Qed.

Example division_cage : cage_check 2 2 [3; 6] = Some [[3; 6]].
Proof. vm_compute. reflexivity. Qed.

Example division_by_zero : cage_check 2 2 [3; 0] = None.
Proof. vm_compute. reflexivity. Qed.

Example multiplication_cage : cage_check 3 6 [1; 2; 3] = Some [[1; 2; 3]].
Proof. reflexivity. Qed.

Example unknown_operator : cage_check 7 6 [1; 2; 3] = Some [].
Proof. reflexivity. Qed.

Example forced_cell_board :
  snd <$> kenken_csp_model [[2]; [12; 2]] = Some [[0; 4]; [2; 3]]%nat.
Proof. vm_compute. reflexivity. Qed.

Example cell_out_of_range : kenken_csp_model [[2]; [13; 2]] = None.
Proof. vm_compute. reflexivity. Qed.

Example degree_heuristic_first :
  ord_dh two_cages = Some 0%nat ∧ ord_mrv two_cages = Some 0%nat.
Proof. split; vm_compute; reflexivity. Qed.

Example least_constraining_order :
  (val_lcv two_cages 0%nat).2 = [1; 2; 3].
Proof. vm_compute. reflexivity. Qed.

(** * Further properties of the code *)

(** ** The scan of [ord_dh] *)

Lemma length_remove_dups_cons (u : nat) (L : list nat) :
  length (remove_dups (u :: L))
  = S (length (remove_dups (filter (λ w, w ≠ u) L))).
Proof.
  assert (∀ L : list nat,
    length (remove_dups L)
    = (length (remove_dups (filter (λ w, w ≠ u) L))
       + if decide (u ∈ L) then 1 else 0)%nat) as Hsplit.
  { clear L. induction L as [|w L IH]; [done|].
    rewrite filter_cons. cbn [remove_dups].
    destruct (decide (w = u)) as [->|Hw].
    - rewrite decide_False by (by intros ?).
      rewrite (decide_True (P := u ∈ u :: L)) by left.
      destruct (decide_rel elem_of u L) as [Hin|Hnin].
      + rewrite IH. by rewrite decide_True.
      + cbn [length]. rewrite IH. rewrite decide_False by done. lia.
    - rewrite decide_True by done. cbn [remove_dups].
      assert (w ∈ filter (λ w0, w0 ≠ u) L ↔ w ∈ L) as Hiff.
      { rewrite list_elem_of_filter. tauto. }
      destruct (decide_rel elem_of w L) as [Hin|Hnin];
        destruct (decide_rel elem_of w (filter (λ w0, w0 ≠ u) L))
          as [Hin'|Hnin']; try (exfalso; tauto).
      + rewrite IH.
        destruct (decide (u ∈ L)) as [HuL|HuL].
        * by rewrite decide_True by (by right).
        * rewrite decide_False; [done|].
          intros [?|?]%elem_of_cons; [by subst|done].
      + cbn [length]. rewrite IH.
        destruct (decide (u ∈ L)) as [HuL|HuL].
        * rewrite decide_True by (by right). lia.
        * rewrite decide_False; [lia|].
          intros [?|?]%elem_of_cons; [by subst|done]. }
  cbn [remove_dups]. destruct (decide_rel elem_of u L) as [Hin|Hnin].
  - rewrite Hsplit. rewrite decide_True by done. lia.
  - cbn [length]. rewrite Hsplit. rewrite decide_False by done. lia.
Qed.

Lemma scan_unasgn_count (v : var_id) (l : list var_id) (deg : Z) :
  scan_unasgn v l deg
  = deg + Z.of_nat (length (remove_dups (filter (λ u, u ≠ v) l))).
Proof.
  unfold scan_unasgn.
  enough (∀ seen : list nat,
    (foldl (λ (acc : list var_id * Z) unasgnV,
              if bool_decide (unasgnV ≠ v) && bool_decide (unasgnV ∉ acc.1)
              then (acc.1 ++ [unasgnV], acc.2 + 1)
              else acc)
           (seen, deg) l).2
    = deg + Z.of_nat (length (remove_dups
                                (filter (λ u, u ≠ v ∧ u ∉ seen) l)))) as H.
  { rewrite H.
    assert (filter (λ u, u ≠ v ∧ u ∉ []) l = filter (λ u, u ≠ v) l) as ->;
      [|done].
    apply list_filter_iff. intros u.
    split; [by intros [? _]|]. intros ?. split; [done|].
    by intros ?%elem_of_nil. }
  revert deg. induction l as [|u l IH]; intros deg seen.
  { simpl. lia. }
  cbn [foldl fst snd]. rewrite filter_cons.
  destruct (decide (u ≠ v ∧ u ∉ seen)) as [[Hu Hs]|Hno].
  - rewrite !bool_decide_true by done. cbn [andb].
    rewrite IH, length_remove_dups_cons, list_filter_filter.
    assert (filter (λ u0, u0 ≠ v ∧ u0 ∉ seen ++ [u]) l
            = filter (λ x, x ≠ u ∧ x ≠ v ∧ x ∉ seen) l) as ->; [|lia].
    apply list_filter_iff. intros w.
    rewrite elem_of_app, list_elem_of_singleton. tauto.
  - assert (bool_decide (u ≠ v) && bool_decide (u ∉ seen) = false) as ->.
    { apply andb_false_iff. rewrite !bool_decide_eq_false.
      destruct (decide (u ≠ v)); [right|left]; tauto. }
    apply IH.
Qed.

Lemma curDegree_count (csp : CSP) (v : var_id) :
  curDegree csp v = Z.of_nat (per_constraint_degree csp v).
Proof.
  unfold curDegree, per_constraint_degree.
  enough (∀ (l : list Constraint) (deg : Z),
    foldl (λ deg c, scan_unasgn v (get_unasgn_vars (store csp) c) deg) deg l
    = deg + Z.of_nat (sum_list
        ((λ c, length (remove_dups
                         (filter (λ u, u ≠ v)
                                 (get_unasgn_vars (store csp) c)))) <$> l)))
    as H by (by rewrite H, Z.add_0_l).
  induction l as [|c l IH]; intros deg.
  { simpl. lia. }
  cbn [foldl]. rewrite IH, scan_unasgn_count, fmap_cons.
  cbn [sum_list_with]. unfold id. lia.
Qed.

Lemma length_remove_dups_app (l1 l2 : list nat) :
  (length (remove_dups (l1 ++ l2))
   ≤ length (remove_dups l1) + length (remove_dups l2))%nat.
Proof.
  rewrite <- length_app. apply submseteq_length, NoDup_submseteq.
  - apply NoDup_remove_dups.
  - intros x. rewrite elem_of_remove_dups, !elem_of_app, !elem_of_remove_dups.
    done.
Qed.

(** A strictly-greater scan from -1 keeps the first of the largest keys. *)
Lemma first_max_fold {X} (key : X → Z) (l : list X) :
  (∀ x, 0 ≤ key x) → l ≠ [] →
  ∃ pre v post,
    l = pre ++ v :: post
    ∧ foldl (λ (acc : Z * option X) v,
               let cur := key v in
               if bool_decide (cur > acc.1) then (cur, Some v) else acc)
            (-1, None) l
      = (key v, Some v)
    ∧ (∀ u, u ∈ pre → key u < key v)
    ∧ (∀ u, u ∈ post → key u ≤ key v).
Proof.
  intros Hkey. induction l as [|x l IH] using rev_ind; [done|]. intros _.
  rewrite foldl_snoc. destruct (decide (l = [])) as [->|Hne].
  { exists [], x, []. cbn [foldl fst app].
    rewrite bool_decide_true by (specialize (Hkey x); lia).
    repeat split; by intros ? ?%elem_of_nil. }
  destruct (IH Hne) as (pre & v & post & -> & -> & Hpre & Hpost).
  cbn [fst]. case_bool_decide as Hgt.
  - exists (pre ++ v :: post), x, []. repeat split.
    + intros u [Hu|[->|Hu]%elem_of_cons]%elem_of_app.
      * specialize (Hpre u Hu). lia.
      * lia.
      * specialize (Hpost u Hu). lia.
    + by intros ? ?%elem_of_nil.
  - exists pre, v, (post ++ [x]). repeat split.
    + by rewrite <- app_assoc.
    + done.
    + intros u [Hu| ->%list_elem_of_singleton]%elem_of_app; [auto|lia].
Qed.

(** X1: the count [ord_dh] compares is, for every candidate, the sum over
    the constraints touching it of the number of distinct other unassigned
    variables of that constraint; it is never below the number of distinct
    unassigned neighbours over all constraints. *)
Theorem ord_dh_scan_counts (csp : CSP) (v : var_id) :
  curDegree csp v = Z.of_nat (per_constraint_degree csp v)
  ∧ (degree csp v ≤ per_constraint_degree csp v)%nat.
Proof.
  split; [apply curDegree_count|].
  unfold degree, per_constraint_degree.
  induction (get_cons_with_var csp v) as [|c l IH]; [done|].
  rewrite bind_cons, fmap_cons. cbn [sum_list_with]. unfold id in *.
  etrans; [apply length_remove_dups_app|]. lia.
Qed.

(** X2: when some variable is unassigned, [ord_dh] returns the first
    variable, in the order of [get_all_unasgn_vars], whose count is
    largest: every unassigned variable before it has a strictly smaller
    count, every one after it a count at most as large. *)
Theorem ord_dh_first_largest (csp : CSP) :
  get_all_unasgn_vars csp ≠ [] →
  ∃ pre v post,
    get_all_unasgn_vars csp = pre ++ v :: post
    ∧ ord_dh csp = Some v
    ∧ (∀ u, u ∈ pre →
         (per_constraint_degree csp u < per_constraint_degree csp v)%nat)
    ∧ (∀ u, u ∈ post →
         (per_constraint_degree csp u ≤ per_constraint_degree csp v)%nat).
Proof.
  intros Hne.
  destruct (first_max_fold (curDegree csp) _ (curDegree_nonneg csp) Hne)
    as (pre & v & post & Hl & Hf & Hpre & Hpost).
  exists pre, v, post. split; [done|].
  split; [exact (f_equal snd Hf)|]. split.
  - intros u Hu. specialize (Hpre u Hu). rewrite !curDegree_count in Hpre. lia.
  - intros u Hu. specialize (Hpost u Hu). rewrite !curDegree_count in Hpost.
    lia.
Qed.

Lemma ord_dh_first_largest_witness :
  get_all_unasgn_vars two_cages_assigned ≠ []
  ∧ ∃ pre v post,
      get_all_unasgn_vars two_cages_assigned = pre ++ v :: post
      ∧ ord_dh two_cages_assigned = Some v
      ∧ (∀ u, u ∈ pre →
           (per_constraint_degree two_cages_assigned u
            < per_constraint_degree two_cages_assigned v)%nat)
      ∧ (∀ u, u ∈ post →
           (per_constraint_degree two_cages_assigned u
            ≤ per_constraint_degree two_cages_assigned v)%nat).
Proof.
  assert (get_all_unasgn_vars two_cages_assigned ≠ []) as Hne.
  { vm_compute. discriminate. }
  split; [exact Hne|].
  exact (ord_dh_first_largest two_cages_assigned Hne).
Defined.

(** ** The effect and the ties of [val_lcv] *)

Lemma filter_all {A} (P : A → Prop) `{!∀ x, Decision (P x)} (l : list A) :
  Forall P l → filter P l = l.
Proof.
  induction 1 as [|x l Hx _ IH]; [done|].
  by rewrite filter_cons_True, IH.
Qed.

Lemma sorted_constant_key {A} (key : A → nat) (l : list A) :
  (∀ x y, x ∈ l → y ∈ l → key x = key y) → Py.sorted key l = l.
Proof.
  intros Hkey. destruct l as [|x l]; [done|].
  set (l0 := x :: l) in *.
  rewrite <- (filter_all (λ a, key a = key x) (Py.sorted key l0)).
  - rewrite sorted_filter_key. apply filter_all.
    apply Forall_forall. intros y Hy. apply Hkey; [done|left].
  - apply Forall_forall. intros y Hy. rewrite sorted_Permutation in Hy.
    apply Hkey; [done|left].
Qed.

(** X3: whatever the state of [var], [val_lcv] leaves the problem as it
    was except that [var] ends unassigned (when its current domain is not
    empty): names, domains and current domains of all variables, the
    variables other than [var], and the lists of variables and constraints
    are untouched. *)
Theorem val_lcv_only_clears_var (csp : CSP) (var : var_id) :
  csp_name (val_lcv csp var).1 = csp_name csp
  ∧ vars (val_lcv csp var).1 = vars csp
  ∧ cons (val_lcv csp var).1 = cons csp
  ∧ length (store (val_lcv csp var).1) = length (store csp)
  ∧ (∀ u, u ≠ var → store (val_lcv csp var).1 !! u = store csp !! u)
  ∧ (∀ u, name <$> store (val_lcv csp var).1 !! u = name <$> store csp !! u
          ∧ domain (store (val_lcv csp var).1) u = domain (store csp) u
          ∧ cur_domain (store (val_lcv csp var).1) u
            = cur_domain (store csp) u)
  ∧ match cur_domain (store csp) var with
    | [] => (val_lcv csp var).1 = csp
    | _ :: _ => is_assigned (store (val_lcv csp var).1) var = false
    end.
Proof.
  rewrite val_lcv_state.
  destruct (cur_domain (store csp) var) as [|d ds] eqn:Hd;
    [by repeat split|].
  unfold cleared, unassign. simpl.
  do 3 (split; [done|]). split; [apply length_alter|].
  split; [intros u Hu; by apply list_lookup_alter_ne|]. split.
  - intros u. unfold domain, cur_domain.
    destruct (decide (var = u)) as [->|Hne].
    + rewrite list_lookup_alter_eq. by destruct (store csp !! u).
    + by rewrite list_lookup_alter_ne.
  - unfold is_assigned. rewrite list_lookup_alter_eq.
    by destruct (store csp !! var).
Qed.

(** X4: values whose pruning counts are all equal come back from
    [val_lcv] in the order of the current domain. *)
Theorem val_lcv_ties_keep_order (csp : CSP) (var : var_id) :
  (∀ d d', d ∈ cur_domain (store csp) var →
           d' ∈ cur_domain (store csp) var →
           pruning_count csp var d = pruning_count csp var d') →
  (val_lcv csp var).2 = cur_domain (store csp) var.
Proof.
  intros Hties. rewrite val_lcv_sorted. by apply sorted_constant_key.
Qed.

Lemma val_lcv_ties_keep_order_witness :
  (∀ d d', d ∈ cur_domain (store lone_variable) 0%nat →
           d' ∈ cur_domain (store lone_variable) 0%nat →
           pruning_count lone_variable 0%nat d
           = pruning_count lone_variable 0%nat d')
  ∧ (val_lcv lone_variable 0%nat).2 = cur_domain (store lone_variable) 0%nat.
Proof.
  assert (∀ d d', d ∈ cur_domain (store lone_variable) 0%nat →
                  d' ∈ cur_domain (store lone_variable) 0%nat →
                  pruning_count lone_variable 0%nat d
                  = pruning_count lone_variable 0%nat d') as Hties.
  { intros d d' _ _. reflexivity. }
  split; [exact Hties|].
  exact (val_lcv_ties_keep_order lone_variable 0%nat Hties).
Defined.

(** ** The layout of the compiled model *)

Lemma cage_step_cases (b b1 : build) (cage : list Z) :
  cage_step b cage = Some b1 →
  length cage = 2%nat ∧ force_cell b cage = Some b1
  ∨ (2 < length cage)%nat ∧ compile_cage b cage = Some b1
  ∨ length cage ≠ 2%nat ∧ ¬ (2 < length cage)%nat ∧ b1 = b.
Proof.
  unfold cage_step. intros H.
  destruct (decide (length cage = 1%nat)) as [H1|H1].
  { rewrite (bool_decide_true (length cage = 1%nat)) in H by done.
    injection H as <-. right. right. repeat split; lia. }
  rewrite (bool_decide_false (length cage = 1%nat)) in H by done.
  destruct (decide (length cage = 2%nat)) as [H2|H2].
  - rewrite (bool_decide_true (length cage = 2%nat)) in H by done.
    apply bind_Some in H as (b' & Hf & H).
    rewrite (bool_decide_false (2 < length cage)%nat) in H by lia.
    injection H as <-. by left.
  - rewrite (bool_decide_false (length cage = 2%nat)) in H by done.
    simpl in H. right.
    destruct (decide (2 < length cage)%nat) as [H3|H3].
    + rewrite (bool_decide_true (2 < length cage)%nat) in H by done.
      by left.
    + rewrite (bool_decide_false (2 < length cage)%nat) in H by done.
      injection H as <-. by right.
Qed.

(** Every forced row adds one object to the store; nothing else does. *)
Lemma cage_loop_store_length (g : list (list Z)) (b b' : build) :
  for_each cage_step b g = Some b' →
  length b'.1.1 = (length b.1.1 + length (forced_rows g))%nat.
Proof.
  revert b. induction g as [|cage g IH]; intros b Hloop.
  { injection Hloop as <-. simpl. lia. }
  simpl in Hloop. apply bind_Some in Hloop as (b1 & Hstep & Hloop).
  rewrite (IH _ Hloop). unfold forced_rows. rewrite filter_cons.
  destruct (cage_step_cases _ _ _ Hstep)
    as [[Hlen Hf]|[[Hlen Hc]|(Hlen & _ & ->)]].
  - apply force_cell_spec in Hf as (? & ? & ? & ? & ? & _ & _ & _ & _ & _ & ->).
    rewrite decide_True by done. simpl. rewrite length_app. simpl. lia.
  - apply compile_cage_spec in Hc as (con & -> & _).
    rewrite decide_False by lia. done.
  - by rewrite decide_False.
Qed.

Lemma insert_Permutation {A} (l : list A) (i : nat) (y : A) :
  l !! i = Some y →
  ∃ R, l ≡ₚ y :: R ∧ ∀ x, <[i:=x]> l ≡ₚ x :: R.
Proof.
  intros Hi. exists (take i l ++ drop (S i) l). split.
  - rewrite <- (take_drop_middle l i y Hi) at 1.
    by rewrite Permutation_middle.
  - intros x. rewrite insert_take_drop by (by eapply lookup_lt_Some).
    by rewrite Permutation_middle.
Qed.

(** Forcing a cell puts a new object on the board: no two cells share a
    variable afterwards if none did before. *)
Lemma force_cell_distinct n (b b' : build) (cage : list Z) :
  square_board n b.1.1 b.1.2 → NoDup (mjoin b.1.2) →
  force_cell b cage = Some b' → NoDup (mjoin b'.1.2).
Proof.
  intros [_ Hrows] Hnd
    (val & c & ki & kj & row & _ & _ & _ & Hrow & Hkj & ->)%force_cell_spec.
  simpl. apply norm_index_lt in Hkj.
  destruct (lookup_lt_is_Some_2 row kj Hkj) as [y Hy].
  destruct (insert_Permutation _ _ _ Hrow) as (R & HR & HRx).
  destruct (insert_Permutation _ _ _ Hy) as (R' & HR' & HRx').
  rewrite (HRx (<[kj:=length b.1.1]> row)). simpl.
  rewrite (HRx' (length b.1.1)). simpl.
  rewrite HR in Hnd. simpl in Hnd. rewrite HR' in Hnd. simpl in Hnd.
  apply NoDup_cons in Hnd as [_ Hnd]. apply NoDup_cons. split; [|done].
  intros Hin.
  assert (length b.1.1 ∈ mjoin b.1.2) as Hin'.
  { rewrite HR. simpl. rewrite HR'. by right. }
  apply list_elem_of_join in Hin' as (r & Hr & Hrin).
  rewrite Forall_forall in Hrows. destruct (Hrows r Hrin) as [_ Hids].
  rewrite Forall_forall in Hids. specialize (Hids _ Hr). lia.
Qed.

Lemma mjoin_board_seq (n k : nat) :
  mjoin ((λ r, seq (r * n) n) <$> seq 0 k) = seq 0 (k * n).
Proof.
  induction k as [|k IH]; [done|].
  rewrite seq_S, fmap_app, join_app, IH. simpl.
  rewrite app_nil_r. replace (n + k * n)%nat with (k * n + n)%nat by lia.
  by rewrite seq_app.
Qed.

Lemma make_vars_distinct (d : list Z) : NoDup (mjoin (make_vars d).2).
Proof.
  destruct (make_vars_spec d) as (_ & _ & ->).
  rewrite mjoin_board_seq. apply NoDup_seq.
Qed.

(** The grid loop, index by index. *)
Lemma grid_loop_lines n (st : list Var) (vars : board)
    (cons0 : list Constraint) :
  square_board n st vars →
  ∃ ys,
    for_each (grid_step (Z.of_nat n)) (st, vars, cons0)
             (Py.range (Z.of_nat n))
    = Some (st, vars, cons0 ++ mjoin ys)
    ∧ Forall2 (line_pair st vars) (seq 0 n) ys.
Proof.
  intros Hsq. rewrite grid_loop_collect, range_nat.
  set (f := λ index,
    rowCon ← helper_nary_ad_constraint st index (Z.of_nat n) vars true;
    colCon ← helper_nary_ad_constraint st index (Z.of_nat n) vars false;
    Some [rowCon; colCon]).
  assert (∀ k, (k < n)%nat →
               ∃ y, f (Z.of_nat k) = Some y ∧ line_pair st vars k y) as Hf.
  { intros k Hk. pose proof Hsq as [Hlen _].
    destruct (lookup_lt_is_Some_2 vars k) as [row Hrow]; [lia|].
    pose proof (line_row n st vars k row Hsq Hrow) as Hr.
    destruct (line_column n st vars k Hsq Hk) as (col & Hc & Hcol).
    destruct (helper_nary_spec st _ _ _ _ _ Hr) as (rc & Hrc & Hrs & Hrt).
    destruct (helper_nary_spec st _ _ _ _ _ Hc) as (cc & Hcc & Hcs & Hct).
    exists [rc; cc]. unfold f. rewrite Hrc, Hcc. split; [done|].
    by exists row, col, rc, cc. }
  destruct (mapM_is_Some_2 f (Z.of_nat <$> seq 0 n)) as [ys Hys].
  { apply Forall_fmap, Forall_forall. intros k Hk%elem_of_seq. simpl.
    destruct (Hf k) as (y & -> & _); [lia|]. eauto. }
  rewrite Hys. simpl. exists ys. split; [done|].
  apply mapM_Some, Forall2_fmap_l in Hys.
  apply Forall2_same_length_lookup_2; [by eapply Forall2_length|].
  intros i k y [-> Hi]%lookup_seq Hy. simpl.
  destruct (Forall2_lookup_r _ _ _ _ _ Hys Hy) as (k' & [-> _]%lookup_seq & Hfk).
  destruct (Hf i) as (y' & Hfk' & Hline); [lia|].
  simpl in Hfk. rewrite Hfk' in Hfk. by injection Hfk as <-.
Qed.

Lemma compiled_cage_constraint n (b0 : build) (st : list Var) cage con :
  square_board n b0.1.1 b0.1.2 → b0.1.1 `prefix_of` st →
  compiled b0.1.1 b0.1.2 cage con → cage_constraint st cage con.
Proof.
  intros Hsq Hpre Hcomp.
  destruct (compiled_later _ _ _ _ _ _ Hsq Hpre Hcomp) as [Hlt Hdom].
  destruct Hcomp as (val & op & added & Hval & Hop & Hsc & Hadded & Hsat).
  exists val, op, added. do 2 (split; [done|]). split.
  { apply length_mapM in Hsc. rewrite <- Hsc, length_take. lia. }
  split.
  { eapply Forall_impl; [exact Hlt|]. intros v Hv.
    apply prefix_length in Hpre. simpl in *. lia. }
  by rewrite Hdom.
Qed.

(** The model of a description, laid out: the board is square and its
    cells hold pairwise different variables; the store has one object per
    cell and one per forced row; the constraints are those of the cage
    rows, in order, then a row and a column constraint per index. *)
Lemma kenken_model_layout (g : list (list Z)) (r : CSP * board) :
  kenken_csp_model g = Some r →
  ∃ N cage_cons ys,
    grid_size g = Some N
    ∧ square_board (Z.to_nat N) (store r.1) r.2
    ∧ NoDup (mjoin r.2)
    ∧ length (store r.1)
      = (Z.to_nat N * Z.to_nat N + length (forced_rows g))%nat
    ∧ vars r.1 = mjoin r.2
    ∧ cons r.1 = cage_cons ++ mjoin ys
    ∧ Forall2 (cage_constraint (store r.1)) (cage_rows g) cage_cons
    ∧ Forall2 (line_pair (store r.1) r.2) (seq 0 (Z.to_nat N)) ys.
Proof.
  intros (N & b1 & b & HN & Hb1 & Hb & ->)%kenken_model_stages.
  pose proof (make_vars_square (make_dom N)) as Hsq0.
  pose proof (make_vars_spec (make_dom N)) as (Hlen0 & _ & _).
  rewrite make_dom_length in Hsq0, Hlen0.
  pose proof (cage_loop_store_length _ _ _ Hb1) as Hlen. simpl in Hlen.
  destruct (cage_loop_spec (Z.to_nat N) (λ b : build, NoDup (mjoin b.1.2)) g
              ((make_vars (make_dom N)).1, (make_vars (make_dom N)).2, []) b1)
    as (Hsq1 & Hnd & _ & new & Hnew & Hall); try done.
  { intros cage b0 b0' _ Hsq Hnd0 Hstep.
    destruct (cage_step_cases _ _ _ Hstep)
      as [[_ Hf]|[[_ Hc]|(_ & _ & ->)]]; [|by apply compile_cage_spec in Hc as (? & -> & _)|done].
    by eapply force_cell_distinct. }
  { apply make_vars_distinct. }
  destruct b1 as [[st1 vars1] cons1]. simpl in *. subst cons1.
  destruct (grid_loop_lines _ st1 vars1 new Hsq1) as (ys & Hlines & Hys).
  rewrite Hlines in Hb. injection Hb as <-. simpl.
  exists N, new, ys. do 3 (split; [done|]). split; [lia|].
  do 2 (split; [done|]). split; [|done].
  eapply Forall2_impl; [exact Hall|].
  intros cage con (b0 & Hsq & _ & Hpre & Hcomp).
  by eapply compiled_cage_constraint.
Qed.

Lemma all_different_elem (st : list Var) (vs : list var_id)
    (con : Constraint) :
  all_different_over st vs con →
  ∀ t, t ∈ sat_tuples con ↔
       Forall2 (λ x v, x ∈ domain st v) t vs ∧ NoDup t.
Proof.
  intros [_ Hsat] t.
  rewrite Hsat, list_elem_of_filter, length_remove_dups_NoDup.
  rewrite elem_of_product, Forall2_fmap_r. tauto.
Qed.

Lemma cage_constraint_tuples (st : list Var) cage con (t : list Z) :
  cage_constraint st cage con → t ∈ sat_tuples con →
  Forall2 (λ x v, x ∈ domain st v) t (scope con).
Proof.
  intros (val & op & added & _ & _ & _ & _ & Hadded%mapM_Some & Hsat) Ht.
  rewrite Hsat in Ht.
  apply list_elem_of_join in Ht as (l & Ht & [i Hi]%list_elem_of_lookup).
  destruct (Forall2_lookup_r _ _ _ _ _ Hadded Hi) as (t0 & Ht0 & Hcheck).
  apply (cage_check_elem _ _ _ _ Hcheck) in Ht as ->.
  apply list_elem_of_lookup_2, elem_of_product in Ht0.
  by rewrite Forall2_fmap_r in Ht0.
Qed.

Lemma length_mjoin_same {A} (m : nat) (ls : list (list A)) :
  Forall (λ l, length l = m) ls → length (mjoin ls) = (length ls * m)%nat.
Proof.
  induction 1 as [|l ls Hl _ IH]; [done|].
  simpl. rewrite length_app, IH, Hl. lia.
Qed.

Lemma line_pair_length st (vars : board) ks ys :
  Forall2 (line_pair st vars) ks ys → Forall (λ y, length y = 2%nat) ys.
Proof.
  intros H. eapply Forall2_Forall_r; [exact H|]. apply Forall_true.
  by intros k y (? & ? & ? & ? & _ & _ & -> & _).
Qed.

Lemma column_in_board (vars : board) (k : nat) (col : list var_id) :
  Forall2 (λ (r : list var_id) v, r !! k = Some v) vars col →
  Forall (λ v, v ∈ mjoin vars) col.
Proof.
  intros H. apply Forall_forall. intros v [i Hi]%list_elem_of_lookup.
  destruct (Forall2_lookup_r _ _ _ _ _ H Hi) as (row & Hrow & Hv).
  apply list_elem_of_join. exists row.
  split; by eapply list_elem_of_lookup_2.
Qed.

Lemma square_board_valid n st (vars : board) :
  square_board n st vars → Forall (λ v, v < length st)%nat (mjoin vars).
Proof.
  intros [_ Hrows]. apply Forall_mjoin.
  eapply Forall_impl; [exact Hrows|]. by intros row [_ ?].
Qed.

(** X5: the shape of a compiled model. The board is N by N and the
    problem's variables are its cells, row by row, pairwise different
    objects of the store; the store holds one object per cell and one more
    per forced row; there is one constraint per cage row and two per
    index. *)
Theorem kenken_model_shape (g : list (list Z)) (r : CSP * board) (N : Z) :
  kenken_csp_model g = Some r → grid_size g = Some N →
  csp_name r.1 = pretty N +:+ "-Kenken"
  ∧ length r.2 = Z.to_nat N
  ∧ Forall (λ row, length row = Z.to_nat N) r.2
  ∧ vars r.1 = mjoin r.2
  ∧ NoDup (vars r.1)
  ∧ length (vars r.1) = (Z.to_nat N * Z.to_nat N)%nat
  ∧ Forall (λ v, v < length (store r.1))%nat (vars r.1)
  ∧ length (store r.1)
    = (Z.to_nat N * Z.to_nat N + length (forced_rows g))%nat
  ∧ length (cons r.1) = (length (cage_rows g) + 2 * Z.to_nat N)%nat.
Proof.
  intros Hmodel HN.
  assert (csp_name r.1 = pretty N +:+ "-Kenken") as Hname.
  { apply kenken_model_stages in Hmodel as (N' & ? & ? & HN' & _ & _ & ->).
    rewrite HN in HN'. by injection HN' as <-. }
  apply kenken_model_layout in Hmodel
    as (N' & cage_cons & ys & HN' & Hsq & Hnd & Hst & Hvars & Hcons & Hcage
        & Hlines).
  rewrite HN in HN'. injection HN' as <-.
  pose proof Hsq as [Hlen Hrows].
  assert (Forall (λ row : list var_id, length row = Z.to_nat N) r.2) as Hrl.
  { eapply Forall_impl; [exact Hrows|]. by intros row [? _]. }
  split; [done|]. split; [done|]. split; [done|]. split; [done|].
  rewrite Hvars. split; [done|].
  split; [by rewrite (length_mjoin_same (Z.to_nat N)), Hlen|].
  split; [by eapply square_board_valid|]. split; [done|].
  rewrite Hcons, length_app.
  rewrite (length_mjoin_same 2) by (by eapply line_pair_length).
  apply Forall2_length in Hcage, Hlines. rewrite length_seq in Hlines.
  lia.
Qed.

Lemma kenken_model_shape_witness :
  kenken_csp_model forced_between = Some forced_between_model
  ∧ grid_size forced_between = Some 3
  ∧ csp_name forced_between_model.1 = pretty 3 +:+ "-Kenken"
  ∧ length forced_between_model.2 = Z.to_nat 3
  ∧ Forall (λ row, length row = Z.to_nat 3) forced_between_model.2
  ∧ vars forced_between_model.1 = mjoin forced_between_model.2
  ∧ NoDup (vars forced_between_model.1)
  ∧ length (vars forced_between_model.1) = (Z.to_nat 3 * Z.to_nat 3)%nat
  ∧ Forall (λ v, v < length (store forced_between_model.1))%nat
           (vars forced_between_model.1)
  ∧ length (store forced_between_model.1)
    = (Z.to_nat 3 * Z.to_nat 3 + length (forced_rows forced_between))%nat
  ∧ length (cons forced_between_model.1)
    = (length (cage_rows forced_between) + 2 * Z.to_nat 3)%nat.
Proof.
  assert (kenken_csp_model forced_between = Some forced_between_model)
    as Hmodel by (vm_compute; reflexivity).
  assert (grid_size forced_between = Some 3) as Hsize
    by (vm_compute; reflexivity).
  split; [exact Hmodel|]. split; [exact Hsize|].
  exact (kenken_model_shape forced_between forced_between_model 3
           Hmodel Hsize).
Defined.

(** X6: in a compiled model the constraints after those of the cage rows
    are, for every index k, the all-different constraint of row k followed
    by that of column k, over the board as returned; a tuple satisfies one
    of them exactly when its values are pairwise different and each lies in
    the domain its variable has after all forced rows. *)
Theorem kenken_model_lines (g : list (list Z)) (r : CSP * board) (N : Z)
    (k : nat) :
  kenken_csp_model g = Some r → grid_size g = Some N →
  (k < Z.to_nat N)%nat →
  ∃ row col rowCon colCon,
    r.2 !! k = Some row
    ∧ Forall2 (λ (rw : list var_id) v, rw !! k = Some v) r.2 col
    ∧ cons r.1 !! (length (cage_rows g) + 2 * k)%nat = Some rowCon
    ∧ cons r.1 !! (length (cage_rows g) + 2 * k + 1)%nat = Some colCon
    ∧ scope rowCon = row ∧ scope colCon = col
    ∧ (∀ t, t ∈ sat_tuples rowCon ↔
            Forall2 (λ x v, x ∈ domain (store r.1) v) t row ∧ NoDup t)
    ∧ (∀ t, t ∈ sat_tuples colCon ↔
            Forall2 (λ x v, x ∈ domain (store r.1) v) t col ∧ NoDup t).
Proof.
  intros Hmodel HN Hk.
  apply kenken_model_layout in Hmodel
    as (N' & cage_cons & ys & HN' & Hsq & _ & _ & _ & Hcons & Hcage & Hlines).
  rewrite HN in HN'. injection HN' as <-.
  destruct (Forall2_lookup_l _ _ _ k k Hlines)
    as (y & Hy & row & col & rowCon & colCon & Hrow & Hcol & -> & Hr & Hc).
  { apply lookup_seq. split; [done|lia]. }
  exists row, col, rowCon, colCon. do 2 (split; [done|]).
  pose proof (line_pair_length _ _ _ _ Hlines) as Hl2.
  apply Forall2_length in Hcage.
  rewrite Hcons, Hcage, <- !Nat.add_assoc, !lookup_app_r by lia.
  replace (length cage_cons + 2 * k - length cage_cons)%nat
    with (k * 2 + 0)%nat by lia.
  replace (length cage_cons + (2 * k + 1) - length cage_cons)%nat
    with (k * 2 + 1)%nat by lia.
  rewrite !(join_lookup_Some_same_length' 2) by (done || lia).
  split; [by exists [rowCon; colCon]|]. split; [by exists [rowCon; colCon]|].
  split; [apply Hr|]. split; [apply Hc|].
  split; by apply all_different_elem.
Qed.

Lemma kenken_model_lines_witness :
  kenken_csp_model forced_between = Some forced_between_model
  ∧ grid_size forced_between = Some 3
  ∧ (1 < Z.to_nat 3)%nat
  ∧ ∃ row col rowCon colCon,
      forced_between_model.2 !! 1%nat = Some row
      ∧ Forall2 (λ (rw : list var_id) v, rw !! 1%nat = Some v)
                forced_between_model.2 col
      ∧ cons forced_between_model.1
          !! (length (cage_rows forced_between) + 2 * 1)%nat = Some rowCon
      ∧ cons forced_between_model.1
          !! (length (cage_rows forced_between) + 2 * 1 + 1)%nat
        = Some colCon
      ∧ scope rowCon = row ∧ scope colCon = col
      ∧ (∀ t, t ∈ sat_tuples rowCon ↔
              Forall2 (λ x v, x ∈ domain (store forced_between_model.1) v)
                      t row ∧ NoDup t)
      ∧ (∀ t, t ∈ sat_tuples colCon ↔
              Forall2 (λ x v, x ∈ domain (store forced_between_model.1) v)
                      t col ∧ NoDup t).
Proof.
  assert (kenken_csp_model forced_between = Some forced_between_model)
    as Hmodel by (vm_compute; reflexivity).
  assert (grid_size forced_between = Some 3) as Hsize
    by (vm_compute; reflexivity).
  assert (1 < Z.to_nat 3)%nat as Hk by (vm_compute; lia).
  do 3 (split; [assumption|]).
  exact (kenken_model_lines forced_between forced_between_model 3 1%nat
           Hmodel Hsize Hk).
Defined.

(** X7: the constraint model's invariant holds for every constraint of a
    compiled model: the scope variables are objects of the store, and
    every satisfying tuple has one value per scope variable, taken from
    that variable's domain. *)
Theorem kenken_model_tuples_well_formed (g : list (list Z))
    (r : CSP * board) (con : Constraint) :
  kenken_csp_model g = Some r → con ∈ cons r.1 →
  Forall (λ v, v < length (store r.1))%nat (scope con)
  ∧ ∀ t, t ∈ sat_tuples con →
         length t = length (scope con)
         ∧ Forall2 (λ x v, x ∈ domain (store r.1) v) t (scope con).
Proof.
  intros Hmodel Hcon.
  apply kenken_model_layout in Hmodel
    as (N & cage_cons & ys & _ & Hsq & _ & _ & _ & Hcons & Hcage & Hlines).
  rewrite Hcons in Hcon.
  assert (Forall (λ v, v < length (store r.1))%nat (scope con)
          ∧ ∀ t, t ∈ sat_tuples con →
                 Forall2 (λ x v, x ∈ domain (store r.1) v) t (scope con))
    as [Hvalid Htuples].
  { apply elem_of_app in Hcon as [Hcon|Hcon].
    - apply list_elem_of_lookup in Hcon as [i Hi].
      destruct (Forall2_lookup_r _ _ _ _ _ Hcage Hi) as (cage & _ & Hcc).
      split; [by destruct Hcc as (? & ? & ? & _ & _ & _ & ? & _)|].
      intros t Ht. by eapply cage_constraint_tuples.
    - apply list_elem_of_join in Hcon as (y & Hcon & [i Hi]%list_elem_of_lookup).
      destruct (Forall2_lookup_r _ _ _ _ _ Hlines Hi)
        as (k & _ & row & col & rc & cc & Hrow & Hcol & -> & Hr & Hc).
      pose proof (square_board_valid _ _ _ Hsq) as Hval.
      rewrite Forall_forall in Hval.
      apply elem_of_cons in Hcon as [->|Hcon%list_elem_of_singleton].
      + split.
        * destruct Hr as [-> _]. apply Forall_forall. intros v Hv.
          apply Hval, list_elem_of_join. exists row.
          split; [done|by eapply list_elem_of_lookup_2].
        * intros t Ht. apply (all_different_elem _ _ _ Hr) in Ht as [Ht _].
          by destruct Hr as [-> _].
      + subst con. split.
        * destruct Hc as [-> _]. apply column_in_board in Hcol.
          eapply Forall_impl; [exact Hcol|]. intros v Hv. by apply Hval.
        * intros t Ht. apply (all_different_elem _ _ _ Hc) in Ht as [Ht _].
          by destruct Hc as [-> _]. }
  split; [done|]. intros t Ht. specialize (Htuples t Ht).
  split; [by eapply Forall2_length|done].
Qed.

Lemma kenken_model_tuples_well_formed_witness :
  kenken_csp_model seven_three = Some seven_three_model
  ∧ mkConstraint "Cage(V11,V12)" [4; 5]%nat [[7; 3]]
    ∈ cons seven_three_model.1
  ∧ Forall (λ v, v < length (store seven_three_model.1))%nat
           (scope (mkConstraint "Cage(V11,V12)" [4; 5]%nat [[7; 3]]))
  ∧ ∀ t, t ∈ sat_tuples (mkConstraint "Cage(V11,V12)" [4; 5]%nat [[7; 3]]) →
         length t
         = length (scope (mkConstraint "Cage(V11,V12)" [4; 5]%nat [[7; 3]]))
         ∧ Forall2 (λ x v, x ∈ domain (store seven_three_model.1) v) t
                   (scope (mkConstraint "Cage(V11,V12)" [4; 5]%nat [[7; 3]])).
Proof.
  assert (kenken_csp_model seven_three = Some seven_three_model)
    as Hmodel by (vm_compute; reflexivity).
  assert (mkConstraint "Cage(V11,V12)" [4; 5]%nat [[7; 3]]
          ∈ cons seven_three_model.1) as Hcon by (vm_compute; left).
  do 2 (split; [assumption|]).
  exact (kenken_model_tuples_well_formed seven_three seven_three_model _
           Hmodel Hcon).
Defined.

(** ** The tuples of the cage constraints *)

Lemma model_cage_constraint (g : list (list Z)) (r : CSP * board) (i : nat)
    (cage : list Z) :
  kenken_csp_model g = Some r → cage_rows g !! i = Some cage →
  ∃ con, cons r.1 !! i = Some con ∧ con ∈ cons r.1
         ∧ cage_constraint (store r.1) cage con.
Proof.
  intros Hmodel Hi.
  apply kenken_model_layout in Hmodel
    as (N & cage_cons & ys & _ & _ & _ & _ & _ & Hcons & Hcage & _).
  destruct (Forall2_lookup_l _ _ _ _ _ Hcage Hi) as (con & Hcon & Hcc).
  exists con. rewrite Hcons. split; [by apply lookup_app_l_Some|].
  split; [|done]. apply elem_of_app. left. by eapply list_elem_of_lookup_2.
Qed.

Lemma cage_constraint_elem st cage con val op :
  cage_constraint st cage con →
  Py.get cage (-2) = Some val → Py.get cage (-1) = Some op →
  ∀ t, t ∈ sat_tuples con ↔
       Forall2 (λ x v, x ∈ domain st v) t (scope con)
       ∧ ∃ l, cage_check op val t = Some l ∧ l ≠ [].
Proof.
  intros (val' & op' & added & Hval & Hop & _ & _ & Hadded & Hsat) Hv Ho t.
  rewrite Hv in Hval. rewrite Ho in Hop.
  injection Hval as <-. injection Hop as <-. rewrite Hsat.
  rewrite (elem_of_mapM_join _
             (λ x y, y = x ∧ ∃ l, cage_check op val x = Some l ∧ l ≠ [])
             _ _ Hadded).
  - split.
    + intros (x & Hx%elem_of_product & -> & Hl).
      by rewrite Forall2_fmap_r in Hx.
    + intros [Ht Hl]. exists t. split; [|done].
      apply elem_of_product. by rewrite Forall2_fmap_r.
  - intros x zs Hzs y. split.
    + intros Hy. split; [by eapply cage_check_elem|].
      exists zs. split; [done|]. intros ->. by apply elem_of_nil in Hy.
    + intros [-> (l & Hl & Hne)]. rewrite Hzs in Hl. injection Hl as <-.
      destruct zs as [|z zs]; [done|].
      rewrite <- (cage_check_elem _ _ _ _ Hzs z) by left. left.
Qed.

Lemma foldl_add_total (t : list Z) (a : Z) : foldl Z.add a t = a + total t.
Proof.
  unfold total. revert a.
  induction t as [|x t IH]; intros a; simpl; [lia|]. rewrite IH. lia.
Qed.

Lemma foldl_mul_product_of (t : list Z) (a : Z) :
  foldl Z.mul a t = a * product_of t.
Proof.
  unfold product_of. revert a.
  induction t as [|x t IH]; intros a; simpl; [lia|]. rewrite IH. lia.
Qed.

Lemma sum_total (t : list Z) : Py.sum t = total t.
Proof. unfold Py.sum. rewrite foldl_add_total. lia. Qed.

Lemma mul_chain_product_of (t : list Z) : mul_chain t = product_of t.
Proof. unfold mul_chain. rewrite foldl_mul_product_of. lia. Qed.

Lemma total_Permutation (t t' : list Z) : t ≡ₚ t' → total t = total t'.
Proof.
  unfold total. induction 1; simpl; [done|lia|lia|congruence].
Qed.

Lemma product_of_Permutation (t t' : list Z) :
  t ≡ₚ t' → product_of t = product_of t'.
Proof.
  unfold product_of. induction 1; simpl; [done|lia|lia|congruence].
Qed.

Lemma cage_check_add (val : Z) (t : list Z) :
  cage_check 0 val t = Some (if bool_decide (total t = val) then [t] else []).
Proof. unfold cage_check. by rewrite sum_total. Qed.

Lemma cage_check_mul (val : Z) (t : list Z) :
  cage_check 3 val t
  = Some (if bool_decide (product_of t = val) then [t] else []).
Proof. unfold cage_check. by rewrite mul_chain_product_of. Qed.

Lemma cage_check_other (op val : Z) (t : list Z) :
  ¬ (0 ≤ op ≤ 3) → cage_check op val t = Some [].
Proof.
  intros Hop. unfold cage_check.
  by rewrite !bool_decide_false by lia.
Qed.

Lemma mapM_elems {A B} (f : A → option B) (l : list A) (ys : list B) :
  mapM f l = Some ys → ∀ y, y ∈ ys ↔ ∃ x, x ∈ l ∧ f x = Some y.
Proof.
  intros H%mapM_Some y. split.
  - intros [i Hi]%list_elem_of_lookup.
    destruct (Forall2_lookup_r _ _ _ _ _ H Hi) as (x & Hx & Hfx).
    exists x. split; [by eapply list_elem_of_lookup_2|done].
  - intros (x & [i Hi]%list_elem_of_lookup & Hfx).
    destruct (Forall2_lookup_l _ _ _ _ _ H Hi) as (y' & Hy' & Hfx').
    rewrite Hfx in Hfx'. injection Hfx' as <-.
    by eapply list_elem_of_lookup_2.
Qed.

Lemma mapM_elem_None {A B} (f : A → option B) (l : list A) (x : A) :
  x ∈ l → f x = None → mapM f l = None.
Proof.
  intros Hx Hfx. destruct (mapM f l) as [ys|] eqn:Hys; [|done].
  assert (is_Some (mapM f l)) as Hs%mapM_is_Some_1 by (by rewrite Hys).
  rewrite Forall_forall in Hs. destruct (Hs x Hx) as [y Hy].
  simpl in Hy. congruence.
Qed.

Lemma mapM_same_elems {A B} (f : A → option B) (l l' : list A)
    (ys : list B) :
  (∀ x, x ∈ l' ↔ x ∈ l) → mapM f l = Some ys →
  ∃ ys', mapM f l' = Some ys' ∧ ∀ y, y ∈ ys' ↔ y ∈ ys.
Proof.
  intros Hl Hys.
  assert (is_Some (mapM f l')) as [ys' Hys'].
  { apply mapM_is_Some_2, Forall_forall. intros x Hx%Hl.
    assert (is_Some (mapM f l)) as Hs%mapM_is_Some_1 by (by rewrite Hys).
    rewrite Forall_forall in Hs. by apply Hs. }
  exists ys'. split; [done|]. intros y.
  rewrite (mapM_elems _ _ _ Hys), (mapM_elems _ _ _ Hys').
  split; intros (x & Hx & Hfx); exists x; (split; [by apply Hl|done]).
Qed.

Lemma hits_nonempty (t : list Z) (hits : list bool) :
  (λ _, t) <$> filter (λ b, b = true) hits ≠ [] ↔ true ∈ hits.
Proof.
  split.
  - intros Hne. destruct (filter (λ b, b = true) hits) as [|b bs] eqn:Hf;
      [done|].
    assert (b ∈ filter (λ b, b = true) hits) as Hb by (rewrite Hf; left).
    by apply list_elem_of_filter in Hb as [-> ?].
  - intros Hin Hnil. apply fmap_nil_inv in Hnil.
    assert (true ∈ filter (λ b, b = true) hits) as Hb
      by (by apply list_elem_of_filter).
    rewrite Hnil in Hb. by apply elem_of_nil in Hb.
Qed.

(** Under subtraction and division the orderings of [t] decide, and a
    rearrangement of [t] has the same orderings. *)
Lemma ordering_hits_perm (f : list Z → option bool) (t t' : list Z)
    (l : list (list Z)) :
  t' ≡ₚ t →
  (hits ← mapM f (Py.permutations t);
   Some ((λ _, t) <$> filter (λ b, b = true) hits)) = Some l →
  l ≠ [] →
  ∃ l', (hits ← mapM f (Py.permutations t');
         Some ((λ _, t') <$> filter (λ b, b = true) hits)) = Some l'
        ∧ l' ≠ [].
Proof.
  intros Hp (hits & Hhits & [= <-])%bind_Some Hne.
  destruct (mapM_same_elems f (Py.permutations t) (Py.permutations t') hits)
    as (hits' & Hhits' & Hsame); [|done|].
  { intros r. rewrite !elem_of_permutations. by rewrite Hp. }
  rewrite Hhits'. simpl. eexists. split; [done|].
  apply hits_nonempty, Hsame. by apply hits_nonempty in Hne.
Qed.

Lemma cage_check_perm (op val : Z) (t t' : list Z) (l : list (list Z)) :
  t' ≡ₚ t → cage_check op val t = Some l → l ≠ [] →
  ∃ l', cage_check op val t' = Some l' ∧ l' ≠ [].
Proof.
  intros Hp Hl Hne.
  destruct (decide (op = 0)) as [->|H0].
  { rewrite cage_check_add in *. injection Hl as <-.
    rewrite (total_Permutation _ _ Hp).
    case_bool_decide; [|done]. by eexists. }
  destruct (decide (op = 3)) as [->|H3].
  { rewrite cage_check_mul in *. injection Hl as <-.
    rewrite (product_of_Permutation _ _ Hp).
    case_bool_decide; [|done]. by eexists. }
  unfold cage_check in *.
  rewrite (bool_decide_false (op = 0)) in * by done.
  destruct (decide (op = 1)) as [->|H1].
  { rewrite (bool_decide_true (1 = 1)) in * by done.
    by eapply ordering_hits_perm. }
  rewrite (bool_decide_false (op = 1)) in * by done.
  destruct (decide (op = 2)) as [->|H2].
  { rewrite (bool_decide_true (2 = 2)) in * by done.
    by eapply ordering_hits_perm. }
  rewrite (bool_decide_false (op = 2)) in Hl by done.
  rewrite (bool_decide_false (op = 3)) in Hl by done.
  by injection Hl as <-.
Qed.


(** A division cage divides by every value but the first of each
    ordering: a zero among two or more values is a ZeroDivisionError. *)
Lemma cage_check_div_zero (val : Z) (t : list Z) :
  0 ∈ t → (2 ≤ length t)%nat → cage_check 2 val t = None.
Proof.
  intros [t1 Ht1]%elem_of_Permutation Hlen.
  destruct t1 as [|x rest].
  { apply Permutation_length in Ht1. simpl in Ht1. lia. }
  assert ((x :: 0 :: rest) ∈ Py.permutations t) as Hr.
  { apply elem_of_permutations. rewrite Ht1. apply perm_swap. }
  unfold cage_check.
  rewrite (bool_decide_false (2 = 0)), (bool_decide_false (2 = 1)),
    (bool_decide_true (2 = 2)) by done.
  by rewrite (mapM_elem_None _ _ _ Hr).
Qed.

(** X8: the constraint of an addition cage (operator tag 0) holds exactly
    the tuples drawn from the domains of the cage's variables whose values
    add up to the target. *)
Theorem addition_cage_tuples (g : list (list Z)) (r : CSP * board) (i : nat)
    (cage : list Z) (val : Z) :
  kenken_csp_model g = Some r → cage_rows g !! i = Some cage →
  Py.get cage (-2) = Some val → Py.get cage (-1) = Some 0 →
  ∃ con, cons r.1 !! i = Some con
         ∧ length (scope con) = (length cage - 2)%nat
         ∧ ∀ t, t ∈ sat_tuples con ↔
                Forall2 (λ x v, x ∈ domain (store r.1) v) t (scope con)
                ∧ total t = val.
Proof.
  intros Hmodel Hi Hval Hop.
  destruct (model_cage_constraint _ _ _ _ Hmodel Hi) as (con & Hcon & _ & Hcc).
  exists con. split; [done|].
  split; [by destruct Hcc as (? & ? & ? & _ & _ & ? & _)|].
  intros t. rewrite (cage_constraint_elem _ _ _ _ _ Hcc Hval Hop).
  rewrite cage_check_add. split.
  - intros [Ht (l & [= <-] & Hne)]. split; [done|]. by case_bool_decide.
  - intros [Ht Hsum]. split; [done|]. rewrite bool_decide_true by done.
    by eexists.
Qed.

Lemma addition_cage_tuples_witness :
  kenken_csp_model forced_between = Some forced_between_model
  ∧ cage_rows forced_between !! 1%nat = Some [11; 21; 3; 0]
  ∧ Py.get [11; 21; 3; 0] (-2) = Some 3
  ∧ Py.get [11; 21; 3; 0] (-1) = Some 0
  ∧ ∃ con, cons forced_between_model.1 !! 1%nat = Some con
           ∧ length (scope con) = (length [11; 21; 3; 0] - 2)%nat
           ∧ ∀ t, t ∈ sat_tuples con ↔
                  Forall2 (λ x v, x ∈ domain (store forced_between_model.1) v)
                          t (scope con)
                  ∧ total t = 3.
Proof.
  assert (kenken_csp_model forced_between = Some forced_between_model)
    as Hmodel by (vm_compute; reflexivity).
  assert (cage_rows forced_between !! 1%nat = Some [11; 21; 3; 0]) as Hi
    by (vm_compute; reflexivity).
  assert (Py.get [11; 21; 3; 0] (-2) = Some 3) as Hval
    by (vm_compute; reflexivity).
  assert (Py.get [11; 21; 3; 0] (-1) = Some 0) as Hop
    by (vm_compute; reflexivity).
  do 4 (split; [assumption|]).
  exact (addition_cage_tuples forced_between forced_between_model 1%nat
           [11; 21; 3; 0] 3 Hmodel Hi Hval Hop).
Defined.

(** X9: the constraint of a multiplication cage (operator tag 3) holds
    exactly the tuples drawn from the domains of the cage's variables whose
    values multiply to the target. *)
Theorem multiplication_cage_tuples (g : list (list Z)) (r : CSP * board)
    (i : nat) (cage : list Z) (val : Z) :
  kenken_csp_model g = Some r → cage_rows g !! i = Some cage →
  Py.get cage (-2) = Some val → Py.get cage (-1) = Some 3 →
  ∃ con, cons r.1 !! i = Some con
         ∧ length (scope con) = (length cage - 2)%nat
         ∧ ∀ t, t ∈ sat_tuples con ↔
                Forall2 (λ x v, x ∈ domain (store r.1) v) t (scope con)
                ∧ product_of t = val.
Proof.
  intros Hmodel Hi Hval Hop.
  destruct (model_cage_constraint _ _ _ _ Hmodel Hi) as (con & Hcon & _ & Hcc).
  exists con. split; [done|].
  split; [by destruct Hcc as (? & ? & ? & _ & _ & ? & _)|].
  intros t. rewrite (cage_constraint_elem _ _ _ _ _ Hcc Hval Hop).
  rewrite cage_check_mul. split.
  - intros [Ht (l & [= <-] & Hne)]. split; [done|]. by case_bool_decide.
  - intros [Ht Hsum]. split; [done|]. rewrite bool_decide_true by done.
    by eexists.
Qed.

Lemma multiplication_cage_tuples_witness :
  kenken_csp_model mixed_cages = Some mixed_cages_model
  ∧ cage_rows mixed_cages !! 0%nat = Some [11; 12; 6; 3]
  ∧ Py.get [11; 12; 6; 3] (-2) = Some 6
  ∧ Py.get [11; 12; 6; 3] (-1) = Some 3
  ∧ ∃ con, cons mixed_cages_model.1 !! 0%nat = Some con
           ∧ length (scope con) = (length [11; 12; 6; 3] - 2)%nat
           ∧ ∀ t, t ∈ sat_tuples con ↔
                  Forall2 (λ x v, x ∈ domain (store mixed_cages_model.1) v)
                          t (scope con)
                  ∧ product_of t = 6.
Proof.
  assert (kenken_csp_model mixed_cages = Some mixed_cages_model)
    as Hmodel by (vm_compute; reflexivity).
  assert (cage_rows mixed_cages !! 0%nat = Some [11; 12; 6; 3]) as Hi
    by (vm_compute; reflexivity).
  assert (Py.get [11; 12; 6; 3] (-2) = Some 6) as Hval
    by (vm_compute; reflexivity).
  assert (Py.get [11; 12; 6; 3] (-1) = Some 3) as Hop
    by (vm_compute; reflexivity).
  do 4 (split; [assumption|]).
  exact (multiplication_cage_tuples mixed_cages mixed_cages_model 0%nat
           [11; 12; 6; 3] 6 Hmodel Hi Hval Hop).
Defined.

(** X10: a cage row whose operator tag is none of 0, 1, 2, 3 is compiled
    without an error into a constraint with no satisfying tuple, so the
    model accepts no assignment. *)
Theorem unknown_operator_unsatisfiable (g : list (list Z)) (r : CSP * board)
    (i : nat) (cage : list Z) (op : Z) :
  kenken_csp_model g = Some r → cage_rows g !! i = Some cage →
  Py.get cage (-1) = Some op → ¬ (0 ≤ op ≤ 3) →
  ∃ con, cons r.1 !! i = Some con
         ∧ sat_tuples con = []
         ∧ ∀ a, ¬ accepts r.1 a.
Proof.
  intros Hmodel Hi Hop Hunknown.
  destruct (model_cage_constraint _ _ _ _ Hmodel Hi)
    as (con & Hcon & Hin & Hcc).
  exists con. split; [done|].
  assert (sat_tuples con = []) as Hnil.
  { pose proof Hcc as (val & ? & ? & Hval & _).
    destruct (sat_tuples con) as [|t ts] eqn:Hsat; [done|].
    assert (t ∈ sat_tuples con) as Ht by (rewrite Hsat; left).
    apply (cage_constraint_elem _ _ _ _ _ Hcc Hval Hop) in Ht
      as [_ (l & Hl & Hne)].
    rewrite cage_check_other in Hl by done. by injection Hl as <-. }
  split; [done|]. intros a Hacc. unfold accepts in Hacc.
  rewrite Forall_forall in Hacc. specialize (Hacc con Hin).
  unfold satisfies in Hacc. rewrite Hnil in Hacc.
  by apply elem_of_nil in Hacc.
Qed.

Lemma unknown_operator_unsatisfiable_witness :
  kenken_csp_model mixed_cages = Some mixed_cages_model
  ∧ cage_rows mixed_cages !! 3%nat = Some [13; 23; 5; 7]
  ∧ Py.get [13; 23; 5; 7] (-1) = Some 7
  ∧ ¬ (0 ≤ 7 ≤ 3)
  ∧ ∃ con, cons mixed_cages_model.1 !! 3%nat = Some con
           ∧ sat_tuples con = []
           ∧ ∀ a, ¬ accepts mixed_cages_model.1 a.
Proof.
  assert (kenken_csp_model mixed_cages = Some mixed_cages_model)
    as Hmodel by (vm_compute; reflexivity).
  assert (cage_rows mixed_cages !! 3%nat = Some [13; 23; 5; 7]) as Hi
    by (vm_compute; reflexivity).
  assert (Py.get [13; 23; 5; 7] (-1) = Some 7) as Hop
    by (vm_compute; reflexivity).
  assert (¬ (0 ≤ 7 ≤ 3)) as Hunknown by lia.
  do 4 (split; [assumption|]).
  exact (unknown_operator_unsatisfiable mixed_cages mixed_cages_model 3%nat
           [13; 23; 5; 7] 7 Hmodel Hi Hop Hunknown).
Defined.

(** X11: whether a cage accepts a tuple depends on the values and not on
    the cells that hold them: a rearrangement of a satisfying tuple that is
    still drawn from the domains of the cage's variables is a satisfying
    tuple too, for every operator. *)
Theorem cage_acceptance_order_free (g : list (list Z)) (r : CSP * board)
    (i : nat) (cage : list Z) :
  kenken_csp_model g = Some r → cage_rows g !! i = Some cage →
  ∃ con, cons r.1 !! i = Some con
         ∧ ∀ t t', t ∈ sat_tuples con → t' ≡ₚ t →
                   Forall2 (λ x v, x ∈ domain (store r.1) v) t' (scope con) →
                   t' ∈ sat_tuples con.
Proof.
  intros Hmodel Hi.
  destruct (model_cage_constraint _ _ _ _ Hmodel Hi) as (con & Hcon & _ & Hcc).
  exists con. split; [done|]. intros t t' Ht Hp Hdom.
  pose proof Hcc as (val & op & ? & Hval & Hop & _).
  apply (cage_constraint_elem _ _ _ _ _ Hcc Hval Hop).
  apply (cage_constraint_elem _ _ _ _ _ Hcc Hval Hop) in Ht
    as [_ (l & Hl & Hne)].
  split; [done|]. by eapply cage_check_perm.
Qed.

Lemma cage_acceptance_order_free_witness :
  kenken_csp_model mixed_cages = Some mixed_cages_model
  ∧ cage_rows mixed_cages !! 1%nat = Some [21; 22; 2; 2]
  ∧ ∃ con, cons mixed_cages_model.1 !! 1%nat = Some con
           ∧ ∀ t t', t ∈ sat_tuples con → t' ≡ₚ t →
                     Forall2 (λ x v,
                                x ∈ domain (store mixed_cages_model.1) v)
                             t' (scope con) →
                     t' ∈ sat_tuples con.
Proof.
  assert (kenken_csp_model mixed_cages = Some mixed_cages_model)
    as Hmodel by (vm_compute; reflexivity).
  assert (cage_rows mixed_cages !! 1%nat = Some [21; 22; 2; 2]) as Hi
    by (vm_compute; reflexivity).
  do 2 (split; [assumption|]).
  exact (cage_acceptance_order_free mixed_cages mixed_cages_model 1%nat
           [21; 22; 2; 2] Hmodel Hi).
Defined.



(** X13: a division cage (operator tag 2) of two or more cells whose
    variables could take the value 0 does not compile: every ordering of
    every tuple is divided out, and a zero divisor raises. So in a model
    that was returned, no tuple drawn from the domains of such a cage's
    variables contains 0. *)
Theorem division_cage_excludes_zero (g : list (list Z)) (r : CSP * board)
    (i : nat) (cage : list Z) :
  kenken_csp_model g = Some r → cage_rows g !! i = Some cage →
  Py.get cage (-1) = Some 2 → (4 ≤ length cage)%nat →
  ∃ con, cons r.1 !! i = Some con
         ∧ ∀ t, Forall2 (λ x v, x ∈ domain (store r.1) v) t (scope con) →
                0 ∉ t.
Proof.
  intros Hmodel Hi Hop Hlen.
  destruct (model_cage_constraint _ _ _ _ Hmodel Hi) as (con & Hcon & _ & Hcc).
  exists con. split; [done|]. intros t Ht H0.
  destruct Hcc as (val & op & added & _ & Hop' & Hsc & _ & Hadded & _).
  rewrite Hop in Hop'. injection Hop' as <-.
  assert (is_Some (mapM (cage_check 2 val)
                        (Py.product (domain (store r.1) <$> scope con))))
    as Hs%mapM_is_Some_1 by (by rewrite Hadded).
  rewrite Forall_forall in Hs. destruct (Hs t) as [l Hl].
  { apply elem_of_product. by rewrite Forall2_fmap_r. }
  simpl in Hl. rewrite cage_check_div_zero in Hl; [done|done|].
  apply Forall2_length in Ht. lia.
Qed.

Lemma division_cage_excludes_zero_witness :
  kenken_csp_model mixed_cages = Some mixed_cages_model
  ∧ cage_rows mixed_cages !! 1%nat = Some [21; 22; 2; 2]
  ∧ Py.get [21; 22; 2; 2] (-1) = Some 2
  ∧ (4 ≤ length [21; 22; 2; 2])%nat
  ∧ ∃ con, cons mixed_cages_model.1 !! 1%nat = Some con
           ∧ ∀ t, Forall2 (λ x v, x ∈ domain (store mixed_cages_model.1) v)
                          t (scope con) →
                  0 ∉ t.
Proof.
  assert (kenken_csp_model mixed_cages = Some mixed_cages_model)
    as Hmodel by (vm_compute; reflexivity).
  assert (cage_rows mixed_cages !! 1%nat = Some [21; 22; 2; 2]) as Hi
    by (vm_compute; reflexivity).
  assert (Py.get [21; 22; 2; 2] (-1) = Some 2) as Hop
    by (vm_compute; reflexivity).
  assert (4 ≤ length [21; 22; 2; 2])%nat as Hlen by (simpl; lia).
  do 4 (split; [assumption|]).
  exact (division_cage_excludes_zero mixed_cages mixed_cages_model 1%nat
           [21; 22; 2; 2] Hmodel Hi Hop Hlen).
Defined.

(** ** Cell indices *)

Lemma cage_step_cells n (b b1 : build) (cage : list Z) (c : Z) :
  cage_step b cage = Some b1 → square_board n b.1.1 b.1.2 →
  c ∈ cell_entries cage → is_Some (cell_pos n c).
Proof.
  intros Hstep Hsq Hc. unfold cell_entries in Hc.
  destruct (cage_step_cases _ _ _ Hstep)
    as [[H2 Hf]|[[H3 Hcomp]|(Hn2 & Hn3 & _)]].
  - rewrite bool_decide_true in Hc by done.
    apply force_cell_spec in Hf
      as (val & c' & ki & kj & row & _ & Hc' & Hki & Hrow & Hkj & _).
    destruct cage as [|c0 cage]; [done|]. simpl in Hc.
    apply list_elem_of_singleton in Hc as ->.
    rewrite get_head in Hc'. injection Hc' as <-.
    destruct Hsq as [Hl Hrows].
    destruct (Forall_lookup_1 _ _ _ _ Hrows Hrow) as [Hrl _].
    rewrite Hl in Hki. rewrite Hrl in Hkj.
    unfold cell_pos. rewrite Hki. cbn [mbind option_bind].
    by rewrite Hkj.
  - rewrite bool_decide_false in Hc by lia.
    apply compile_cage_spec in Hcomp
      as (con & _ & (? & ? & ? & _ & _ & Hsc%mapM_Some & _)).
    apply list_elem_of_lookup in Hc as [k Hk].
    destruct (Forall2_lookup_l _ _ _ _ _ Hsc Hk) as (u & _ & Hat).
    rewrite (at_cell_board_at _ _ _ _ Hsq) in Hat.
    by destruct (cell_pos n c).
  - rewrite bool_decide_false in Hc by done.
    replace (length cage - 2)%nat with 0%nat in Hc by lia.
    by apply elem_of_nil in Hc.
Qed.

Lemma cage_loop_cells n (g : list (list Z)) (b b' : build) :
  for_each cage_step b g = Some b' → square_board n b.1.1 b.1.2 →
  ∀ cage c, cage ∈ g → c ∈ cell_entries cage → is_Some (cell_pos n c).
Proof.
  revert b. induction g as [|row g IH]; intros b Hloop Hsq cage c Hin Hc.
  { by apply elem_of_nil in Hin. }
  simpl in Hloop. apply bind_Some in Hloop as (b1 & Hstep & Hloop).
  apply elem_of_cons in Hin as [->|Hin].
  - by eapply cage_step_cells.
  - destruct (cage_step_spec n _ _ _ Hstep Hsq) as (Hsq1 & _).
    by eapply (IH b1).
Qed.

Lemma cell_of_digits (i j : Z) :
  0 ≤ j ≤ 9 → cell_of (10 * i + j) = (i - 1, j - 1).
Proof.
  intros Hj. unfold cell_of.
  assert ((10 * i + j) `div` 10 = i) as -> by (Z.div_mod_to_equations; lia).
  assert ((10 * i + j) `mod` 10 = j) as -> by (Z.div_mod_to_equations; lia).
  done.
Qed.

Lemma norm_index_wrap (n : nat) (i : Z) :
  (1 ≤ n)%nat → 0 ≤ i ≤ Z.of_nat n →
  Py.norm_index n (i - 1) = Some (Z.to_nat ((i - 1) `mod` Z.of_nat n)).
Proof.
  intros Hn Hi. unfold Py.norm_index.
  destruct (decide (i = 0)) as [->|Hi0].
  - rewrite bool_decide_false by lia. rewrite bool_decide_true by lia.
    do 2 f_equal. apply (Z.mod_unique _ _ (-1)); lia.
  - rewrite bool_decide_true by lia. do 2 f_equal.
    symmetry. apply Z.mod_small. lia.
Qed.

(** X14: a row of length two or more that names a cell outside the board
    keeps [kenken_csp_model] from returning a model, wherever the row
    stands. When the rows before it are processed without an exception,
    it is this row that raises: the board access [vars[cell_i][cell_j]]
    for the cell is out of range, which is Python's IndexError; when an
    earlier row raises, its exception is the one that is seen. The cells
    of a row are the first entry of a forced row and all but the last two
    entries of a cage row. *)
Theorem out_of_range_cell_raises (pre post : list (list Z)) (N : Z)
    (cage : list Z) (c : Z) :
  grid_size (pre ++ cage :: post) = Some N →
  c ∈ cell_entries cage →
  cell_pos (Z.to_nat N) c = None →
  kenken_csp_model (pre ++ cage :: post) = None
  ∧ ∀ b, for_each cage_step (start N) pre = Some b →
         at_cell b.1.2 (cell_of c) = None ∧ cage_step b cage = None.
Proof.
  intros HN Hc Hpos.
  pose proof (make_vars_square (make_dom N)) as Hsq0.
  rewrite make_dom_length in Hsq0. split.
  - destruct (kenken_csp_model (pre ++ cage :: post)) as [r|] eqn:Hmodel;
      [|done].
    apply kenken_model_stages in Hmodel as (N' & b1 & b & HN' & Hb1 & _).
    rewrite HN in HN'. injection HN' as <-.
    destruct (cage_loop_cells _ _ _ _ Hb1 Hsq0 cage c) as [p Hp];
      [|done|congruence].
    apply elem_of_app. right. left.
  - intros b Hb.
    destruct (cage_loop_spec (Z.to_nat N) (λ _, True) pre (start N) b
                ltac:(done) Hsq0 I Hb) as (Hsq & _).
    split; [by rewrite (at_cell_board_at _ _ _ _ Hsq), Hpos|].
    destruct (cage_step b cage) as [b'|] eqn:Hstep; [|done].
    destruct (cage_step_cells _ _ _ _ _ Hstep Hsq Hc) as [p Hp]. congruence.
Qed.

Lemma out_of_range_cell_raises_witness :
  grid_size ([[2]; [11; 12; 3; 0]] ++ [13; 2] :: []) = Some 2
  ∧ 13 ∈ cell_entries [13; 2]
  ∧ cell_pos (Z.to_nat 2) 13 = None
  ∧ kenken_csp_model ([[2]; [11; 12; 3; 0]] ++ [13; 2] :: []) = None
  ∧ ∀ b, for_each cage_step (start 2) [[2]; [11; 12; 3; 0]] = Some b →
         at_cell b.1.2 (cell_of 13) = None ∧ cage_step b [13; 2] = None.
Proof.
  assert (grid_size ([[2]; [11; 12; 3; 0]] ++ [13; 2] :: []) = Some 2)
    as Hsize by (vm_compute; reflexivity).
  assert (13 ∈ cell_entries [13; 2]) as Hc by (vm_compute; left).
  assert (cell_pos (Z.to_nat 2) 13 = None) as Hpos
    by (vm_compute; reflexivity).
  do 3 (split; [assumption|]).
  exact (out_of_range_cell_raises [[2]; [11; 12; 3; 0]] [] 2 [13; 2] 13
           Hsize Hc Hpos).
Defined.

(** X15: how a cell index is read on the board that is returned. The
    index 10*i + j with digits i in 1..N and j in 1..min(N, 9) denotes the
    cell in row i and column j, that is [vars[i-1][j-1]]; a digit 0 is not
    an error but, by Python's index -1, the last row or the last
    column. *)
Theorem cell_index_positions (g : list (list Z)) (r : CSP * board)
    (N i j : Z) :
  kenken_csp_model g = Some r → grid_size g = Some N →
  0 ≤ i ≤ N → 0 ≤ j ≤ N → j ≤ 9 →
  at_cell r.2 (cell_of (10 * i + j))
  = board_at r.2 (Z.to_nat ((i - 1) `mod` N), Z.to_nat ((j - 1) `mod` N)).
Proof.
  intros Hmodel HN Hi Hj Hj9.
  apply kenken_model_layout in Hmodel as (N' & ? & ? & HN' & Hsq & _).
  rewrite HN in HN'. injection HN' as <-.
  destruct (decide (N = 0)) as [->|HN0].
  { destruct Hsq as [Hlen _]. destruct r.2; [|done].
    assert (i = 0) as -> by lia. assert (j = 0) as -> by lia.
    vm_compute. reflexivity. }
  rewrite (at_cell_board_at _ _ _ _ Hsq). unfold cell_pos.
  rewrite cell_of_digits by lia. cbn [fst snd].
  rewrite !norm_index_wrap by lia. rewrite Z2Nat.id by lia. done.
Qed.

Lemma cell_index_positions_witness :
  kenken_csp_model forced_between = Some forced_between_model
  ∧ grid_size forced_between = Some 3
  ∧ 0 ≤ 2 ≤ 3 ∧ 0 ≤ 0 ≤ 3 ∧ 0 ≤ 9
  ∧ at_cell forced_between_model.2 (cell_of (10 * 2 + 0))
    = board_at forced_between_model.2
        (Z.to_nat ((2 - 1) `mod` 3), Z.to_nat ((0 - 1) `mod` 3)).
Proof.
  assert (kenken_csp_model forced_between = Some forced_between_model)
    as Hmodel by (vm_compute; reflexivity).
  assert (grid_size forced_between = Some 3) as Hsize
    by (vm_compute; reflexivity).
  assert (0 ≤ 2 ≤ 3) as Hi by lia.
  assert (0 ≤ 0 ≤ 3) as Hj by lia.
  assert (0 ≤ 9) as Hj9 by lia.
  do 5 (split; [assumption|]).
  exact (cell_index_positions forced_between forced_between_model 3 2 0
           Hmodel Hsize Hi Hj Hj9).
Defined.

(** ** The grid constraints and the variables *)

Lemma cage_loop_no_forced (g : list (list Z)) (b b' : build) :
  forced_rows g = [] → for_each cage_step b g = Some b' → b'.1 = b.1.
Proof.
  revert b. induction g as [|row g IH]; intros b Hf Hloop.
  { by injection Hloop as <-. }
  simpl in Hloop. apply bind_Some in Hloop as (b1 & Hstep & Hloop).
  unfold forced_rows in Hf. rewrite filter_cons in Hf.
  destruct (decide (length row = 2%nat)) as [H2|H2]; [done|].
  rewrite (IH b1 Hf Hloop).
  destruct (cage_step_cases _ _ _ Hstep) as [[? _]|[[_ Hc]|(_ & _ & ->)]];
    [done| |done].
  apply compile_cage_spec in Hc as (con & -> & _). by destruct b as [[? ?] ?].
Qed.

Lemma nary_loop_collect (st : list Var) (vars : board) (size : Z)
    (l : list Z) :
  for_each (λ cons index,
              rowCon ← helper_nary_ad_constraint st index size vars true;
              colCon ← helper_nary_ad_constraint st index size vars false;
              Some (cons ++ [rowCon] ++ [colCon]))
           [] l
  = b ← for_each (grid_step size) (st, vars, []) l; Some b.2.
Proof.
  rewrite grid_loop_collect.
  rewrite (for_each_collect (λ index,
    rowCon ← helper_nary_ad_constraint st index size vars true;
    colCon ← helper_nary_ad_constraint st index size vars false;
    Some [rowCon; colCon])).
  - by destruct (mapM _ l).
  - intros cons x.
    destruct (helper_nary_ad_constraint st x size vars true); simpl; [|done].
    by destruct (helper_nary_ad_constraint st x size vars false).
Qed.

Lemma nary_grid_layout (g : list (list Z)) (N : Z) :
  grid_size g = Some N →
  ∃ ys,
    nary_ad_grid g
    = Some (make_csp N (make_vars (make_dom N)).1 (make_vars (make_dom N)).2
                     (mjoin ys), (make_vars (make_dom N)).2)
    ∧ Forall2 (line_pair (make_vars (make_dom N)).1
                         (make_vars (make_dom N)).2)
              (seq 0 (Z.to_nat N)) ys.
Proof.
  intros HN. unfold nary_ad_grid. rewrite HN. simpl.
  pose proof (make_vars_square (make_dom N)) as Hsq.
  rewrite make_dom_length in Hsq.
  destruct (make_vars (make_dom N)) as [st vars]. simpl in *.
  rewrite nary_loop_collect.
  destruct (decide (0 ≤ N)) as [Hpos|Hneg].
  - destruct (grid_loop_lines _ st vars [] Hsq) as (ys & Hloop & Hys).
    rewrite Z2Nat.id in Hloop by done. rewrite Hloop. simpl.
    by exists ys.
  - rewrite range_nonpos by lia. simpl. exists [].
    split; [done|]. replace (Z.to_nat N) with 0%nat by lia. constructor.
Qed.

(** X16: a description without forced rows compiles to the model of
    [nary_ad_grid] with the cage constraints put in front: the same board,
    the same variables, one more constraint per cage row. *)
Theorem cages_extend_grid_model (g : list (list Z)) (r : CSP * board) :
  kenken_csp_model g = Some r → forced_rows g = [] →
  ∃ rn cage_cons,
    nary_ad_grid g = Some rn
    ∧ r.2 = rn.2
    ∧ csp_name r.1 = csp_name rn.1
    ∧ store r.1 = store rn.1
    ∧ vars r.1 = vars rn.1
    ∧ cons r.1 = cage_cons ++ cons rn.1
    ∧ length cage_cons = length (cage_rows g).
Proof.
  intros Hmodel Hnf. unfold kenken_csp_model, kenken_build in Hmodel.
  apply bind_Some in Hmodel as (N & HN & Hmodel).
  rewrite HN in Hmodel. simpl in Hmodel.
  apply bind_Some in Hmodel as (b & Hb & [= <-]).
  apply bind_Some in Hb as (b1 & Hb1 & Hb).
  pose proof (cage_loop_no_forced _ _ _ Hnf Hb1) as Hsame.
  pose proof (make_vars_square (make_dom N)) as Hsq0.
  destruct (cage_loop_spec (length (make_dom N)) (λ _, True) g
              ((make_vars (make_dom N)).1, (make_vars (make_dom N)).2, []) b1
              ltac:(done) Hsq0 I Hb1)
    as (_ & _ & _ & new & Hnew & Hall).
  apply Forall2_length in Hall.
  unfold nary_ad_grid. rewrite HN. simpl.
  destruct (make_vars (make_dom N)) as [st vars].
  destruct b1 as [[st1 vars1] cons1]. simpl in *.
  injection Hsame as -> ->. subst cons1.
  rewrite nary_loop_collect.
  rewrite grid_loop_collect in Hb |- *.
  apply bind_Some in Hb as (ys & Hys & [= <-]). rewrite Hys. simpl.
  eexists _, new. split; [done|]. by repeat split.
Qed.

Lemma cages_extend_grid_model_witness :
  kenken_csp_model mixed_cages = Some mixed_cages_model
  ∧ forced_rows mixed_cages = []
  ∧ ∃ rn cage_cons,
      nary_ad_grid mixed_cages = Some rn
      ∧ mixed_cages_model.2 = rn.2
      ∧ csp_name mixed_cages_model.1 = csp_name rn.1
      ∧ store mixed_cages_model.1 = store rn.1
      ∧ vars mixed_cages_model.1 = vars rn.1
      ∧ cons mixed_cages_model.1 = cage_cons ++ cons rn.1
      ∧ length cage_cons = length (cage_rows mixed_cages).
Proof.
  assert (kenken_csp_model mixed_cages = Some mixed_cages_model)
    as Hmodel by (vm_compute; reflexivity).
  assert (forced_rows mixed_cages = []) as Hnf by (vm_compute; reflexivity).
  do 2 (split; [assumption|]).
  exact (cages_extend_grid_model mixed_cages mixed_cages_model Hmodel Hnf).
Defined.

Lemma permutation_of_domain (d t : list Z) :
  NoDup d →
  Forall (λ x, x ∈ d) t ∧ length t = length d ∧ NoDup t ↔ t ≡ₚ d.
Proof.
  intros Hd. split.
  - intros (Hin & Hlen & Hnd). apply submseteq_length_Permutation; [|lia].
    apply NoDup_submseteq; [done|]. by apply Forall_forall.
  - intros Hp. split; [|split].
    + apply Forall_forall. intros x Hx. by rewrite <- Hp.
    + by rewrite Hp.
    + by rewrite Hp.
Qed.

Lemma make_dom_NoDup (N : Z) : NoDup (make_dom N).
Proof.
  unfold make_dom, Py.range. apply NoDup_fmap_2; [|apply NoDup_seqZ].
  intros x y Hxy. lia.
Qed.

Lemma all_different_uniform st (d : list Z) vs con :
  NoDup d → Forall (λ v, domain st v = d) vs → length vs = length d →
  all_different_over st vs con → ∀ t, t ∈ sat_tuples con ↔ t ≡ₚ d.
Proof.
  intros Hd Hdom Hlen Had t. rewrite (all_different_elem _ _ _ Had).
  rewrite <- (permutation_of_domain d t Hd). split.
  - intros [Ht Hnd]. split; [|split; [|done]].
    + eapply Forall2_Forall_l; [exact Ht|].
      eapply Forall_impl; [exact Hdom|]. intros v Hv x Hx. by rewrite <- Hv.
    + apply Forall2_length in Ht. lia.
  - intros (Hin & Hl & Hnd). split; [|done].
    apply Forall2_same_length_lookup_2; [lia|]. intros i x v Hx Hv.
    rewrite (Forall_lookup_1 _ _ _ _ Hdom Hv).
    by apply (Forall_lookup_1 _ _ _ _ Hin Hx).
Qed.

(** X17: the model of [nary_ad_grid] has two constraints per index, each
    over the N variables of a row or of a column, and the satisfying tuples
    of each are exactly the arrangements of 1, ..., N. *)
Theorem nary_grid_tuples_are_arrangements (g : list (list Z)) (N : Z) :
  grid_size g = Some N →
  ∃ r, nary_ad_grid g = Some r
       ∧ length (cons r.1) = (2 * Z.to_nat N)%nat
       ∧ ∀ con, con ∈ cons r.1 →
                length (scope con) = Z.to_nat N
                ∧ Forall (λ v, v ∈ vars r.1) (scope con)
                ∧ ∀ t, t ∈ sat_tuples con ↔ t ≡ₚ make_dom N.
Proof.
  intros HN. destruct (nary_grid_layout g N HN) as (ys & Hgrid & Hys).
  eexists. split; [exact Hgrid|]. simpl.
  pose proof (make_vars_square (make_dom N)) as Hsq.
  pose proof (make_vars_spec (make_dom N)) as (_ & Hdom & _).
  rewrite make_dom_length in Hsq.
  split.
  { rewrite (length_mjoin_same 2) by (by eapply line_pair_length).
    apply Forall2_length in Hys. rewrite length_seq in Hys. lia. }
  intros con (y & Hcon & [i Hi]%list_elem_of_lookup)%list_elem_of_join.
  destruct (Forall2_lookup_r _ _ _ _ _ Hys Hi)
    as (k & _ & row & col & rc & cc & Hrow & Hcol & -> & Hr & Hc).
  pose proof Hsq as [Hlen Hrows].
  pose proof (square_board_valid _ _ _ Hsq) as Hval.
  rewrite Forall_forall in Hval.
  assert (∀ vs c, all_different_over (make_vars (make_dom N)).1 vs c →
                  length vs = Z.to_nat N →
                  Forall (λ v, v ∈ mjoin (make_vars (make_dom N)).2) vs →
                  length (scope c) = Z.to_nat N
                  ∧ Forall (λ v, v ∈ mjoin (make_vars (make_dom N)).2)
                           (scope c)
                  ∧ ∀ t, t ∈ sat_tuples c ↔ t ≡ₚ make_dom N) as Hline.
  { intros vs c Had Hl Hin. pose proof Had as [-> _].
    do 2 (split; [done|]).
    apply (all_different_uniform (make_vars (make_dom N)).1 _ vs c
             (make_dom_NoDup N)); [|by rewrite make_dom_length|done].
    eapply Forall_impl; [exact Hin|]. intros v Hv. simpl.
    by apply (domain_lookup _ _ _ Hdom), Hval. }
  apply elem_of_cons in Hcon as [-> | ->%list_elem_of_singleton].
  - apply (Hline row); [done| |].
    + by destruct (Forall_lookup_1 _ _ _ _ Hrows Hrow) as [? _].
    + apply Forall_forall. intros v Hv. apply list_elem_of_join.
      exists row. split; [done|by eapply list_elem_of_lookup_2].
  - apply (Hline col); [done| |by eapply column_in_board].
    apply Forall2_length in Hcol. lia.
Qed.

Lemma nary_grid_tuples_are_arrangements_witness :
  grid_size [[3]] = Some 3
  ∧ ∃ r, nary_ad_grid [[3]] = Some r
         ∧ length (cons r.1) = (2 * Z.to_nat 3)%nat
         ∧ ∀ con, con ∈ cons r.1 →
                  length (scope con) = Z.to_nat 3
                  ∧ Forall (λ v, v ∈ vars r.1) (scope con)
                  ∧ ∀ t, t ∈ sat_tuples con ↔ t ≡ₚ make_dom 3.
Proof.
  assert (grid_size [[3]] = Some 3) as Hsize by (vm_compute; reflexivity).
  split; [exact Hsize|].
  exact (nary_grid_tuples_are_arrangements [[3]] 3 Hsize).
Defined.

Lemma length_combinations2 {A} (l : list A) :
  (2 * length (Py.combinations2 l) = length l * (length l - 1))%nat.
Proof.
  induction l as [|x l IH]; [done|].
  cbn [Py.combinations2 length]. rewrite length_app, length_fmap.
  destruct (length l) as [|m]; simpl in *; lia.
Qed.

Lemma binary_line_spec st (N : Z) (vars : board) (vs : list var_id)
    (cs : list Constraint) :
  Forall (λ v, domain st v = make_dom N ∧ v ∈ mjoin vars) vs →
  Forall2 (λ (p : var_id * var_id) c,
             scope c = [p.1; p.2]
             ∧ sat_tuples c
               = (λ t : Z * Z, [t.1; t.2])
                 <$> filter (λ t : Z * Z, t.1 ≠ t.2)
                       (Py.product2 (domain st p.1) (domain st p.2)))
          (Py.combinations2 vs) cs →
  (2 * length cs = length vs * (length vs - 1))%nat
  ∧ Forall (λ con,
              ∃ v1 v2, scope con = [v1; v2]
                       ∧ v1 ∈ mjoin vars ∧ v2 ∈ mjoin vars
                       ∧ ∀ t, t ∈ sat_tuples con ↔
                              ∃ x y, t = [x; y] ∧ 1 ≤ x ≤ N ∧ 1 ≤ y ≤ N
                                     ∧ x ≠ y) cs.
Proof.
  intros Hvs Hcs. split.
  { rewrite <- (Forall2_length _ _ _ Hcs). apply length_combinations2. }
  eapply Forall2_Forall_r; [exact Hcs|]. apply Forall_forall.
  intros [v1 v2] [Hv1 Hv2]%combinations2_elem con [Hscope Hsat].
  simpl in *. rewrite Forall_forall in Hvs.
  destruct (Hvs v1 Hv1) as [Hd1 Hin1]. destruct (Hvs v2 Hv2) as [Hd2 Hin2].
  exists v1, v2. do 3 (split; [done|]). intros t.
  rewrite Hsat, Hd1, Hd2, list_elem_of_fmap. split.
  - intros ([x y] & -> & [Hne [Hx Hy]%elem_of_product2]%list_elem_of_filter).
    simpl in *. apply elem_of_make_dom in Hx, Hy. by exists x, y.
  - intros (x & y & -> & Hx & Hy & Hne). exists (x, y). split; [done|].
    apply list_elem_of_filter. split; [done|].
    apply elem_of_product2. simpl. by rewrite !elem_of_make_dom.
Qed.

(** X18: the model of [binary_ne_grid] has N * (N - 1) / 2 constraints
    for every row and for every column, N * N * (N - 1) in all; each is
    over two variables of the problem and its satisfying tuples are exactly
    the pairs of different values in 1..N. *)
Theorem binary_grid_constraints (g : list (list Z)) (N : Z) :
  grid_size g = Some N →
  ∃ r, binary_ne_grid g = Some r
       ∧ length (cons r.1)
         = (Z.to_nat N * (Z.to_nat N * (Z.to_nat N - 1)))%nat
       ∧ ∀ con, con ∈ cons r.1 →
                ∃ v1 v2, scope con = [v1; v2]
                         ∧ v1 ∈ vars r.1 ∧ v2 ∈ vars r.1
                         ∧ ∀ t, t ∈ sat_tuples con ↔
                                ∃ x y, t = [x; y] ∧ 1 ≤ x ≤ N ∧ 1 ≤ y ≤ N
                                       ∧ x ≠ y.
Proof.
  intros Hsize. unfold binary_ne_grid. rewrite Hsize. simpl.
  pose proof (make_vars_square (make_dom N)) as Hsq.
  pose proof (make_vars_spec (make_dom N)) as (_ & Hdom & _).
  rewrite make_dom_length in Hsq.
  destruct (make_vars (make_dom N)) as [st vars]. simpl in *.
  set (fb := λ index,
    rowCons ← helper_binary_ne_constraint st index N vars true;
    colCons ← helper_binary_ne_constraint st index N vars false;
    Some (rowCons ++ colCons)).
  rewrite (for_each_collect fb); cycle 1.
  { intros cons x. unfold fb.
    destruct (helper_binary_ne_constraint st x N vars true); simpl; [|done].
    by destruct (helper_binary_ne_constraint st x N vars false). }
  set (n := Z.to_nat N) in *.
  set (P := λ con : Constraint,
    ∃ v1 v2, scope con = [v1; v2] ∧ v1 ∈ mjoin vars ∧ v2 ∈ mjoin vars
             ∧ ∀ t, t ∈ sat_tuples con ↔
                    ∃ x y, t = [x; y] ∧ 1 ≤ x ≤ N ∧ 1 ≤ y ≤ N ∧ x ≠ y).
  assert (∀ x, x ∈ Py.range N →
               ∃ y, fb x = Some y ∧ length y = (n * (n - 1))%nat
                    ∧ Forall P y) as Hfb.
  { intros x Hx%elem_of_seqZ.
    assert (x = Z.of_nat (Z.to_nat x)) as Hxk by lia.
    assert (N = Z.of_nat n) as HNn by lia.
    assert (Z.to_nat x < n)%nat as Hlt by lia.
    destruct (line_vars _ _ _ _ true Hsq Hlt) as (rvs & Hrvs & Hrl & Hrin).
    destruct (line_vars _ _ _ _ false Hsq Hlt) as (cvs & Hcvs & Hcl & Hcin).
    rewrite <- Hxk, <- HNn in Hrvs, Hcvs.
    destruct (helper_binary_spec st _ _ _ _ _ Hrvs) as (rb & Hrb & Hrbs).
    destruct (helper_binary_spec st _ _ _ _ _ Hcvs) as (cb & Hcb & Hcbs).
    destruct (binary_line_spec st N vars rvs rb) as [Hlr Hpr]; [|done|].
    { eapply Forall_impl; [exact Hrin|]. intros v [Hv Hin].
      split; [by apply (domain_lookup _ _ _ Hdom)|done]. }
    destruct (binary_line_spec st N vars cvs cb) as [Hlc Hpc]; [|done|].
    { eapply Forall_impl; [exact Hcin|]. intros v [Hv Hin].
      split; [by apply (domain_lookup _ _ _ Hdom)|done]. }
    exists (rb ++ cb). unfold fb. rewrite Hrb, Hcb. simpl.
    split; [done|]. split; [|by apply Forall_app].
    rewrite length_app. rewrite Hrl in Hlr. rewrite Hcl in Hlc. lia. }
  destruct (mapM_is_Some_2 fb (Py.range N)) as [ys Hys].
  { apply Forall_forall. intros x Hx. simpl.
    destruct (Hfb x Hx) as (y & -> & _). eauto. }
  rewrite Hys. simpl. eexists. split; [done|]. simpl.
  assert (Forall (λ y, length y = (n * (n - 1))%nat ∧ Forall P y) ys) as Hall.
  { apply Forall_forall. intros y Hy.
    apply (mapM_elems _ _ _ Hys) in Hy as (x & Hx & Hfx).
    destruct (Hfb x Hx) as (y' & Hfx' & HP).
    rewrite Hfx in Hfx'. by injection Hfx' as <-. }
  split.
  - rewrite (length_mjoin_same (n * (n - 1))).
    + apply length_mapM in Hys. unfold Py.range in Hys.
      rewrite length_seqZ in Hys. fold n in Hys. by rewrite <- Hys.
    + eapply Forall_impl; [exact Hall|]. by intros y [? _].
  - intros con (y & Hcon & Hy)%list_elem_of_join.
    rewrite Forall_forall in Hall. destruct (Hall y Hy) as [_ HP].
    rewrite Forall_forall in HP. by apply HP.
Qed.

Lemma binary_grid_constraints_witness :
  grid_size [[3]] = Some 3
  ∧ ∃ r, binary_ne_grid [[3]] = Some r
         ∧ length (cons r.1)
           = (Z.to_nat 3 * (Z.to_nat 3 * (Z.to_nat 3 - 1)))%nat
         ∧ ∀ con, con ∈ cons r.1 →
                  ∃ v1 v2, scope con = [v1; v2]
                           ∧ v1 ∈ vars r.1 ∧ v2 ∈ vars r.1
                           ∧ ∀ t, t ∈ sat_tuples con ↔
                                  ∃ x y, t = [x; y] ∧ 1 ≤ x ≤ 3 ∧ 1 ≤ y ≤ 3
                                         ∧ x ≠ y.
Proof.
  assert (grid_size [[3]] = Some 3) as Hsize by (vm_compute; reflexivity).
  split; [exact Hsize|].
  exact (binary_grid_constraints [[3]] 3 Hsize).
Defined.

Lemma make_vars_store (d : list Z) :
  (make_vars d).1
  = mjoin ((λ vRow, (λ vCol, new_Variable (cell_name vRow vCol) d) <$> d)
           <$> d).
Proof.
  unfold make_vars.
  enough (∀ l,
    (foldl (λ (acc : list Var * board) vRow,
              let r := make_row d vRow acc.1 in (r.1, acc.2 ++ [r.2]))
           ([], []) l).1
    = mjoin ((λ vRow, (λ vCol, new_Variable (cell_name vRow vCol) d) <$> d)
             <$> l)) as H by apply H.
  induction l as [|x l IH] using rev_ind; [done|].
  cbn zeta in *. rewrite foldl_snoc, make_row_spec. cbn [fst].
  rewrite IH, fmap_app, join_app. simpl. by rewrite app_nil_r.
Qed.

Lemma make_dom_lookup (N : Z) (i : nat) :
  (i < Z.to_nat N)%nat → make_dom N !! i = Some (Z.of_nat i + 1).
Proof.
  intros Hi. unfold make_dom, Py.range.
  rewrite list_lookup_fmap, lookup_seqZ_lt by lia. simpl. f_equal; lia.
Qed.

Lemma initial_cell (N : Z) (i j : nat) :
  (i < Z.to_nat N)%nat → (j < Z.to_nat N)%nat →
  board_at (make_vars (make_dom N)).2 (i, j) = Some (i * Z.to_nat N + j)%nat
  ∧ (make_vars (make_dom N)).1 !! (i * Z.to_nat N + j)%nat
    = Some (new_Variable (cell_name (Z.of_nat i + 1) (Z.of_nat j + 1))
                         (make_dom N)).
Proof.
  intros Hi Hj. split.
  - destruct (make_vars_spec (make_dom N)) as (_ & _ & ->).
    rewrite make_dom_length. unfold board_at. cbn [fst snd].
    rewrite list_lookup_fmap, lookup_seq_lt by done. simpl.
    by rewrite lookup_seq_lt by done.
  - rewrite make_vars_store.
    apply (join_lookup_Some_same_length' (Z.to_nat N)); [|done|].
    + apply Forall_fmap, Forall_true. intros x. simpl.
      by rewrite length_fmap, make_dom_length.
    + eexists. split.
      * by rewrite list_lookup_fmap, make_dom_lookup by done.
      * by rewrite list_lookup_fmap, make_dom_lookup by done.
Qed.

(** X19: the variables of the two grid models. The cell in row i and
    column j of the board (counted from 0) is the object number i * N + j
    of the store: a new variable named V{i+1}{j+1} with the domain
    1, ..., N, unassigned and with its full current domain. *)
Theorem grid_model_variables (g : list (list Z)) (N : Z) (i j : nat) :
  grid_size g = Some N → (i < Z.to_nat N)%nat → (j < Z.to_nat N)%nat →
  ∃ rb rn,
    binary_ne_grid g = Some rb ∧ nary_ad_grid g = Some rn
    ∧ board_at rb.2 (i, j) = Some (i * Z.to_nat N + j)%nat
    ∧ board_at rn.2 (i, j) = Some (i * Z.to_nat N + j)%nat
    ∧ store rb.1 !! (i * Z.to_nat N + j)%nat
      = Some (new_Variable (cell_name (Z.of_nat i + 1) (Z.of_nat j + 1))
                           (make_dom N))
    ∧ store rn.1 !! (i * Z.to_nat N + j)%nat
      = Some (new_Variable (cell_name (Z.of_nat i + 1) (Z.of_nat j + 1))
                           (make_dom N)).
Proof.
  intros HN Hi Hj.
  destruct (grid_compilers_spec g N HN) as (consb & consn & Hb & Hn & _).
  destruct (initial_cell N i j Hi Hj) as [Hboard Hstore].
  eexists _, _. split; [exact Hb|]. split; [exact Hn|]. by simpl.
Qed.

Lemma grid_model_variables_witness :
  grid_size [[3]] = Some 3 ∧ (1 < Z.to_nat 3)%nat ∧ (2 < Z.to_nat 3)%nat
  ∧ ∃ rb rn,
      binary_ne_grid [[3]] = Some rb ∧ nary_ad_grid [[3]] = Some rn
      ∧ board_at rb.2 (1, 2)%nat = Some (1 * Z.to_nat 3 + 2)%nat
      ∧ board_at rn.2 (1, 2)%nat = Some (1 * Z.to_nat 3 + 2)%nat
      ∧ store rb.1 !! (1 * Z.to_nat 3 + 2)%nat
        = Some (new_Variable
                  (cell_name (Z.of_nat 1 + 1) (Z.of_nat 2 + 1)) (make_dom 3))
      ∧ store rn.1 !! (1 * Z.to_nat 3 + 2)%nat
        = Some (new_Variable
                  (cell_name (Z.of_nat 1 + 1) (Z.of_nat 2 + 1)) (make_dom 3)).
Proof.
  assert (grid_size [[3]] = Some 3) as Hsize by (vm_compute; reflexivity).
  assert (1 < Z.to_nat 3)%nat as Hi by (vm_compute; lia).
  assert (2 < Z.to_nat 3)%nat as Hj by (vm_compute; lia).
  do 3 (split; [assumption|]).
  exact (grid_model_variables [[3]] 3 1%nat 2%nat Hsize Hi Hj).
Defined.

Lemma force_cell_variable (g : list (list Z)) n (d : list Z) (b b1 : build)
    (cage : list Z) :
  cage ∈ g → length cage = 2%nat → square_board n b.1.1 b.1.2 →
  force_cell b cage = Some b1 →
  (n * n ≤ length b.1.1)%nat →
  (∀ i j, (i < n)%nat → (j < n)%nat →
          ∃ x o, board_at b.1.2 (i, j) = Some x ∧ b.1.1 !! x = Some o
                 ∧ cell_variable g n d (i, j) x o) →
  ∀ i j, (i < n)%nat → (j < n)%nat →
         ∃ x o, board_at b1.1.2 (i, j) = Some x ∧ b1.1.1 !! x = Some o
                ∧ cell_variable g n d (i, j) x o.
Proof.
  intros Hin H2 Hsq Hf Hlen HQ i j Hi Hj.
  apply force_cell_spec in Hf
    as (val & c & ki & kj & row & Hval & Hc & Hki & Hrow & Hkj & ->).
  destruct cage as [|c0 [|v0 [|? ?]]]; try done.
  rewrite get_head in Hc. injection Hc as <-.
  change 1 with (Z.of_nat 1) in Hval. rewrite get_nat in Hval by (simpl; lia).
  injection Hval as <-.
  pose proof Hsq as [Hl Hrows].
  destruct (Forall_lookup_1 _ _ _ _ Hrows Hrow) as [Hrl _].
  cbn [fst snd].
  rewrite board_at_insert by (done || by eapply norm_index_lt).
  destruct (decide ((i, j) = (ki, kj))) as [[= -> ->]|Hne].
  - eexists _, _. split; [done|]. split; [by apply list_lookup_middle|].
    right. split; [lia|]. exists c0, v0. split; [done|]. split.
    + rewrite Hl in Hki. rewrite Hrl in Hkj.
      unfold cell_pos. rewrite Hki. cbn [mbind option_bind].
      by rewrite Hkj.
    + unfold cell_of. cbn [fst snd]. do 2 f_equal; lia.
  - destruct (HQ i j Hi Hj) as (x & o & Hx & Ho & Hcv).
    exists x, o. split; [done|]. split; [by apply lookup_app_l_Some|done].
Qed.

(** X20: the variables of the board of a compiled model. Every cell holds
    an object of the store that is a new variable, unassigned and with its
    full current domain: either the one created for the cell at the start,
    object number i * N + j, named V{i+1}{j+1}, with the domain 1, ..., N,
    or one created later by a forced row [[c; v]] of the description for
    this cell, named after the two digits of [c], with the domain [[v]]. *)
Theorem kenken_board_variables (g : list (list Z)) (r : CSP * board)
    (N : Z) (i j : nat) :
  kenken_csp_model g = Some r → grid_size g = Some N →
  (i < Z.to_nat N)%nat → (j < Z.to_nat N)%nat →
  ∃ x o, board_at r.2 (i, j) = Some x
         ∧ store r.1 !! x = Some o
         ∧ cell_variable g (Z.to_nat N) (make_dom N) (i, j) x o.
Proof.
  intros Hmodel HN Hi Hj.
  apply kenken_model_stages in Hmodel as (N' & b1 & b & HN' & Hb1 & Hb & ->).
  rewrite HN in HN'. injection HN' as <-.
  pose proof (make_vars_square (make_dom N)) as Hsq0.
  pose proof (make_vars_spec (make_dom N)) as (Hlen0 & _ & _).
  rewrite make_dom_length in Hsq0, Hlen0.
  destruct (cage_loop_spec (Z.to_nat N)
              (λ b : build,
                 (Z.to_nat N * Z.to_nat N ≤ length b.1.1)%nat
                 ∧ ∀ i j, (i < Z.to_nat N)%nat → (j < Z.to_nat N)%nat →
                     ∃ x o, board_at b.1.2 (i, j) = Some x
                            ∧ b.1.1 !! x = Some o
                            ∧ cell_variable g (Z.to_nat N) (make_dom N)
                                            (i, j) x o) g
              ((make_vars (make_dom N)).1, (make_vars (make_dom N)).2, []) b1)
    as (Hsq1 & [_ HQ] & _); try done.
  { intros cage b0 b0' Hin Hsq [Hlen HQ] Hstep.
    destruct (cage_step_cases _ _ _ Hstep)
      as [[H2 Hf]|[[_ Hc]|(_ & _ & ->)]]; [| |done].
    - split; [|by eapply force_cell_variable].
      apply force_cell_spec in Hf as (? & ? & ? & ? & ? & _ & _ & _ & _ & _ & ->).
      cbn [fst snd]. rewrite length_app. lia.
    - by apply compile_cage_spec in Hc as (con & -> & _). }
  { cbn [fst snd]. split; [lia|]. intros i' j' Hi' Hj'.
    destruct (initial_cell N i' j' Hi' Hj') as [Hboard Hstore].
    eexists _, _. split; [done|]. split; [done|]. by left. }
  destruct b1 as [[st1 vars1] cons1]. cbn [fst snd] in *.
  destruct (grid_loop_spec _ st1 vars1 cons1 Hsq1) as (lines & Hlines & _).
  rewrite Hlines in Hb. injection Hb as <-. cbn [fst snd make_csp store].
  by apply HQ.
Qed.

Lemma kenken_board_variables_witness :
  kenken_csp_model forced_between = Some forced_between_model
  ∧ grid_size forced_between = Some 3
  ∧ (0 < Z.to_nat 3)%nat ∧ (0 < Z.to_nat 3)%nat
  ∧ ∃ x o, board_at forced_between_model.2 (0, 0)%nat = Some x
           ∧ store forced_between_model.1 !! x = Some o
           ∧ cell_variable forced_between (Z.to_nat 3) (make_dom 3)
                           (0, 0)%nat x o.
Proof.
  assert (kenken_csp_model forced_between = Some forced_between_model)
    as Hmodel by (vm_compute; reflexivity).
  assert (grid_size forced_between = Some 3) as Hsize
    by (vm_compute; reflexivity).
  assert (0 < Z.to_nat 3)%nat as Hi by (vm_compute; lia).
  do 3 (split; [assumption|]). split; [exact Hi|].
  exact (kenken_board_variables forced_between forced_between_model 3
           0%nat 0%nat Hmodel Hsize Hi Hi).
Defined.
